(** * Scoreboard service (problem6): score-update pipeline, token validator,
      rate limiter and leaderboard, embedded from the TypeScript sources.

    The services talk to two external collaborators, Redis and PostgreSQL.
    Both are modelled by the part of their documented behaviour that the
    services call: string keys with a time to live and one sorted set for
    Redis; the [user_scores] and [audit_log] tables, with BEGIN / COMMIT /
    ROLLBACK, for PostgreSQL.  A JavaScript exception is an explicit outcome
    of a computation, and [try { } catch { }] is a combinator. *)

From Stdlib Require Import ZArith String Ascii List Lia Bool Sorted.
From Stdlib Require Import DecimalString DecimalZ DecimalN DecimalPos.
From stdpp Require Import gmap strings list fin_maps.

Open Scope Z_scope.

(** ** JavaScript numbers and strings *)

(** The numbers that flow through the services are integers or [NaN]
    ([parseInt] of a text without digits). *)
Inductive number :=
| Num (z : Z)
| NaN.

Definition number_add (a b : number) : number :=
  match a, b with
  | Num x, Num y => Num (x + y)
  | _, _ => NaN
  end.

Definition number_sub (a b : number) : number :=
  match a, b with
  | Num x, Num y => Num (x - y)
  | _, _ => NaN
  end.

(** [a >= b]; every comparison with [NaN] is false. *)
Definition number_geb (a b : number) : bool :=
  match a, b with
  | Num x, Num y => y <=? x
  | _, _ => false
  end.

(** [a === b] on numbers. *)
Definition number_eqb (a b : number) : bool :=
  match a, b with
  | Num x, Num y => x =? y
  | _, _ => false
  end.

(** [Number.prototype.toString] on an integer: decimal digits, with a
    leading minus sign for a negative one. *)
Definition Z_toString (z : Z) : string :=
  NilZero.string_of_int (Z.to_int z).

Definition number_toString (n : number) : string :=
  match n with
  | Num z => Z_toString z
  | NaN => "NaN"
  end.

(** Value of a character as a digit: 0-9, then a-z and A-Z from 10. *)
Definition digit_value (c : ascii) : option Z :=
  let n := Z.of_N (N_of_ascii c) in
  if (48 <=? n) && (n <=? 57) then Some (n - 48)
  else if (97 <=? n) && (n <=? 122) then Some (n - 87)
  else if (65 <=? n) && (n <=? 90) then Some (n - 55)
  else None.

Definition radix_digit (radix : Z) (c : ascii) : option Z :=
  match digit_value c with
  | Some d => if d <? radix then Some d else None
  | None => None
  end.

(** The longest prefix of digits, read in [radix]. *)
Fixpoint parse_digits (radix acc : Z) (s : string) : Z :=
  match s with
  | String c s' =>
      match radix_digit radix c with
      | Some d => parse_digits radix (acc * radix + d) s'
      | None => acc
      end
  | EmptyString => acc
  end.

Definition parse_number (radix : Z) (s : string) : number :=
  match s with
  | String c _ =>
      match radix_digit radix c with
      | Some _ => Num (parse_digits radix 0 s)
      | None => NaN
      end
  | EmptyString => NaN
  end.

Definition is_whitespace (c : ascii) : bool :=
  let n := N_of_ascii c in
  ((9 <=? n) && (n <=? 13))%N || (n =? 32)%N.

Fixpoint skip_whitespace (s : string) : string :=
  match s with
  | String c s' => if is_whitespace c then skip_whitespace s' else s
  | EmptyString => s
  end.

(** After the sign, a [0x] or [0X] prefix selects radix 16. *)
Definition parse_unsigned (s : string) : number :=
  match s with
  | String "0" (String "x" s') => parse_number 16 s'
  | String "0" (String "X" s') => parse_number 16 s'
  | _ => parse_number 10 s
  end.

Definition number_neg (n : number) : number :=
  match n with
  | Num z => Num (- z)
  | NaN => NaN
  end.

(** [parseInt(text)] without a radix argument. *)
Definition parseInt (s : string) : number :=
  match skip_whitespace s with
  | String "-" s' => number_neg (parse_unsigned s')
  | String "+" s' => parse_unsigned s'
  | s' => parse_unsigned s'
  end.

(** [text.substring(0, n)]. *)
Fixpoint take_string (n : nat) (s : string) : string :=
  match n, s with
  | S n', String c s' => String c (take_string n' s')
  | _, _ => EmptyString
  end.

(** [text.substring(n)]. *)
Fixpoint drop_string (n : nat) (s : string) : string :=
  match n, s with
  | S n', String c s' => drop_string n' s'
  | _, _ => s
  end.

Fixpoint all_spaces (s : string) : bool :=
  match s with
  | EmptyString => true
  | String c s' => Ascii.eqb c " " && all_spaces s'
  end.

(** A text between double quotes, as messages of libraries show a value. *)
Definition quoted (s : string) : string :=
  String (ascii_of_nat 34) s +:+ String (ascii_of_nat 34) EmptyString.

(** Truthiness of a [string | null] value: [null] and the empty text are
    falsy. *)
Definition truthy (v : option string) : bool :=
  match v with
  | Some EmptyString => false
  | Some _ => true
  | None => false
  end.

(** ** Types (types/index.ts) *)

Record UserScore := {
  us_userId : string;
  us_username : string;
  us_currentScore : number;
  us_lastUpdated : Z;
  us_rank : option Z
}.

Record LeaderboardResponse := {
  topUsers : list UserScore;
  lr_lastUpdated : Z;
  totalUsers : Z
}.

Record ActionToken := {
  at_userId : string;
  at_actionType : string;
  at_timestamp : Z;
  at_nonce : string
}.

(** A JSON web token as [jwt.verify] sees it: the payload, the issue and
    expiry times in seconds, and whether the signature is the server's.  A
    malformed or forged text is a token that is not [jwt_signed]. *)
Record Jwt := {
  jwt_payload : ActionToken;
  jwt_iat : Z;
  jwt_exp : Z;
  jwt_signed : bool
}.

Record ScoreUpdateRequest := {
  req_userId : string;
  req_actionType : string;
  req_scoreIncrement : Z;
  req_actionToken : Jwt;
  req_timestamp : Z
}.

Record ScoreUpdateResponse := {
  resp_success : bool;
  resp_newScore : number;
  resp_newRank : option Z;
  resp_message : option string
}.

(** A client address as the audit log receives it: its text, and whether
    PostgreSQL reads that text as a value of type INET (an IPv4 or IPv6
    address, with or without a netmask).  Express takes [req.ip] from the
    socket or, behind a trusted proxy, from a request header, so any text
    can arrive; [inet] carries a text PostgreSQL accepts and [not_inet] any
    other text. *)
Inductive ip_text :=
| inet (text : string)
| not_inet (text : string).

Definition ip_string (a : ip_text) : string :=
  match a with
  | inet s | not_inet s => s
  end.

Definition is_inet (a : ip_text) : bool :=
  match a with
  | inet _ => true
  | not_inet _ => false
  end.

Record AuditLogEntry := {
  al_id : nat;
  al_userId : string;
  al_actionType : string;
  al_scoreChange : Z;
  al_previousScore : number;
  al_newScore : number;
  al_ipAddress : ip_text;
  al_userAgent : string;
  al_timestamp : Z;
  al_success : bool;
  al_errorMessage : option string
}.

Module ActionType.
Definition GAME_COMPLETE : string := "GAME_COMPLETE".
Definition LEVEL_COMPLETE : string := "LEVEL_COMPLETE".
Definition ACHIEVEMENT_UNLOCK : string := "ACHIEVEMENT_UNLOCK".
Definition BONUS_COLLECT : string := "BONUS_COLLECT".
Definition DAILY_LOGIN : string := "DAILY_LOGIN".
Definition values : list string :=
  [GAME_COMPLETE; LEVEL_COMPLETE; ACHIEVEMENT_UNLOCK; BONUS_COLLECT; DAILY_LOGIN].
End ActionType.

Module ErrorCodes.
Definition INVALID_ACTION_TOKEN : string := "INVALID_ACTION_TOKEN".
Definition EXPIRED_TOKEN : string := "EXPIRED_TOKEN".
Definition UNAUTHORIZED : string := "UNAUTHORIZED".
Definition RATE_LIMIT_EXCEEDED : string := "RATE_LIMIT_EXCEEDED".
Definition INVALID_SCORE_INCREMENT : string := "INVALID_SCORE_INCREMENT".
Definition USER_NOT_FOUND : string := "USER_NOT_FOUND".
Definition INTERNAL_ERROR : string := "INTERNAL_ERROR".
End ErrorCodes.

(** [validActionTypes.includes(x)] and the like. *)
Definition includes (l : list string) (x : string) : bool :=
  existsb (String.eqb x) l.

(** ** The world the services run in *)

(** A text held under a Redis key.  A leaderboard snapshot is the text
    [JSON.stringify(response)]; it is kept symbolic as [JsonText r], the
    text that [JSON.parse] reads back as [r]. *)
Inductive rvalue :=
| Str (s : string)
| JsonText (r : LeaderboardResponse).

Definition rvalue_truthy (v : option rvalue) : bool :=
  match v with
  | Some (Str s) => truthy (Some s)
  | Some (JsonText _) => true
  | None => false
  end.

(** [parseInt] of a stored text; a JSON object text starts with a brace. *)
Definition rvalue_parseInt (v : rvalue) : number :=
  match v with
  | Str s => parseInt s
  | JsonText _ => NaN
  end.

(** A key's value and the time at which it expires, if it has a time to
    live. *)
Record entry := {
  e_value : rvalue;
  e_expire : option Z
}.

Definition entry_live (t : Z) (e : entry) : bool :=
  match e_expire e with
  | Some x => t <? x
  | None => true
  end.

(** A sorted set, highest score first (the order ZREVRANK counts in). *)
Definition zset := list (string * Z).

Record Redis := {
  isConnected : bool;
  keys : gmap string entry;
  zsets : gmap string zset
}.

(** PostgreSQL: the two tables the score service writes, the snapshot taken
    by BEGIN, the outcome of the coming queries ([true]: the query fails
    before it reaches the server), one per query, past the end of the list
    queries reach the server; and whether the open transaction is aborted
    (a statement in it raised an error). *)
Record Database := {
  user_scores : gmap string Z;
  audit_log : list AuditLogEntry;
  snapshot : option (gmap string Z * list AuditLogEntry);
  faults : list bool;
  aborted : bool
}.

(** What the WebSocket manager was asked to send. *)
Inductive Notification :=
| score_update (userId : string) (newScore : number) (oldRank newRank : option Z)
    (scoreIncrease : Z)
| leaderboard_update.

Record World := {
  clock : Z;
  redis : Redis;
  db : Database;
  uuids : nat;
  wsManager : bool;
  sent : list Notification
}.

Definition with_redis (r : Redis) (w : World) : World :=
  {| clock := clock w; redis := r; db := db w; uuids := uuids w;
     wsManager := wsManager w; sent := sent w |}.

Definition with_db (d : Database) (w : World) : World :=
  {| clock := clock w; redis := redis w; db := d; uuids := uuids w;
     wsManager := wsManager w; sent := sent w |}.

Definition with_keys (k : gmap string entry) (r : Redis) : Redis :=
  {| isConnected := isConnected r; keys := k; zsets := zsets r |}.

Definition with_zsets (z : gmap string zset) (r : Redis) : Redis :=
  {| isConnected := isConnected r; keys := keys r; zsets := z |}.

(** ** Computations that may throw *)

Inductive exn :=
| Error (message : string)
| TokenExpiredError (message : string)
| JsonWebTokenError (message : string)
| SyntaxError (message : string)
| TypeError (message : string).

(** [error.message]; every exception here is an instance of [Error]. *)
Definition exn_message (e : exn) : string :=
  match e with
  | Error m | TokenExpiredError m | JsonWebTokenError m | SyntaxError m
  | TypeError m => m
  end.

Inductive outcome (A : Type) :=
| Returned (a : A)
| Thrown (e : exn).
Arguments Returned {A} a.
Arguments Thrown {A} e.

Definition M (A : Type) : Type := World -> outcome A * World.

#[global] Instance M_ret : MRet M := fun A a w => (Returned a, w).

#[global] Instance M_bind : MBind M := fun A B k m w =>
  match m w with
  | (Returned a, w') => k a w'
  | (Thrown e, w') => (Thrown e, w')
  end.

Definition throw {A} (e : exn) : M A := fun w => (Thrown e, w).

(** [try { body } catch (error) { handler }]. *)
Definition try_catch {A} (body : M A) (handler : exn -> M A) : M A := fun w =>
  match body w with
  | (Returned a, w') => (Returned a, w')
  | (Thrown e, w') => handler e w'
  end.

Definition gets {A} (f : World -> A) : M A := fun w => (Returned (f w), w).

Definition modify (f : World -> World) : M unit := fun w => (Returned tt, f w).

(** The empty statement. *)
Definition skip : M unit := mret tt.

(** [new Date()]. *)
Definition Date_now : M Z := gets clock.

(** [uuidv4()]: a fresh identifier. *)
Definition uuidv4 : M nat := fun w =>
  (Returned (uuids w),
   {| clock := clock w; redis := redis w; db := db w; uuids := S (uuids w);
      wsManager := wsManager w; sent := sent w |}).

(** ** Redis commands *)

Module RedisServer.

(** GET: the value of a key that has not expired. *)
Definition GET (t : Z) (key : string) (r : Redis) : option rvalue :=
  match keys r !! key with
  | Some e => if entry_live t e then Some (e_value e) else None
  | None => None
  end.

(** SET without options: the value is stored and any time to live the
    key had is discarded. *)
Definition SET (key : string) (v : rvalue) (r : Redis) : Redis :=
  with_keys (<[key := {| e_value := v; e_expire := None |}]> (keys r)) r.

(** SETEX: the value is stored and expires [seconds] from now. *)
Definition SETEX (t : Z) (key : string) (seconds : Z) (v : rvalue) (r : Redis) : Redis :=
  with_keys (<[key := {| e_value := v; e_expire := Some (t + seconds) |}]> (keys r)) r.

(** DEL: the number of keys removed. *)
Definition DEL (t : Z) (key : string) (r : Redis) : Z * Redis :=
  (match GET t key r with Some _ => 1 | None => 0 end,
   with_keys (delete key (keys r)) r).

(** EXISTS. *)
Definition EXISTS (t : Z) (key : string) (r : Redis) : Z :=
  match GET t key r with Some _ => 1 | None => 0 end.

(** Order of a sorted set read from the top: higher score first, and for
    equal scores the lexicographically greater member first. *)
Definition zprecedes (a b : string * Z) : bool :=
  (snd b <? snd a) || ((snd a =? snd b) && String.ltb (fst b) (fst a)).

Definition zremove (member : string) (l : zset) : zset :=
  List.filter (fun e => negb (String.eqb (fst e) member)) l.

Fixpoint zinsert (e : string * Z) (l : zset) : zset :=
  match l with
  | [] => [e]
  | x :: l' => if zprecedes x e then x :: zinsert e l' else e :: x :: l'
  end.

Definition zmember (member : string) (l : zset) : bool :=
  existsb (fun e => String.eqb (fst e) member) l.

Definition zget (key : string) (r : Redis) : zset :=
  default [] (zsets r !! key).

(** ZADD of one member: the member moves to the place of its new score;
    the reply counts the members that are new. *)
Definition ZADD (key : string) (score : Z) (member : string) (r : Redis) : Z * Redis :=
  let l := zget key r in
  (if zmember member l then 0 else 1,
   with_zsets (<[key := zinsert (member, score) (zremove member l)]> (zsets r)) r).

Fixpoint zindex (member : string) (l : zset) : option Z :=
  match l with
  | [] => None
  | x :: l' =>
      if String.eqb (fst x) member then Some 0
      else option_map Z.succ (zindex member l')
  end.

(** ZREVRANK: 0-based place counted from the highest score. *)
Definition ZREVRANK (key member : string) (r : Redis) : option Z :=
  zindex member (zget key r).

Definition ZSCORE (key member : string) (r : Redis) : option Z :=
  option_map snd (List.find (fun e => String.eqb (fst e) member) (zget key r)).

Definition ZCARD (key : string) (r : Redis) : Z :=
  Z.of_nat (length (zget key r)).

End RedisServer.

(** ** cache/RedisClient.ts *)

Module RedisClient.

(** The check that opens every method of the wrapper. *)
Definition ready : M unit := fun w =>
  if isConnected (redis w) then (Returned tt, w)
  else (Thrown (Error "Redis client not initialized or not connected"), w).

Definition get (key : string) : M (option rvalue) :=
  ready ;; gets (fun w => RedisServer.GET (clock w) key (redis w)).

Definition set (key : string) (value : rvalue) : M unit :=
  ready ;; modify (fun w => with_redis (RedisServer.SET key value (redis w)) w).

Definition setex (key : string) (seconds : Z) (value : rvalue) : M unit :=
  ready ;;
  modify (fun w => with_redis (RedisServer.SETEX (clock w) key seconds value (redis w)) w).

Definition del (key : string) : M Z :=
  ready ;;
  n ← gets (fun w => fst (RedisServer.DEL (clock w) key (redis w))) ;
  modify (fun w => with_redis (snd (RedisServer.DEL (clock w) key (redis w))) w) ;;
  mret n.

Definition exists_ (key : string) : M Z :=
  ready ;; gets (fun w => RedisServer.EXISTS (clock w) key (redis w)).

Definition zadd (key : string) (score : number) (member : string) : M Z :=
  ready ;;
  match score with
  | Num s =>
      n ← gets (fun w => fst (RedisServer.ZADD key s member (redis w))) ;
      modify (fun w => with_redis (snd (RedisServer.ZADD key s member (redis w))) w) ;;
      mret n
  | NaN => throw (Error "ERR value is not a valid float")
  end.

(** The wrapper calls [client.zRevRangeWithScores] and
    [client.zRevRange]; the client of the redis package has neither method
    (it has [zRangeWithScores] and [zRange] with a REV option), so the
    call is a TypeError once the connection check has passed. *)
Definition zrevrange (key : string) (start stop : Z) (withScores : bool) : M (list string) :=
  ready ;;
  if withScores then
    throw (TypeError "this.client.zRevRangeWithScores is not a function")
  else
    throw (TypeError "this.client.zRevRange is not a function").

(** [zrank] of the wrapper asks for ZREVRANK. *)
Definition zrank (key member : string) : M (option Z) :=
  ready ;; gets (fun w => RedisServer.ZREVRANK key member (redis w)).

Definition zscore (key member : string) : M (option Z) :=
  ready ;; gets (fun w => RedisServer.ZSCORE key member (redis w)).

Definition zcard (key : string) : M Z :=
  ready ;; gets (fun w => RedisServer.ZCARD key (redis w)).

End RedisClient.

(** ** database/DatabaseConnection.ts *)

Module DatabaseConnection.

(** The statements the score service sends. *)
Inductive statement :=
| BEGIN
| COMMIT
| ROLLBACK
| UPSERT_USER_SCORE (user_id : string) (score : number) (last_updated : Z)
| INSERT_AUDIT_LOG (entry : AuditLogEntry)
| SELECT_SCORE (user_id : string).

Definition with_faults (f : list bool) (d : Database) : Database :=
  {| user_scores := user_scores d; audit_log := audit_log d;
     snapshot := snapshot d; faults := f; aborted := aborted d |}.

(** The columns of [createTables] that the statements write:
    [user_scores (user_id VARCHAR(255), score INTEGER)] and
    [audit_log (user_id VARCHAR(255), action_type VARCHAR(100),
    score_change, previous_score, new_score INTEGER, ip_address INET)]. *)
Definition INTEGER_MIN : Z := -2147483648.
Definition INTEGER_MAX : Z := 2147483647.

(** The input function of INTEGER on the text of a JavaScript number. *)
Definition integer_in (n : number) : string + Z :=
  match n with
  | NaN => inl ("invalid input syntax for type integer: " +:+ quoted "NaN")
  | Num z =>
      if (z <? INTEGER_MIN) || (INTEGER_MAX <? z) then
        inl ("value " +:+ quoted (Z_toString z) +:+ " is out of range for type integer")
      else inr z
  end.

(** The input function of INET. *)
Definition inet_in (a : ip_text) : string + ip_text :=
  if is_inet a then inr a
  else inl ("invalid input syntax for type inet: " +:+ quoted (ip_string a)).

(** The length coercion of VARCHAR(n): a longer text is an error unless
    the excess is all spaces, which are cut off. *)
Definition varchar (n : nat) (s : string) : string + string :=
  if (String.length s <=? n)%nat then inr s
  else if all_spaces (drop_string n s) then inr (take_string n s)
  else inl ("value too long for type character varying("
            +:+ Z_toString (Z.of_nat n) +:+ ")").

(** A transaction is open and one of its statements raised an error. *)
Definition in_failed_transaction (d : Database) : bool :=
  match snapshot d with
  | Some _ => aborted d
  | None => false
  end.

(** ROLLBACK, and COMMIT of an aborted transaction: the tables are those
    of the snapshot. *)
Definition rollback (d : Database) : Database :=
  match snapshot d with
  | Some (s, a) =>
      {| user_scores := s; audit_log := a; snapshot := None;
         faults := faults d; aborted := false |}
  | None =>
      {| user_scores := user_scores d; audit_log := audit_log d; snapshot := None;
         faults := faults d; aborted := false |}
  end.

(** The server raised an error on a statement: an open transaction is
    aborted from then on. *)
Definition fail_statement (d : Database) : Database :=
  {| user_scores := user_scores d; audit_log := audit_log d;
     snapshot := snapshot d; faults := faults d;
     aborted := match snapshot d with Some _ => true | None => aborted d end |}.

(** What the server does with a statement: the error it raises, or the
    [score] column of the rows it answers and its new state.  The values
    of the parameters are read in the order of the parameters when the
    statement is bound (INTEGER and INET), the lengths of the VARCHAR
    columns are checked when it runs.  In an aborted transaction every
    statement but COMMIT and ROLLBACK is an error, and COMMIT rolls back
    without one. *)
Definition execute (q : statement) (d : Database) : string + (list Z * Database) :=
  if in_failed_transaction d then
    match q with
    | COMMIT | ROLLBACK => inr ([], rollback d)
    | _ =>
        inl ("current transaction is aborted, "
             +:+ "commands ignored until end of transaction block")
    end
  else
    match q with
    | BEGIN =>
        inr ([], {| user_scores := user_scores d; audit_log := audit_log d;
                    snapshot := match snapshot d with
                                | Some s => Some s
                                | None => Some (user_scores d, audit_log d)
                                end;
                    faults := faults d; aborted := false |})
    | COMMIT =>
        inr ([], {| user_scores := user_scores d; audit_log := audit_log d;
                    snapshot := None; faults := faults d; aborted := false |})
    | ROLLBACK => inr ([], rollback d)
    | UPSERT_USER_SCORE user_id score _ =>
        match integer_in score with
        | inl e => inl e
        | inr score =>
            match varchar 255 user_id with
            | inl e => inl e
            | inr user_id =>
                inr ([], {| user_scores := <[user_id := score]> (user_scores d);
                            audit_log := audit_log d; snapshot := snapshot d;
                            faults := faults d; aborted := aborted d |})
            end
        end
    | INSERT_AUDIT_LOG entry =>
        match integer_in (Num (al_scoreChange entry)) with
        | inl e => inl e
        | inr score_change =>
        match integer_in (al_previousScore entry) with
        | inl e => inl e
        | inr previous_score =>
        match integer_in (al_newScore entry) with
        | inl e => inl e
        | inr new_score =>
        match inet_in (al_ipAddress entry) with
        | inl e => inl e
        | inr ip_address =>
        match varchar 255 (al_userId entry) with
        | inl e => inl e
        | inr user_id =>
        match varchar 100 (al_actionType entry) with
        | inl e => inl e
        | inr action_type =>
            inr ([], {| user_scores := user_scores d;
                        audit_log :=
                          audit_log d
                          ++ [{| al_id := al_id entry; al_userId := user_id;
                                 al_actionType := action_type;
                                 al_scoreChange := score_change;
                                 al_previousScore := Num previous_score;
                                 al_newScore := Num new_score;
                                 al_ipAddress := ip_address;
                                 al_userAgent := al_userAgent entry;
                                 al_timestamp := al_timestamp entry;
                                 al_success := al_success entry;
                                 al_errorMessage := al_errorMessage entry |}];
                        snapshot := snapshot d; faults := faults d;
                        aborted := aborted d |})
        end end end end end end
    | SELECT_SCORE user_id =>
        inr (match user_scores d !! user_id with
             | Some s => [s]
             | None => []
             end, d)
    end.

(** [db.query(text, params)]: the query fails when the next fault says so
    or when the server raises an error on the statement. *)
Definition query (q : statement) : M (list Z) := fun w =>
  match faults (db w) with
  | true :: f => (Thrown (Error "query failed"), with_db (with_faults f (db w)) w)
  | f =>
      let d := with_faults (tl f) (db w) in
      match execute q d with
      | inr (rows, d') => (Returned rows, with_db d' w)
      | inl message => (Thrown (Error message), with_db (fail_statement d) w)
      end
  end.

End DatabaseConnection.

(** ** services/AuthService.ts *)

Module AuthService.

Definition tokenExpiration : Z := 5 * 60.

(** Outcome of a validation: [{ valid: true }] or [{ valid: false, error }]. *)
Inductive validation :=
| valid
| invalid (error : string).

Definition is_valid (v : validation) : bool :=
  match v with valid => true | invalid _ => false end.

(** [jwt.verify(token, secret)]: the signature is checked first, then the
    expiry against the clock. *)
Definition jwt_verify (token : Jwt) : M ActionToken := fun w =>
  if negb (jwt_signed token) then (Thrown (JsonWebTokenError "invalid signature"), w)
  else if jwt_exp token <=? clock w then (Thrown (TokenExpiredError "jwt expired"), w)
  else (Returned (jwt_payload token), w).

Definition validActionTypes : list string :=
  ["GAME_COMPLETE"; "LEVEL_COMPLETE"; "ACHIEVEMENT_UNLOCK"; "BONUS_COLLECT"; "DAILY_LOGIN"].

Definition tokenKey (nonce : string) : string := "action_token:" +:+ nonce.

Definition validateActionToken (token : Jwt) (userId : string) : M validation :=
  try_catch
    (decoded ← jwt_verify token ;
     if negb (String.eqb (at_userId decoded) userId) then
       mret (invalid ErrorCodes.UNAUTHORIZED)
     else
       tokenUsed ← RedisClient.get (tokenKey (at_nonce decoded)) ;
       if rvalue_truthy tokenUsed then
         mret (invalid ErrorCodes.INVALID_ACTION_TOKEN)
       else
         RedisClient.setex (tokenKey (at_nonce decoded)) tokenExpiration (Str "used") ;;
         if negb (includes validActionTypes (at_actionType decoded)) then
           mret (invalid ErrorCodes.INVALID_ACTION_TOKEN)
         else
           mret valid)
    (fun error =>
       match error with
       | TokenExpiredError _ => mret (invalid ErrorCodes.EXPIRED_TOKEN)
       | _ => mret (invalid ErrorCodes.INVALID_ACTION_TOKEN)
       end).

(** The token [jwt.sign(payload, secret, { expiresIn })] yields at time
    [t]; the nonce is drawn at random by the caller's environment. *)
Definition generateActionToken (userId actionType nonce : string) (t : Z) : Jwt :=
  {| jwt_payload := {| at_userId := userId; at_actionType := actionType;
                       at_timestamp := t; at_nonce := nonce |};
     jwt_iat := t;
     jwt_exp := t + tokenExpiration;
     jwt_signed := true |}.

Definition checkUserExists (userId : string) : M bool :=
  userData ← RedisClient.get ("user:" +:+ userId) ;
  mret (match userData with Some _ => true | None => false end
        || (3 <=? Z.of_nat (String.length userId))).

Definition validateUser (userId : string) : M bool :=
  if (String.eqb userId "") || (Z.of_nat (String.length userId) <? 3) then mret false
  else checkUserExists userId.

Record rateLimit := {
  allowed : bool;
  remaining : number
}.

Definition rateLimitKey (userId action : string) : string :=
  "rate_limit:" +:+ userId +:+ ":" +:+ action.

Definition maxRequests : Z := 10.
Definition windowMs : Z := 60 * 1000.

Definition checkRateLimit (userId action : string) : M rateLimit :=
  let key := rateLimitKey userId action in
  current ← RedisClient.get key ;
  let currentCount :=
    match current with
    | Some v => if rvalue_truthy current then rvalue_parseInt v else Num 0
    | None => Num 0
    end in
  if number_geb currentCount (Num maxRequests) then
    mret {| allowed := false; remaining := Num 0 |}
  else
    let newCount := number_add currentCount (Num 1) in
    (if number_eqb currentCount (Num 0) then
       RedisClient.setex key ((windowMs + 999) / 1000) (Str (number_toString newCount))
     else
       RedisClient.set key (Str (number_toString newCount))) ;;
    mret {| allowed := true; remaining := number_sub (Num maxRequests) newCount |}.

End AuthService.

(** ** services/WebSocketManager.ts (the two calls the score service makes) *)

Module WebSocketManager.

Definition emit (n : Notification) : M unit :=
  modify (fun w =>
    {| clock := clock w; redis := redis w; db := db w; uuids := uuids w;
       wsManager := wsManager w; sent := sent w ++ [n] |}).

Definition notifyUserScoreUpdate (userId : string) (newScore : number)
    (oldRank newRank : option Z) (scoreIncrease : Z) : M unit :=
  emit (score_update userId newScore oldRank newRank scoreIncrease).

Definition broadcastLeaderboardUpdate : M unit := emit leaderboard_update.

End WebSocketManager.

(** ** services/WebSocketManager.ts (the connections it tracks) *)

Module WebSocketConnections.

(** [connectedUsers] maps a user id to the ids of its sockets and
    [socketToUser] a socket id to its user id. *)
Record connections := {
  connectedUsers : gmap string (list string);
  socketToUser : gmap string string
}.

(** The manager at start-up. *)
Definition no_connections : connections :=
  {| connectedUsers := ∅; socketToUser := ∅ |}.

(** [userSockets.indexOf(socketId)] followed by [splice(index, 1)]: the
    first occurrence of the socket id goes, if there is one. *)
Fixpoint splice_indexOf (socketId : string) (userSockets : list string) : list string :=
  match userSockets with
  | [] => []
  | x :: rest =>
      if String.eqb x socketId then rest else x :: splice_indexOf socketId rest
  end.

(** The array held by the map is changed in place, and the user's entry
    is deleted when the array is left empty. *)
Definition removeSocketFromUser (userId socketId : string) (c : connections)
    : connections :=
  match connectedUsers c !! userId with
  | Some userSockets =>
      let userSockets := splice_indexOf socketId userSockets in
      {| connectedUsers :=
           if Nat.eqb (length userSockets) 0 then delete userId (connectedUsers c)
           else <[userId := userSockets]> (connectedUsers c);
         socketToUser := socketToUser c |}
  | None => c
  end.

(** [if (existingUserId)] is a test of truthiness: the empty user id does
    not pass it. *)
Definition handleUserAuthentication (socketId userId : string) (c : connections)
    : connections :=
  let c :=
    match socketToUser c !! socketId with
    | Some existingUserId =>
        if truthy (Some existingUserId)
        then removeSocketFromUser existingUserId socketId c
        else c
    | None => c
    end in
  {| connectedUsers :=
       <[userId := default [] (connectedUsers c !! userId) ++ [socketId]]>
         (connectedUsers c);
     socketToUser := <[socketId := userId]> (socketToUser c) |}.

Definition handleUserDisconnection (socketId : string) (c : connections) : connections :=
  match socketToUser c !! socketId with
  | Some userId =>
      if truthy (Some userId) then
        let c := removeSocketFromUser userId socketId c in
        {| connectedUsers := connectedUsers c;
           socketToUser := delete socketId (socketToUser c) |}
      else c
  | None => c
  end.

Definition isUserOnline (userId : string) (c : connections) : bool :=
  match connectedUsers c !! userId with
  | Some userSockets => 0 <? Z.of_nat (length userSockets)
  | None => false
  end.

(** The second loop of [cleanupStaleConnections], over the socket ids its
    first loop collected: each is handled as a disconnection is. *)
Definition removeStale (socketsToRemove : list string) (c : connections) : connections :=
  fold_left (fun c socketId => handleUserDisconnection socketId c) socketsToRemove c.

(** What happens to the manager: a socket authenticates, a socket
    disconnects, the periodic cleanup removes the sockets it found stale. *)
Inductive socket_event :=
| Authenticate (socketId userId : string)
| Disconnect (socketId : string)
| Cleanup (socketsToRemove : list string).

Definition socket_step (e : socket_event) (c : connections) : connections :=
  match e with
  | Authenticate socketId userId => handleUserAuthentication socketId userId c
  | Disconnect socketId => handleUserDisconnection socketId c
  | Cleanup socketsToRemove => removeStale socketsToRemove c
  end.

Definition socket_run (events : list socket_event) (c : connections) : connections :=
  fold_left (fun c e => socket_step e c) events c.

(** The event names a user: it does not authenticate the empty user id. *)
Definition names_user (e : socket_event) : Prop :=
  match e with
  | Authenticate _ userId => userId <> ""
  | _ => True
  end.

(** The two maps agree: a socket of [socketToUser] has a named user and is
    in that user's array, and an array of [connectedUsers] is not empty,
    holds each socket once and holds only sockets of its user. *)
Definition consistent (c : connections) : Prop :=
  (forall socketId userId,
     socketToUser c !! socketId = Some userId ->
     userId <> ""
     /\ exists userSockets,
          connectedUsers c !! userId = Some userSockets /\ In socketId userSockets)
  /\ (forall userId userSockets,
        connectedUsers c !! userId = Some userSockets ->
        userSockets <> [] /\ List.NoDup userSockets
        /\ forall socketId, In socketId userSockets ->
             socketToUser c !! socketId = Some userId).

(** The maps between the two halves of a change of user or a
    disconnection of the socket [s]: [s] is in no array, whatever
    [socketToUser] says of it, and the rest agrees. *)
Definition detached (s : string) (c : connections) : Prop :=
  (forall socketId userId,
     socketId <> s -> socketToUser c !! socketId = Some userId ->
     userId <> ""
     /\ exists userSockets,
          connectedUsers c !! userId = Some userSockets /\ In socketId userSockets)
  /\ (forall userId userSockets,
        connectedUsers c !! userId = Some userSockets ->
        userSockets <> [] /\ List.NoDup userSockets
        /\ forall socketId, In socketId userSockets ->
             socketId <> s /\ socketToUser c !! socketId = Some userId).

End WebSocketConnections.

(** ** services/ScoreService.ts *)

Module ScoreService.

Definition LEADERBOARD_KEY : string := "leaderboard:global".
Definition MAX_SCORE_INCREMENT : Z := 1000.

Definition scoreKey (userId : string) : string := "user_score:" +:+ userId.

Definition getUsername (userId : string) : string :=
  "User_" +:+ take_string 8 userId.

(** The audit insert is wrapped in its own try/catch: a failure is logged
    to the console and not rethrown. *)
Definition logAuditEntry (entry : AuditLogEntry) : M unit :=
  try_catch
    (DatabaseConnection.query (DatabaseConnection.INSERT_AUDIT_LOG entry) ;; skip)
    (fun _ => skip).

Definition getCurrentScore (userId : string) : M number :=
  cachedScore ← RedisClient.get (scoreKey userId) ;
  match cachedScore with
  | Some v => mret (rvalue_parseInt v)
  | None =>
      rows ← DatabaseConnection.query (DatabaseConnection.SELECT_SCORE userId) ;
      let score := match rows with s :: _ => s | [] => 0 end in
      RedisClient.setex (scoreKey userId) 300 (Str (Z_toString score)) ;;
      mret (Num score)
  end.

Definition getUserRank (userId : string) : M (option Z) :=
  rank ← RedisClient.zrank LEADERBOARD_KEY userId ;
  mret (match rank with Some r => Some (r + 1) | None => None end).

Definition updateScoreCache (userId : string) (score : number) : M unit :=
  RedisClient.setex (scoreKey userId) 300 (Str (number_toString score)).

Definition updateLeaderboard (userId : string) (score : number) : M unit :=
  RedisClient.zadd LEADERBOARD_KEY score userId ;; skip.

(** [rank || undefined]: a rank of 0 reads as absent. *)
Definition or_undefined (rank : option Z) : option Z :=
  match rank with
  | Some 0 => None
  | r => r
  end.

(** [newRank !== null && (oldRank === null || Math.abs(newRank - oldRank) > 0)]
    and, inside, [newRank < 10]. *)
Definition shouldBroadcast (oldRank newRank : option Z) : bool :=
  match newRank with
  | Some n =>
      match oldRank with
      | None => n <? 10
      | Some o => (0 <? Z.abs (n - o)) && (n <? 10)
      end
  | None => false
  end.

Definition updateScore (request : ScoreUpdateRequest) (ipAddress : ip_text)
    (userAgent : string)
    : M ScoreUpdateResponse :=
  try_catch
    (if (req_scoreIncrement request <=? 0)
        || (MAX_SCORE_INCREMENT <? req_scoreIncrement request) then
       throw (Error ErrorCodes.INVALID_SCORE_INCREMENT)
     else
       currentScore ← getCurrentScore (req_userId request) ;
       let newScore := number_add currentScore (Num (req_scoreIncrement request)) in
       DatabaseConnection.query DatabaseConnection.BEGIN ;;
       try_catch
         (t ← Date_now ;
          DatabaseConnection.query
            (DatabaseConnection.UPSERT_USER_SCORE (req_userId request) newScore t) ;;
          id ← uuidv4 ;
          t' ← Date_now ;
          logAuditEntry
            {| al_id := id; al_userId := req_userId request;
               al_actionType := req_actionType request;
               al_scoreChange := req_scoreIncrement request;
               al_previousScore := currentScore; al_newScore := newScore;
               al_ipAddress := ipAddress; al_userAgent := userAgent;
               al_timestamp := t'; al_success := true;
               al_errorMessage := None |} ;;
          DatabaseConnection.query DatabaseConnection.COMMIT ;;
          updateScoreCache (req_userId request) newScore ;;
          oldRank ← getUserRank (req_userId request) ;
          updateLeaderboard (req_userId request) newScore ;;
          newRank ← getUserRank (req_userId request) ;
          wired ← gets wsManager ;
          (if (wired : bool) then
             WebSocketManager.notifyUserScoreUpdate (req_userId request) newScore
               oldRank newRank (req_scoreIncrement request) ;;
             if shouldBroadcast oldRank newRank then
               WebSocketManager.broadcastLeaderboardUpdate
             else skip
           else skip) ;;
          mret {| resp_success := true; resp_newScore := newScore;
                  resp_newRank := or_undefined newRank; resp_message := None |})
         (fun dbError =>
            DatabaseConnection.query DatabaseConnection.ROLLBACK ;;
            throw dbError))
    (fun error =>
       id ← uuidv4 ;
       previousScore ← getCurrentScore (req_userId request) ;
       t ← Date_now ;
       logAuditEntry
         {| al_id := id; al_userId := req_userId request;
            al_actionType := req_actionType request;
            al_scoreChange := req_scoreIncrement request;
            al_previousScore := previousScore; al_newScore := Num 0;
            al_ipAddress := ipAddress; al_userAgent := userAgent;
            al_timestamp := t; al_success := false;
            al_errorMessage := Some (exn_message error) |} ;;
       newScore ← getCurrentScore (req_userId request) ;
       mret {| resp_success := false; resp_newScore := newScore;
               resp_newRank := None; resp_message := Some (exn_message error) |}).

Definition getUserScoreInfo (userId : string) : M UserScore :=
  score ← getCurrentScore userId ;
  rank ← getUserRank userId ;
  t ← Date_now ;
  mret {| us_userId := userId; us_username := getUsername userId;
          us_currentScore := score; us_lastUpdated := t;
          us_rank := or_undefined rank |}.

End ScoreService.

(** ** services/LeaderboardService.ts *)

Module LeaderboardService.

Definition LEADERBOARD_KEY : string := "leaderboard:global".
Definition LEADERBOARD_CACHE_TTL : Z := 30.

Definition getUsername (userId : string) : string :=
  "User_" +:+ take_string 8 userId.

Definition cacheKey (limit : Z) : string := "leaderboard:top" +:+ Z_toString limit.

(** [JSON.parse] of a cached text.  The texts the other services store
    ("used", a decimal counter) are not a leaderboard response; they are
    kept under other keys, and no statement below reads one as a
    snapshot. *)
Definition JSON_parse (v : option rvalue) : M LeaderboardResponse :=
  match v with
  | Some (JsonText r) => mret r
  | _ => throw (SyntaxError "Unexpected token in JSON")
  end.

(** The loop [for (let i = 0; i < ids.length; i += 2)]: the element at [i]
    is read as the user id and the element at [i + 1] as the score; past
    the end the score is [parseInt(undefined)]. *)
Fixpoint parseEntries (t : Z) (start : Z) (i : Z) (ids : list string) : list UserScore :=
  match ids with
  | [] => []
  | [userId] =>
      [{| us_userId := userId; us_username := getUsername userId;
          us_currentScore := NaN; us_lastUpdated := t;
          us_rank := Some (start + i / 2 + 1) |}]
  | userId :: score :: rest =>
      {| us_userId := userId; us_username := getUsername userId;
         us_currentScore := parseInt score; us_lastUpdated := t;
         us_rank := Some (start + i / 2 + 1) |}
      :: parseEntries t start (i + 2) rest
  end.

Definition getTopUsers (limit : Z) : M LeaderboardResponse :=
  try_catch
    (cachedData ← RedisClient.get (cacheKey limit) ;
     if rvalue_truthy cachedData then JSON_parse cachedData
     else
       topUserIds ← RedisClient.zrevrange LEADERBOARD_KEY 0 (limit - 1) true ;
       t ← Date_now ;
       let topUsers := parseEntries t 0 0 topUserIds in
       totalUsers ← RedisClient.zcard LEADERBOARD_KEY ;
       t' ← Date_now ;
       let response :=
         {| topUsers := topUsers; lr_lastUpdated := t'; totalUsers := totalUsers |} in
       RedisClient.setex (cacheKey limit) LEADERBOARD_CACHE_TTL (JsonText response) ;;
       mret response)
    (fun _ => throw (Error "Failed to fetch leaderboard")).

Record position := {
  pos_rank : option Z;
  pos_score : number;
  pos_totalUsers : Z
}.

Definition getUserPosition (userId : string) : M position :=
  rank ← RedisClient.zrank LEADERBOARD_KEY userId ;
  scoreStr ← RedisClient.zscore LEADERBOARD_KEY userId ;
  totalUsers ← RedisClient.zcard LEADERBOARD_KEY ;
  mret {| pos_rank := match rank with Some r => Some (r + 1) | None => None end;
          pos_score := match scoreStr with
                       | Some 0 | None => Num 0
                       | Some s => parseInt (Z_toString s)
                       end;
          pos_totalUsers := totalUsers |}.

Definition getLeaderboardAroundUser (userId : string) (range : Z) : M (list UserScore) :=
  userRank ← RedisClient.zrank LEADERBOARD_KEY userId ;
  match userRank with
  | None => mret []
  | Some userRank =>
      let start := Z.max 0 (userRank - range) in
      let end_ := userRank + range in
      userIds ← RedisClient.zrevrange LEADERBOARD_KEY start end_ true ;
      t ← Date_now ;
      mret (parseEntries t start 0 userIds)
  end.

Definition invalidateLeaderboardCache : M unit :=
  RedisClient.del "leaderboard:top10" ;;
  RedisClient.del "leaderboard:top25" ;;
  RedisClient.del "leaderboard:top50" ;;
  skip.

Definition updateUserScore (userId : string) (score : number) : M unit :=
  RedisClient.zadd LEADERBOARD_KEY score userId ;;
  invalidateLeaderboardCache.

(** The member stays in the sorted set; only its cached score goes. *)
Definition removeUser (userId : string) : M unit :=
  RedisClient.del ("user_score:" +:+ userId) ;;
  invalidateLeaderboardCache.

Definition sampleUsers : list (string * Z) :=
  [("user1", 1500); ("user2", 1400); ("user3", 1300); ("user4", 1200);
   ("user5", 1100); ("user6", 1000); ("user7", 900); ("user8", 800);
   ("user9", 700); ("user10", 600)].

Fixpoint forEach {A} (f : A -> M unit) (l : list A) : M unit :=
  match l with
  | [] => skip
  | x :: l' => f x ;; forEach f l'
  end.

Definition initializeSampleData : M unit :=
  forEach (fun user => updateUserScore (fst user) (Num (snd user))) sampleUsers.

End LeaderboardService.

(** ** middleware/validation.ts, middleware/auth.ts, routes/scoreRoutes.ts *)

Module scoreRoutes.

Record body := {
  actionType : string;
  scoreIncrement : Z;
  actionToken : Jwt
}.

(** What the route answers: the success document, or an error document
    with its HTTP status. *)
Inductive response :=
| success_json (userId : string) (newScore : number) (newRank : option Z)
    (scoreIncrease : Z) (rateLimitRemaining : number)
| error_json (status : Z) (code message : string).

Definition getErrorMessage (errorCode : string) : string :=
  if String.eqb errorCode ErrorCodes.INVALID_ACTION_TOKEN then
    "The provided action token is invalid or has already been used"
  else if String.eqb errorCode ErrorCodes.EXPIRED_TOKEN then
    "The action token has expired"
  else if String.eqb errorCode ErrorCodes.UNAUTHORIZED then
    "You are not authorized to perform this action"
  else if String.eqb errorCode ErrorCodes.RATE_LIMIT_EXCEEDED then
    "Too many requests. Please try again later."
  else if String.eqb errorCode ErrorCodes.INVALID_SCORE_INCREMENT then
    "Invalid score increment value"
  else if String.eqb errorCode ErrorCodes.USER_NOT_FOUND then
    "User not found"
  else if String.eqb errorCode ErrorCodes.INTERNAL_ERROR then
    "Internal server error"
  else "Unknown error occurred".

(** [scoreUpdateSchema.validate(req.body)]: the message of the first rule
    that fails, in the order of the keys of the schema, as Joi words it.
    The bodies considered carry their action type as a text, their
    increment as a JSON integer and a token text that is not empty.  (Joi
    also accepts an increment sent as a numeric text, and the middleware
    hands the body on unconverted; such bodies are not among these.) *)
Definition scoreUpdateSchema (b : body) : option string :=
  if negb (includes ActionType.values (actionType b)) then
    Some (quoted "actionType"
          +:+ " must be one of [GAME_COMPLETE, LEVEL_COMPLETE, "
          +:+ "ACHIEVEMENT_UNLOCK, BONUS_COLLECT, DAILY_LOGIN]")
  else if scoreIncrement b <? 1 then
    Some (quoted "scoreIncrement" +:+ " must be greater than or equal to 1")
  else if 1000 <? scoreIncrement b then
    Some (quoted "scoreIncrement" +:+ " must be less than or equal to 1000")
  else None.

(** A middleware either answers the request or hands it on. *)
Definition middleware := M response -> M response.

Definition validateScoreUpdate (b : body) : middleware := fun next =>
  match scoreUpdateSchema b with
  | Some message => mret (error_json 400 "VALIDATION_ERROR" message)
  | None => next
  end.

Definition authMiddleware (userId : string) : middleware := fun next =>
  try_catch
    (if String.eqb userId "" then
       mret (error_json 400 "MISSING_USER_ID" "User ID is required")
     else
       isValidUser ← AuthService.validateUser userId ;
       if negb isValidUser then
         mret (error_json 401 ErrorCodes.UNAUTHORIZED
                 "Invalid user or authentication required")
       else next)
    (fun _ => mret (error_json 500 ErrorCodes.INTERNAL_ERROR "Authentication error")).

Definition or_unknown (v : string) : string :=
  if String.eqb v "" then "unknown" else v.

(** [req.ip || 'unknown']: an address that is missing or empty gives the
    text 'unknown', which is no INET value. *)
Definition ip_or_unknown (ip : ip_text) : ip_text :=
  if String.eqb (ip_string ip) "" then not_inet "unknown" else ip.

(** The handler of POST /api/scores/user/:userId. *)
Definition updateUserScoreHandler (userId : string) (b : body) (ip : ip_text)
    (userAgent : string) : M response :=
  try_catch
    (tokenValidation ← AuthService.validateActionToken (actionToken b) userId ;
     match tokenValidation with
     | AuthService.invalid error => mret (error_json 422 error (getErrorMessage error))
     | AuthService.valid =>
         rateLimitCheck ← AuthService.checkRateLimit userId "score_update" ;
         if negb (AuthService.allowed rateLimitCheck) then
           mret (error_json 429 ErrorCodes.RATE_LIMIT_EXCEEDED
                   "Rate limit exceeded. Please try again later.")
         else
           t ← Date_now ;
           result ← ScoreService.updateScore
             {| req_userId := userId; req_actionType := actionType b;
                req_scoreIncrement := scoreIncrement b;
                req_actionToken := actionToken b; req_timestamp := t |}
             (ip_or_unknown ip) (or_unknown userAgent) ;
           if resp_success result then
             mret (success_json userId (resp_newScore result) (resp_newRank result)
                     (scoreIncrement b) (AuthService.remaining rateLimitCheck))
           else
             mret (error_json 400 "SCORE_UPDATE_FAILED"
                     (match resp_message result with
                      | Some EmptyString | None => "Failed to update score"
                      | Some m => m
                      end))
     end)
    (fun _ => mret (error_json 500 ErrorCodes.INTERNAL_ERROR "Internal server error")).

End scoreRoutes.

(** The POST route: the authentication and validation middleware, then the
    handler.  (The per-address limiter of express-rate-limit that stands in
    front keeps its own counters and is outside this model.) *)
Definition postUserScore (userId : string) (b : scoreRoutes.body) (ip : ip_text)
    (userAgent : string) : M scoreRoutes.response :=
  scoreRoutes.authMiddleware userId
    (scoreRoutes.validateScoreUpdate b
       (scoreRoutes.updateUserScoreHandler userId b ip userAgent)).

(** ** routes/leaderboardRoutes.ts *)

Module leaderboardRoutes.

Inductive response :=
| leaderboard_json (data : LeaderboardResponse)
| position_json (userId : string) (data : LeaderboardService.position)
| around_json (userId : string) (range : Z) (users : list UserScore)
| error_json (status : Z) (code message : string).

(** [parseInt(req.query.name as string)]; a parameter that is absent reads
    as [undefined]. *)
Definition query_parseInt (value : option string) : number :=
  match value with
  | Some s => parseInt s
  | None => NaN
  end.

(** [n || d]: NaN and 0 give the default. *)
Definition number_or (n : number) (d : Z) : Z :=
  match n with
  | NaN | Num 0 => d
  | Num z => z
  end.

(** GET /api/leaderboard?limit=10 *)
Definition getLeaderboard (limitQuery : option string) : M response :=
  try_catch
    (let limit := number_or (query_parseInt limitQuery) 10 in
     let maxLimit := 50 in
     if maxLimit <? limit then
       mret (error_json 400 "INVALID_LIMIT" ("Limit cannot exceed " +:+ Z_toString maxLimit))
     else
       leaderboard ← LeaderboardService.getTopUsers limit ;
       mret (leaderboard_json leaderboard))
    (fun _ => mret (error_json 500 ErrorCodes.INTERNAL_ERROR
                      "Failed to retrieve leaderboard")).

(** GET /api/leaderboard/user/:userId/position *)
Definition getPosition (userId : string) : M response :=
  try_catch
    (position ← LeaderboardService.getUserPosition userId ;
     mret (position_json userId position))
    (fun _ => mret (error_json 500 ErrorCodes.INTERNAL_ERROR
                      "Failed to retrieve user position")).

(** GET /api/leaderboard/user/:userId/around?range=5 *)
Definition getAround (userId : string) (rangeQuery : option string) : M response :=
  try_catch
    (let range := number_or (query_parseInt rangeQuery) 5 in
     let maxRange := 25 in
     if maxRange <? range then
       mret (error_json 400 "INVALID_RANGE" ("Range cannot exceed " +:+ Z_toString maxRange))
     else
       users ← LeaderboardService.getLeaderboardAroundUser userId range ;
       mret (around_json userId range users))
    (fun _ => mret (error_json 500 ErrorCodes.INTERNAL_ERROR
                      "Failed to retrieve leaderboard around user")).

End leaderboardRoutes.

(** ** Runs of the service *)

(** The world at start-up: connected, empty stores, no fault pending. *)
Definition initial : World :=
  {| clock := 0;
     redis := {| isConnected := true; keys := ∅; zsets := ∅ |};
     db := {| user_scores := ∅; audit_log := []; snapshot := None; faults := [];
              aborted := false |};
     uuids := 0;
     wsManager := true;
     sent := [] |}.

(** What can happen to the service: time passes, the Redis connection goes
    up or down, the database is about to fail some queries, and the calls
    of the API. *)
Inductive event :=
| Tick (seconds : N)
| RedisConnection (up : bool)
| DatabaseFaults (f : list bool)
| PostUserScore (userId : string) (b : scoreRoutes.body) (ip : ip_text)
    (userAgent : string)
| UpdateScore (request : ScoreUpdateRequest) (ip : ip_text) (userAgent : string)
| ValidateActionToken (token : Jwt) (userId : string)
| CheckRateLimit (userId action : string)
| GetUserScoreInfo (userId : string)
| GetTopUsers (limit : Z)
| GetUserPosition (userId : string)
| GetLeaderboardAroundUser (userId : string) (range : Z)
| UpdateUserScore (userId : string) (score : number)
| RemoveUser (userId : string)
| InitializeSampleData.

Definition exec {A} (m : M A) (w : World) : World := snd (m w).

Definition result {A} (m : M A) (w : World) : outcome A := fst (m w).

Definition step (e : event) (w : World) : World :=
  match e with
  | Tick seconds =>
      {| clock := clock w + Z.of_N seconds; redis := redis w; db := db w;
         uuids := uuids w; wsManager := wsManager w; sent := sent w |}
  | RedisConnection up =>
      with_redis {| isConnected := up; keys := keys (redis w);
                    zsets := zsets (redis w) |} w
  | DatabaseFaults f => with_db (DatabaseConnection.with_faults f (db w)) w
  | PostUserScore userId b ip userAgent => exec (postUserScore userId b ip userAgent) w
  | UpdateScore request ip userAgent =>
      exec (ScoreService.updateScore request ip userAgent) w
  | ValidateActionToken token userId =>
      exec (AuthService.validateActionToken token userId) w
  | CheckRateLimit userId action => exec (AuthService.checkRateLimit userId action) w
  | GetUserScoreInfo userId => exec (ScoreService.getUserScoreInfo userId) w
  | GetTopUsers limit => exec (LeaderboardService.getTopUsers limit) w
  | GetUserPosition userId => exec (LeaderboardService.getUserPosition userId) w
  | GetLeaderboardAroundUser userId range =>
      exec (LeaderboardService.getLeaderboardAroundUser userId range) w
  | UpdateUserScore userId score =>
      exec (LeaderboardService.updateUserScore userId score) w
  | RemoveUser userId => exec (LeaderboardService.removeUser userId) w
  | InitializeSampleData => exec LeaderboardService.initializeSampleData w
  end.

Definition run (events : list event) (w : World) : World :=
  fold_left (fun w e => step e w) events w.

Definition reachable (w : World) : Prop :=
  exists events, w = run events initial.

(** ** Predicates of the statements *)

(** Weakest precondition of a computation: [Q] holds of the value and the
    world it returns, [E] of the exception and the world it throws in. *)
Definition wp {A} (m : M A) (Q : A -> World -> Prop) (E : exn -> World -> Prop)
    (w : World) : Prop :=
  match m w with
  | (Returned a, w') => Q a w'
  | (Thrown e, w') => E e w'
  end.

Definition zprec (a b : string * Z) : Prop := RedisServer.zprecedes a b = true.

(** A sorted set is in order and holds each member once. *)
Definition zset_ok (l : zset) : Prop :=
  StronglySorted zprec l /\ List.NoDup (map fst l).

Definition scores_ok (m : gmap string Z) : Prop :=
  forall u s, m !! u = Some s -> 0 <= s.

(** Every cached score is the decimal text of a non-negative integer. *)
Definition cache_ok (k : gmap string entry) : Prop :=
  forall u e, k !! ScoreService.scoreKey u = Some e ->
    exists z, 0 <= z /\ e_value e = Str (Z_toString z).

(** A nonce marked used stays so until its entry expires. *)
Definition tokens_persist (w0 w : World) : Prop :=
  forall n e,
    keys (redis w0) !! AuthService.tokenKey n = Some e ->
    e_value e = Str "used" ->
    keys (redis w) !! AuthService.tokenKey n = Some e \/ entry_live (clock w) e = false.

(** What every call of the service keeps, from a world [w0] on. *)
Record J (w0 w : World) : Prop := {
  J_clock : clock w0 <= clock w;
  J_tokens : tokens_persist w0 w;
  J_scores : scores_ok (user_scores (db w));
  J_snapshot : forall s a, snapshot (db w) = Some (s, a) -> scores_ok s;
  J_cache : cache_ok (keys (redis w));
  J_zsets : forall key l, zsets (redis w) !! key = Some l -> zset_ok l
}.

(** A computation keeps [J], whether it returns or throws. *)
Definition keeps {A} (m : M A) : Prop :=
  forall w0 w, J w0 w -> wp m (fun _ w' => J w0 w') (fun _ w' => J w0 w') w.

(** The statements that write a score write a non-negative one. *)
Definition statement_ok (q : DatabaseConnection.statement) : Prop :=
  match q with
  | DatabaseConnection.UPSERT_USER_SCORE _ (Num s) _ => 0 <= s
  | _ => True
  end.

(** The state of the leaderboard's sorted set. *)
Definition leaderboard (w : World) : zset :=
  RedisServer.zget ScoreService.LEADERBOARD_KEY (redis w).

(** Members of a sorted set with a strictly greater score than [score]. *)
Definition strictly_greater (score : Z) (l : zset) : zset :=
  List.filter (fun e => score <? snd e) l.

(** Members with the same score as [userId] that Redis places before it:
    those whose id is lexicographically greater. *)
Definition tied_ahead (userId : string) (score : Z) (l : zset) : zset :=
  List.filter (fun e => (snd e =? score) && String.ltb userId (fst e)) l.

(** The call appended exactly the audit entry [e]. *)
Definition appended_audit (w w' : World) (e : AuditLogEntry) : Prop :=
  audit_log (db w') = audit_log (db w) ++ [e].

(** A computation leaves the part [f] of the world as it found it. *)
Definition preserves {X A} (f : World -> X) (m : M A) : Prop :=
  forall w, f (exec m w) = f w.

(** Parts of the world that no write to a key, no write to a sorted set
    and no query changes. *)
Definition keys_blind {X} (f : World -> X) : Prop :=
  forall k w, f (with_redis (with_keys k (redis w)) w) = f w.

Definition zsets_blind {X} (f : World -> X) : Prop :=
  forall z w, f (with_redis (with_zsets z (redis w)) w) = f w.

Definition db_blind {X} (f : World -> X) : Prop :=
  forall d w, f (with_db d w) = f w.

(** The rank the services report for a member at [score]: one more than
    the number of members Redis places before it. *)
Definition reported_rank (userId : string) (score : Z) (l : zset) : Z :=
  1 + Z.of_nat (length (strictly_greater score l))
    + Z.of_nat (length (tied_ahead userId score l)).

(** The rows of the [user_scores] table. *)
Definition rows (w : World) : gmap string Z := user_scores (db w).

(** The statements that leave the rows of [user_scores] as they are. *)
Definition keeps_rows (q : DatabaseConnection.statement) : Prop :=
  match q with
  | DatabaseConnection.UPSERT_USER_SCORE _ _ _ | DatabaseConnection.ROLLBACK
  | DatabaseConnection.COMMIT => False
  | _ => True
  end.

(** The increment is outside the bounds [updateScore] accepts. *)
Definition out_of_bounds (increment : Z) : Prop :=
  increment <= 0 \/ ScoreService.MAX_SCORE_INCREMENT < increment.

(** The count [checkRateLimit] reads for a user and an action. *)
Definition rate_count (userId action : string) (w : World) : number :=
  match RedisServer.GET (clock w) (AuthService.rateLimitKey userId action) (redis w) with
  | Some v => if rvalue_truthy (Some v) then rvalue_parseInt v else Num 0
  | None => Num 0
  end.

(** The request [updateUserScoreHandler] hands to [updateScore]. *)
Definition handler_request (userId : string) (b : scoreRoutes.body) (t : Z)
    : ScoreUpdateRequest :=
  {| req_userId := userId; req_actionType := scoreRoutes.actionType b;
     req_scoreIncrement := scoreRoutes.scoreIncrement b;
     req_actionToken := scoreRoutes.actionToken b; req_timestamp := t |}.

(** The entry that marks a nonce used at time [t]. *)
Definition used_at (t : Z) : entry :=
  {| e_value := Str "used"; e_expire := Some (t + AuthService.tokenExpiration) |}.

(** The user's score is in the cache. *)
Definition cached (userId : string) (w : World) : bool :=
  match RedisServer.GET (clock w) (ScoreService.scoreKey userId) (redis w) with
  | Some _ => true
  | None => false
  end.

(** The score [getCurrentScore] reads when Redis is up and the database
    answers: the cached score while it is live, else the user's row, else
    0. *)
Definition current_score (userId : string) (w : World) : number :=
  match RedisServer.GET (clock w) (ScoreService.scoreKey userId) (redis w) with
  | Some v => rvalue_parseInt v
  | None => Num (match user_scores (db w) !! userId with Some s => s | None => 0 end)
  end.

(** The rows an update of the score [z] writes are rows the two tables
    accept: the address is an INET text, the user id and the action type
    fit their VARCHAR columns, and the new score fits INTEGER. *)
Definition schema_accepts (request : ScoreUpdateRequest) (ip : ip_text) (z : Z) : Prop :=
  is_inet ip = true
  /\ (String.length (req_userId request) <= 255)%nat
  /\ (String.length (req_actionType request) <= 100)%nat
  /\ z + req_scoreIncrement request <= DatabaseConnection.INTEGER_MAX.

(** The HTTP status of an answer of the POST route; [res.json] without
    [res.status] answers 200. *)
Definition status (r : scoreRoutes.response) : Z :=
  match r with
  | scoreRoutes.success_json _ _ _ _ _ => 200
  | scoreRoutes.error_json s _ _ => s
  end.

(** The body of a request with another action token. *)
Definition with_token (b : scoreRoutes.body) (token : Jwt) : scoreRoutes.body :=
  {| scoreRoutes.actionType := scoreRoutes.actionType b;
     scoreRoutes.scoreIncrement := scoreRoutes.scoreIncrement b;
     scoreRoutes.actionToken := token |}.

(** A token with another action type in its payload, signed by the server
    like the first. *)
Definition for_action (token : Jwt) (actionType : string) : Jwt :=
  {| jwt_payload := {| at_userId := at_userId (jwt_payload token);
                       at_actionType := actionType;
                       at_timestamp := at_timestamp (jwt_payload token);
                       at_nonce := at_nonce (jwt_payload token) |};
     jwt_iat := jwt_iat token; jwt_exp := jwt_exp token; jwt_signed := jwt_signed token |}.

(** ** Scenarios *)

Module Scenario.

(** A token issued to alice at time 0. *)
Definition token (nonce actionType : string) : Jwt :=
  AuthService.generateActionToken "alice" actionType nonce 0.

Definition body (nonce : string) (increment : Z) : scoreRoutes.body :=
  {| scoreRoutes.actionType := "GAME_COMPLETE";
     scoreRoutes.scoreIncrement := increment;
     scoreRoutes.actionToken := token nonce "GAME_COMPLETE" |}.

Definition request (increment : Z) : ScoreUpdateRequest :=
  {| req_userId := "alice"; req_actionType := "GAME_COMPLETE";
     req_scoreIncrement := increment;
     req_actionToken := token "n1" "GAME_COMPLETE"; req_timestamp := 0 |}.

(** The address of a client, a text PostgreSQL reads as INET. *)
Definition address : ip_text := inet "203.0.113.7".

(** Ten rate-limit checks for alice in a row. *)
Definition ten_checks : list event :=
  repeat (CheckRateLimit "alice" "score_update") 10.


(** A token whose signature is not the server's. *)
Definition forged : Jwt :=
  {| jwt_payload := jwt_payload (token "n1" "GAME_COMPLETE");
     jwt_iat := 0; jwt_exp := 300; jwt_signed := false |}.

End Scenario.

(** * Properties *)

(** ** Decimal texts read back as the number they print *)

Section Decimal.

Ltac eval_digit :=
  match goal with
  | |- context [radix_digit 10 ?c] =>
      let v := eval vm_compute in (radix_digit 10 c) in
      change (radix_digit 10 c) with v; cbv iota
  end.

Lemma parse_digits_of_uint_acc (d : Decimal.uint) (acc : positive) :
  parse_digits 10 (Z.pos acc) (NilEmpty.string_of_uint d)
  = Z.pos (Pos.of_uint_acc d acc).
Proof.
  revert acc.
  induction d; intros acc;
    cbn [NilEmpty.string_of_uint parse_digits Pos.of_uint_acc];
    try reflexivity; eval_digit; rewrite <- IHd; f_equal; lia.
Qed.

Lemma parse_digits_of_uint (d : Decimal.uint) :
  parse_digits 10 0 (NilEmpty.string_of_uint d) = Z.of_N (Pos.of_uint d).
Proof.
  induction d; cbn [NilEmpty.string_of_uint parse_digits Pos.of_uint];
    try reflexivity; eval_digit; cbn [Z.mul Z.add];
    solve [ exact IHd | apply parse_digits_of_uint_acc ].
Qed.

(** A text of decimal digits is read by [parseInt] in radix 10. *)
Lemma parseInt_digits (d : Decimal.uint) :
  d <> Decimal.Nil ->
  parseInt (NilEmpty.string_of_uint d)
  = Num (parse_digits 10 0 (NilEmpty.string_of_uint d)).
Proof.
  intros Hd. destruct d as [|d|d|d|d|d|d|d|d|d|d]; try congruence;
    try reflexivity.
  destruct d; reflexivity.
Qed.

Lemma string_of_uint_nonnil (d : Decimal.uint) :
  d <> Decimal.Nil -> NilZero.string_of_uint d = NilEmpty.string_of_uint d.
Proof. destruct d; congruence || reflexivity. Qed.

Lemma parseInt_pos (p : positive) :
  parseInt (NilZero.string_of_uint (Pos.to_uint p)) = Num (Z.pos p).
Proof.
  pose proof (DecimalPos.Unsigned.to_uint_nonnil p) as Hn.
  rewrite string_of_uint_nonnil, parseInt_digits, parse_digits_of_uint by assumption.
  now rewrite DecimalPos.Unsigned.of_to.
Qed.

Lemma parseInt_toString (z : Z) : 0 <= z -> parseInt (Z_toString z) = Num z.
Proof.
  intros Hz. destruct z as [|p|p]; [reflexivity | apply parseInt_pos | lia].
Qed.

End Decimal.

(** ** Keys of different families never meet *)

Section Keys.

Lemma scoreKey_not_tokenKey u n : ScoreService.scoreKey u <> AuthService.tokenKey n.
Proof. discriminate. Qed.

Lemma rateLimitKey_not_tokenKey u a n :
  AuthService.rateLimitKey u a <> AuthService.tokenKey n.
Proof. discriminate. Qed.

Lemma rateLimitKey_not_scoreKey u a v :
  AuthService.rateLimitKey u a <> ScoreService.scoreKey v.
Proof. discriminate. Qed.




Lemma tokenKey_inj n n' : AuthService.tokenKey n = AuthService.tokenKey n' -> n = n'.
Proof. unfold AuthService.tokenKey. cbn. now intros [=]. Qed.

Lemma scoreKey_inj u u' : ScoreService.scoreKey u = ScoreService.scoreKey u' -> u = u'.
Proof. unfold ScoreService.scoreKey. cbn. now intros [=]. Qed.

End Keys.

(** ** The order of the sorted set *)

Section Order.

Import RedisServer.

Lemma ascii_compare_lt (a b : ascii) :
  Ascii.compare a b = Lt <-> (N_of_ascii a < N_of_ascii b)%N.
Proof. unfold Ascii.compare. apply N.compare_lt_iff. Qed.

Lemma ascii_compare_eq (a b : ascii) : Ascii.compare a b = Eq <-> a = b.
Proof.
  split; [apply Ascii.compare_eq_iff | intros ->].
  unfold Ascii.compare. apply N.compare_refl.
Qed.

Lemma string_compare_refl (s : string) : String.compare s s = Eq.
Proof.
  induction s as [|c s IH]; [reflexivity|]. cbn.
  now rewrite (proj2 (ascii_compare_eq c c) eq_refl).
Qed.

Lemma string_lt_trans (a b c : string) :
  String.compare a b = Lt -> String.compare b c = Lt -> String.compare a c = Lt.
Proof.
  revert b c. induction a as [|x a IH]; intros [|y b] [|z c]; cbn; try congruence.
  destruct (Ascii.compare x y) eqn:Hxy; try congruence;
    destruct (Ascii.compare y z) eqn:Hyz; try congruence; intros H1 H2.
  - apply ascii_compare_eq in Hxy, Hyz. subst.
    rewrite (proj2 (ascii_compare_eq z z) eq_refl). eauto.
  - apply ascii_compare_eq in Hxy. subst. now rewrite Hyz.
  - apply ascii_compare_eq in Hyz. subst. now rewrite Hxy.
  - apply (proj1 (ascii_compare_lt _ _)) in Hxy, Hyz.
    assert (Ascii.compare x z = Lt) as -> by (apply ascii_compare_lt; lia).
    reflexivity.
Qed.

Lemma ltb_irrefl (s : string) : String.ltb s s = false.
Proof. unfold String.ltb. now rewrite string_compare_refl. Qed.

Lemma ltb_trans (a b c : string) :
  String.ltb a b = true -> String.ltb b c = true -> String.ltb a c = true.
Proof.
  unfold String.ltb.
  destruct (String.compare a b) eqn:Hab; try discriminate.
  destruct (String.compare b c) eqn:Hbc; try discriminate.
  now rewrite (string_lt_trans a b c Hab Hbc).
Qed.

Lemma ltb_total (a b : string) :
  a <> b -> String.ltb a b = true \/ String.ltb b a = true.
Proof.
  intros Hne. unfold String.ltb. rewrite (String.compare_antisym b a).
  destruct (String.compare a b) eqn:Hab; cbn; auto.
  apply String.compare_eq_iff in Hab. contradiction.
Qed.

Lemma zprec_irrefl (a : string * Z) : ~ zprec a a.
Proof.
  unfold zprec, zprecedes. rewrite ltb_irrefl, Z.ltb_irrefl, andb_false_r. discriminate.
Qed.

Lemma zprec_trans (a b c : string * Z) : zprec a b -> zprec b c -> zprec a c.
Proof.
  unfold zprec, zprecedes. intros Hab Hbc.
  apply orb_true_iff in Hab, Hbc. apply orb_true_iff.
  destruct Hab as [Hab|Hab], Hbc as [Hbc|Hbc];
    rewrite ?andb_true_iff, ?Z.ltb_lt, ?Z.eqb_eq in *.
  - left. lia.
  - left. lia.
  - left. lia.
  - right. destruct Hab as [? Hab], Hbc as [? Hbc].
    split; [lia | exact (ltb_trans _ _ _ Hbc Hab)].
Qed.

Lemma zprec_total (a b : string * Z) : fst a <> fst b -> zprec a b \/ zprec b a.
Proof.
  intros Hne. unfold zprec, zprecedes.
  destruct (Z.lt_trichotomy (snd a) (snd b)) as [H|[H|H]].
  - right. apply orb_true_iff. left. now apply Z.ltb_lt.
  - destruct (ltb_total _ _ Hne) as [Hl|Hl].
    + right. apply orb_true_iff. right. rewrite Hl, andb_true_r. apply Z.eqb_eq. lia.
    + left. apply orb_true_iff. right. rewrite Hl, andb_true_r. now apply Z.eqb_eq.
  - left. apply orb_true_iff. left. now apply Z.ltb_lt.
Qed.

Lemma zprec_asym (a b : string * Z) : zprec a b -> ~ zprec b a.
Proof. intros Hab Hba. exact (zprec_irrefl a (zprec_trans _ _ _ Hab Hba)). Qed.

Lemma zremove_In (m : string) (l : zset) (x : string * Z) :
  In x (zremove m l) <-> In x l /\ fst x <> m.
Proof.
  unfold zremove. rewrite List.filter_In, negb_true_iff.
  split; intros [H1 H2]; split; auto.
  - intros Heq. apply String.eqb_eq in Heq. congruence.
  - destruct (String.eqb (fst x) m) eqn:E; auto. apply String.eqb_eq in E. contradiction.
Qed.

Lemma zremove_absent (m : string) (l : zset) : ~ In m (map fst (zremove m l)).
Proof.
  rewrite List.in_map_iff. intros [x [Hx Hin]]. apply zremove_In in Hin. tauto.
Qed.

Lemma zremove_ok (m : string) (l : zset) : zset_ok l -> zset_ok (zremove m l).
Proof.
  intros [Hs Hn]. unfold zremove. split.
  - induction Hs as [|a l Hs IH Hall]; cbn; [constructor|].
    inversion Hn; subst.
    destruct (negb (String.eqb (fst a) m)); auto.
    constructor; auto.
    rewrite List.Forall_forall in *. intros x Hx. apply List.filter_In in Hx. apply Hall, Hx.
  - clear Hs. induction l as [|a l IH]; cbn; [constructor|].
    inversion Hn; subst.
    destruct (negb (String.eqb (fst a) m)); auto.
    cbn. constructor; auto.
    rewrite List.in_map_iff in *. intros [x [Hx Hin]]. apply List.filter_In in Hin.
    apply H1. exists x. tauto.
Qed.

Lemma zinsert_In (e x : string * Z) (l : zset) :
  In x (zinsert e l) <-> x = e \/ In x l.
Proof.
  induction l as [|a l IH]; cbn; [intuition congruence|].
  destruct (zprecedes a e); cbn; rewrite ?IH; intuition congruence.
Qed.

Lemma zinsert_ok (e : string * Z) (l : zset) :
  zset_ok l -> ~ In (fst e) (map fst l) -> zset_ok (zinsert e l).
Proof.
  intros [Hs Hn] Hfresh. split.
  - induction Hs as [|a l Hs IH Hall]; cbn.
    + repeat constructor.
    + inversion Hn; subst.
      destruct (zprecedes a e) eqn:Hae.
      * constructor.
        -- apply IH; auto. cbn in Hfresh. tauto.
        -- rewrite List.Forall_forall in *. intros x Hx.
           apply zinsert_In in Hx. destruct Hx as [->|Hx]; auto.
      * assert (zprec e a) as Hea.
        { destruct (zprec_total e a) as [H|H]; auto.
          - cbn in Hfresh. intros Heq. apply Hfresh. left. congruence.
          - unfold zprec in H. congruence. }
        constructor; [constructor; auto|].
        constructor; auto.
        rewrite List.Forall_forall in *. intros x Hx.
        eapply zprec_trans; eauto.
  - clear Hs. induction l as [|a l IH]; cbn.
    + repeat constructor. auto.
    + inversion Hn; subst. cbn in Hfresh.
      destruct (zprecedes a e); cbn.
      * constructor; [|apply IH; tauto].
        rewrite List.in_map_iff. intros [x [Hx Hin]]. apply zinsert_In in Hin.
        destruct Hin as [->|Hin]; [apply Hfresh; left; congruence|].
        apply H1. apply List.in_map_iff. eauto.
      * constructor; [tauto|]. constructor; auto.
Qed.

Lemma zadd_ok (m : string) (s : Z) (l : zset) :
  zset_ok l -> zset_ok (zinsert (m, s) (zremove m l)).
Proof.
  intros H. apply zinsert_ok; [now apply zremove_ok | apply zremove_absent].
Qed.

Lemma filter_none {A} (f : A -> bool) (l : list A) :
  (forall x, In x l -> f x = false) -> List.filter f l = [].
Proof.
  induction l as [|a l IH]; intros H; [reflexivity|]. cbn.
  rewrite (H a) by (left; reflexivity). apply IH. intros x Hx. apply H. now right.
Qed.

(** In an ordered set the place of a member counts the entries before it. *)
Lemma zindex_count (l : zset) (m : string) (s : Z) :
  zset_ok l -> In (m, s) l ->
  zindex m l
  = Some (Z.of_nat (length (List.filter (fun e => zprecedes e (m, s)) l))).
Proof.
  intros [Hs Hn] Hin. induction Hs as [|a l Hs IH Hall]; [contradiction|].
  inversion Hn as [|? ? Hnotin Hn']; subst. cbn [zindex List.filter].
  rewrite List.Forall_forall in Hall.
  destruct Hin as [->|Hin].
  - cbn [fst]. rewrite String.eqb_refl.
    destruct (zprecedes (m, s) (m, s)) eqn:Hself; [now apply zprec_irrefl in Hself|].
    rewrite filter_none; [reflexivity|].
    intros x Hx. destruct (zprecedes x (m, s)) eqn:Hx'; auto.
    exfalso. exact (zprec_asym _ _ (Hall x Hx) Hx').
  - destruct (String.eqb (fst a) m) eqn:Heq.
    + apply String.eqb_eq in Heq. exfalso. apply Hnotin.
      apply List.in_map_iff. exists (m, s). auto.
    + rewrite (IH Hn' Hin). rewrite (Hall _ Hin : zprecedes a (m, s) = true).
      cbn [option_map length]. f_equal. lia.
Qed.

(** The entries before a member: the strictly greater scores and the
    ties that win the order on ids. *)
Lemma zprecedes_count (l : zset) (m : string) (s : Z) :
  length (List.filter (fun e => zprecedes e (m, s)) l)
  = (length (strictly_greater s l) + length (tied_ahead m s l))%nat.
Proof.
  unfold strictly_greater, tied_ahead.
  induction l as [|a l IH]; [reflexivity|]. cbn [List.filter].
  unfold zprecedes at 1. cbn [fst snd].
  destruct (s <? snd a) eqn:Hlt; cbn [orb].
  - assert ((snd a =? s) = false) as -> by (apply Z.eqb_neq; apply Z.ltb_lt in Hlt; lia).
    cbn [andb length]. rewrite IH. lia.
  - destruct ((snd a =? s) && String.ltb m (fst a)); cbn [length]; rewrite IH; lia.
Qed.

End Order.

(** ** Rules of the weakest precondition *)

Section Rules.

Context {A B : Type}.
Implicit Types (Q : A -> World -> Prop) (E : exn -> World -> Prop).

Lemma wp_ret (a : A) Q E w : Q a w -> wp (mret a) Q E w.
Proof. exact (fun H => H). Qed.

Lemma wp_throw (e : exn) Q E w : E e w -> wp (throw e) Q E w.
Proof. exact (fun H => H). Qed.

Lemma wp_bind (m : M A) (k : A -> M B) (R : B -> World -> Prop) E w :
  wp m (fun a => wp (k a) R E) E w -> wp (m ≫= k) R E w.
Proof. unfold wp, mbind, M_bind. now destruct (m w) as [[a|e] w']. Qed.

Lemma wp_try_catch (m : M A) (h : exn -> M A) Q E E' w :
  wp m Q E' w -> (forall e w', E' e w' -> wp (h e) Q E w') ->
  wp (try_catch m h) Q E w.
Proof.
  intros H1 H2. unfold wp in *. unfold try_catch.
  destruct (m w) as [[a|e] w']; [exact H1 | exact (H2 e w' H1)].
Qed.

Lemma wp_mono (m : M A) Q Q' E E' w :
  wp m Q E w -> (forall a w', Q a w' -> Q' a w') -> (forall e w', E e w' -> E' e w') ->
  wp m Q' E' w.
Proof. unfold wp. destruct (m w) as [[a|e] w']; auto. Qed.

Lemma wp_gets (f : World -> A) Q E w : Q (f w) w -> wp (gets f) Q E w.
Proof. exact (fun H => H). Qed.

Lemma wp_modify (f : World -> World) (Q : unit -> World -> Prop) E w :
  Q tt (f w) -> wp (modify f) Q E w.
Proof. exact (fun H => H). Qed.

Lemma keeps_ret (a : A) : keeps (mret a).
Proof. intros w0 w H. exact H. Qed.

Lemma keeps_throw (e : exn) : keeps (throw e : M A).
Proof. intros w0 w H. exact H. Qed.

Lemma keeps_bind (m : M A) (k : A -> M B) :
  keeps m -> (forall a, keeps (k a)) -> keeps (m ≫= k).
Proof.
  intros Hm Hk w0 w H. apply wp_bind.
  eapply wp_mono; [apply Hm, H | intros a w' H'; apply Hk, H' | auto].
Qed.

Lemma keeps_try_catch (m : M A) (h : exn -> M A) :
  keeps m -> (forall e, keeps (h e)) -> keeps (try_catch m h).
Proof.
  intros Hm Hh w0 w H. eapply wp_try_catch; [apply Hm, H|].
  intros e w' H'. apply Hh, H'.
Qed.

Lemma keeps_gets (f : World -> A) : keeps (gets f).
Proof. intros w0 w H. exact H. Qed.

(** What a computation that keeps [J] had to establish on the way. *)
Lemma keeps_with (m : M A) (P : A -> World -> Prop) :
  (forall w0 w, J w0 w -> wp m (fun a w' => J w0 w' /\ P a w') (fun _ w' => J w0 w') w) ->
  keeps m.
Proof. intros H w0 w HJ. eapply wp_mono; [apply H, HJ | now intros a w' [? _] | auto]. Qed.

End Rules.

(** ** The primitives keep [J] *)

Section Primitives.

Lemma J_refl w :
  scores_ok (user_scores (db w)) ->
  (forall s a, snapshot (db w) = Some (s, a) -> scores_ok s) ->
  cache_ok (keys (redis w)) ->
  (forall key l, zsets (redis w) !! key = Some l -> zset_ok l) ->
  J w w.
Proof. intros; constructor; auto; [lia | intros n e He _; now left]. Qed.

Lemma entry_dead_later (t t' : Z) (e : entry) :
  t <= t' -> entry_live t e = false -> entry_live t' e = false.
Proof.
  unfold entry_live. destruct (e_expire e); [|discriminate].
  rewrite !Z.ltb_ge. lia.
Qed.

(** Only the clock, the keys, the sorted sets and the score table matter. *)
Lemma J_ext w0 w w' :
  J w0 w -> clock w <= clock w' ->
  keys (redis w') = keys (redis w) -> zsets (redis w') = zsets (redis w) ->
  user_scores (db w') = user_scores (db w) -> snapshot (db w') = snapshot (db w) ->
  J w0 w'.
Proof.
  intros [] Hc Hk Hz Hu Hs. constructor; rewrite ?Hk, ?Hz, ?Hu, ?Hs; auto; [lia|].
  intros n e He Hv.
  destruct (J_tokens0 n e He Hv) as [H|H]; [left; now rewrite Hk | right].
  eapply entry_dead_later; eauto.
Qed.

Lemma J_with_keys w0 w (k : gmap string entry) :
  J w0 w -> cache_ok k ->
  (forall n, k !! AuthService.tokenKey n = keys (redis w) !! AuthService.tokenKey n) ->
  J w0 (with_redis (with_keys k (redis w)) w).
Proof.
  intros [] Hc Hk. constructor; cbn; auto.
  intros n e He Hv. rewrite Hk. auto.
Qed.

Lemma keeps_ready : keeps RedisClient.ready.
Proof.
  intros w0 w H. unfold wp, RedisClient.ready. now destruct (isConnected (redis w)).
Qed.

Lemma keeps_ready_gets {A} (f : World -> A) : keeps (RedisClient.ready ;; gets f).
Proof. apply keeps_bind; [apply keeps_ready | intros _; apply keeps_gets]. Qed.

Lemma keeps_get key : keeps (RedisClient.get key).
Proof. apply keeps_ready_gets. Qed.

Lemma keeps_exists key : keeps (RedisClient.exists_ key).
Proof. apply keeps_ready_gets. Qed.

Lemma keeps_zrank key member : keeps (RedisClient.zrank key member).
Proof. apply keeps_ready_gets. Qed.

Lemma keeps_zscore key member : keeps (RedisClient.zscore key member).
Proof. apply keeps_ready_gets. Qed.

Lemma keeps_zcard key : keeps (RedisClient.zcard key).
Proof. apply keeps_ready_gets. Qed.

Lemma keeps_zrevrange key start stop withScores :
  keeps (RedisClient.zrevrange key start stop withScores).
Proof.
  unfold RedisClient.zrevrange. apply keeps_bind; [apply keeps_ready|intros _].
  destruct withScores; apply keeps_throw.
Qed.

Lemma cache_ok_insert_other (k : gmap string entry) key e :
  cache_ok k -> (forall u, key <> ScoreService.scoreKey u) -> cache_ok (<[key := e]> k).
Proof.
  intros Hc Hne u e' He. rewrite lookup_insert_ne in He by apply Hne. eauto.
Qed.

Lemma cache_ok_insert_score (k : gmap string entry) u z x :
  cache_ok k -> 0 <= z ->
  cache_ok (<[ScoreService.scoreKey u := {| e_value := Str (Z_toString z); e_expire := x |}]> k).
Proof.
  intros Hc Hz u' e' He.
  destruct (decide (ScoreService.scoreKey u = ScoreService.scoreKey u')) as [Heq|Hne].
  - rewrite Heq, lookup_insert_eq in He. inversion He; subst. cbn. eauto.
  - rewrite lookup_insert_ne in He by assumption. eauto.
Qed.

Lemma cache_ok_delete (k : gmap string entry) key : cache_ok k -> cache_ok (delete key k).
Proof.
  intros Hc u e He. apply lookup_delete_Some in He. destruct He as [_ He]. eauto.
Qed.

Lemma keeps_modify_keys (f : World -> gmap string entry) :
  (forall w0 w, J w0 w -> cache_ok (f w) /\
     forall n, f w !! AuthService.tokenKey n = keys (redis w) !! AuthService.tokenKey n) ->
  keeps (RedisClient.ready ;;
         modify (fun w => with_redis (with_keys (f w) (redis w)) w)).
Proof.
  intros Hf. apply keeps_bind; [apply keeps_ready|intros _].
  intros w0 w H. apply wp_modify. destruct (Hf w0 w H). now apply J_with_keys.
Qed.

(** A write to a key that holds neither a nonce nor a score. *)
Lemma keeps_setex_other key seconds v :
  (forall n, key <> AuthService.tokenKey n) -> (forall u, key <> ScoreService.scoreKey u) ->
  keeps (RedisClient.setex key seconds v).
Proof.
  intros Hn Hu. apply keeps_modify_keys. intros w0 w []. split.
  - now apply cache_ok_insert_other.
  - intros n. now apply lookup_insert_ne.
Qed.

Lemma keeps_set_other key v :
  (forall n, key <> AuthService.tokenKey n) -> (forall u, key <> ScoreService.scoreKey u) ->
  keeps (RedisClient.set key v).
Proof.
  intros Hn Hu. apply keeps_modify_keys. intros w0 w []. split.
  - now apply cache_ok_insert_other.
  - intros n. now apply lookup_insert_ne.
Qed.

(** A score written to the cache as the text of a non-negative integer. *)
Lemma keeps_setex_score u seconds z :
  0 <= z -> keeps (RedisClient.setex (ScoreService.scoreKey u) seconds (Str (Z_toString z))).
Proof.
  intros Hz. apply keeps_modify_keys. intros w0 w []. split.
  - now apply cache_ok_insert_score.
  - intros n. apply lookup_insert_ne, scoreKey_not_tokenKey.
Qed.

Lemma keeps_del key :
  (forall n, key <> AuthService.tokenKey n) -> keeps (RedisClient.del key).
Proof.
  intros Hn. unfold RedisClient.del.
  apply keeps_bind; [apply keeps_ready|intros _].
  apply keeps_bind; [apply keeps_gets|intros c].
  apply keeps_bind; [|intros _; apply keeps_ret].
  intros w0 w H. apply wp_modify. apply J_with_keys; auto.
  - apply cache_ok_delete, H.
  - intros n. now apply lookup_delete_ne.
Qed.

Lemma keeps_zadd key score member : keeps (RedisClient.zadd key score member).
Proof.
  unfold RedisClient.zadd. apply keeps_bind; [apply keeps_ready|intros _].
  destruct score as [s|]; [|apply keeps_throw].
  apply keeps_bind; [apply keeps_gets|intros c].
  apply keeps_bind; [|intros _; apply keeps_ret].
  intros w0 w [] . apply wp_modify. constructor; cbn; auto.
  intros key' l Hl.
  destruct (decide (key = key')) as [<-|Hne].
  - rewrite lookup_insert_eq in Hl. inversion Hl; subst. apply zadd_ok.
    unfold RedisServer.zget. destruct (zsets (redis w) !! key) eqn:Hz; cbn; eauto.
    split; constructor.
  - rewrite lookup_insert_ne in Hl by assumption. eauto.
Qed.

End Primitives.

(** ** The services keep [J] *)

Section Services.

Lemma keeps_bind_with {A B} (m : M A) (P : A -> Prop) (k : A -> M B) :
  (forall w0 w, J w0 w ->
     wp m (fun a w' => J w0 w' /\ P a) (fun _ w' => J w0 w') w) ->
  (forall a, P a -> keeps (k a)) ->
  keeps (m ≫= k).
Proof.
  intros Hm Hk w0 w H. apply wp_bind.
  eapply wp_mono; [apply Hm, H | | auto].
  intros a w' [H' Ha]. now apply Hk.
Qed.

(** A read of Redis returns what the server holds and changes nothing. *)
Lemma wp_ready_gets {A} (f : World -> A) w :
  wp (RedisClient.ready ;; gets f)
     (fun v w' => w' = w /\ v = f w /\ isConnected (redis w) = true)
     (fun _ w' => w' = w /\ isConnected (redis w) = false) w.
Proof.
  unfold wp, mbind, M_bind, RedisClient.ready, gets.
  destruct (isConnected (redis w)); auto.
Qed.

Lemma J_with_db w0 w (d : Database) :
  J w0 w -> scores_ok (user_scores d) ->
  (forall s a, snapshot d = Some (s, a) -> scores_ok s) ->
  J w0 (with_db d w).
Proof. intros [] Hs Hn. constructor; auto. Qed.

Lemma scores_ok_insert (m : gmap string Z) u s :
  scores_ok m -> 0 <= s -> scores_ok (<[u := s]> m).
Proof.
  intros Hm Hs u' s' H. destruct (decide (u = u')) as [->|Hne].
  - rewrite lookup_insert_eq in H. congruence.
  - rewrite lookup_insert_ne in H by assumption. eauto.
Qed.

Lemma integer_in_inr (n : number) (z : Z) :
  DatabaseConnection.integer_in n = inr z ->
  n = Num z /\ DatabaseConnection.INTEGER_MIN <= z <= DatabaseConnection.INTEGER_MAX.
Proof.
  unfold DatabaseConnection.integer_in. destruct n as [s|]; [|discriminate].
  destruct (_ || _) eqn:E; [discriminate|]. intros [= <-].
  apply orb_false_iff in E as [E1 E2]. apply Z.ltb_ge in E1, E2. auto.
Qed.

Lemma integer_in_fits (z : Z) :
  DatabaseConnection.INTEGER_MIN <= z <= DatabaseConnection.INTEGER_MAX ->
  DatabaseConnection.integer_in (Num z) = inr z.
Proof.
  intros [H1 H2]. unfold DatabaseConnection.integer_in.
  apply Z.ltb_ge in H1, H2. now rewrite H1, H2.
Qed.

Lemma varchar_fits (n : nat) (s : string) :
  (String.length s <= n)%nat -> DatabaseConnection.varchar n s = inr s.
Proof.
  intros H. unfold DatabaseConnection.varchar.
  apply Nat.leb_le in H. now rewrite H.
Qed.

Lemma inet_in_inet (ip : ip_text) :
  is_inet ip = true -> DatabaseConnection.inet_in ip = inr ip.
Proof. intros H. unfold DatabaseConnection.inet_in. now rewrite H. Qed.

Lemma J_rollback w0 w f :
  J w0 w ->
  J w0 (with_db (DatabaseConnection.rollback (DatabaseConnection.with_faults f (db w))) w).
Proof.
  intros H. pose proof H as []. unfold DatabaseConnection.rollback. cbn.
  destruct (snapshot (db w)) as [[s a]|] eqn:Hs; apply J_with_db; cbn; eauto; discriminate.
Qed.

Lemma J_execute w0 w q f rows d :
  J w0 w -> statement_ok q ->
  DatabaseConnection.execute q (DatabaseConnection.with_faults f (db w)) = inr (rows, d) ->
  J w0 (with_db d w) /\ (forall s r, rows = s :: r -> 0 <= s).
Proof.
  intros H Hq Hx. pose proof H as []. unfold DatabaseConnection.execute in Hx.
  destruct (DatabaseConnection.in_failed_transaction _).
  { destruct q; try discriminate; inversion Hx; subst;
      (split; [now apply J_rollback|discriminate]). }
  destruct q as [| | |u n t|e|u]; cbn -[DatabaseConnection.integer_in
                                          DatabaseConnection.varchar] in Hx.
  - inversion Hx; subst. split; [|discriminate].
    apply J_with_db; cbn; auto.
    destruct (snapshot (db w)) as [[s a]|] eqn:Hs; intros s' a' Heq; inversion Heq; subst; eauto.
  - inversion Hx; subst. split; [|discriminate]. apply J_with_db; cbn; auto. discriminate.
  - inversion Hx; subst. split; [now apply J_rollback|discriminate].
  - destruct (DatabaseConnection.integer_in n) as [m|s] eqn:Hi; [discriminate|].
    apply integer_in_inr in Hi as [-> _].
    destruct (DatabaseConnection.varchar 255 u) as [m|id]; [discriminate|].
    inversion Hx; subst. split; [|discriminate].
    apply J_with_db; cbn; auto. now apply scores_ok_insert.
  - destruct (DatabaseConnection.integer_in (Num _)) as [m|sc]; [discriminate|].
    destruct (DatabaseConnection.integer_in (al_previousScore e)) as [m|ps]; [discriminate|].
    destruct (DatabaseConnection.integer_in (al_newScore e)) as [m|ns]; [discriminate|].
    destruct (DatabaseConnection.inet_in _) as [m|ip]; [discriminate|].
    destruct (DatabaseConnection.varchar 255 _) as [m|id]; [discriminate|].
    destruct (DatabaseConnection.varchar 100 _) as [m|ac]; [discriminate|].
    inversion Hx; subst. split; [|discriminate]. apply J_with_db; cbn; auto.
  - inversion Hx; subst. split; [apply J_with_db; cbn; auto|].
    intros s r Hr. destruct (user_scores (db w) !! u) eqn:Hu; inversion Hr; subst. eauto.
Qed.

Lemma wp_query q w0 w :
  J w0 w -> statement_ok q ->
  wp (DatabaseConnection.query q)
     (fun rows w' => J w0 w' /\ forall s r, rows = s :: r -> 0 <= s)
     (fun _ w' => J w0 w') w.
Proof.
  intros H Hq. unfold wp, DatabaseConnection.query.
  destruct (faults (db w)) as [|[] f] eqn:Hf.
  - cbv zeta. destruct (DatabaseConnection.execute q _) as [m|[rows d]] eqn:Hx.
    + apply J_with_db; cbn; apply H.
    + eapply J_execute; eauto.
  - apply J_with_db; cbn; apply H.
  - cbv zeta. destruct (DatabaseConnection.execute q _) as [m|[rows d]] eqn:Hx.
    + apply J_with_db; cbn; apply H.
    + eapply J_execute; eauto.
Qed.

Lemma keeps_query q : statement_ok q -> keeps (DatabaseConnection.query q).
Proof.
  intros Hq w0 w H. eapply wp_mono; [apply (wp_query q w0); assumption | now intros a w' [? _] | auto].
Qed.

Lemma keeps_uuidv4 : keeps uuidv4.
Proof. intros w0 w H. unfold wp, uuidv4. eapply J_ext; eauto. cbn. lia. Qed.

Lemma keeps_emit n : keeps (WebSocketManager.emit n).
Proof. intros w0 w H. apply wp_modify. eapply J_ext; eauto. cbn. lia. Qed.

Lemma keeps_Date_now : keeps Date_now.
Proof. apply keeps_gets. Qed.

Lemma keeps_skip : keeps skip.
Proof. apply keeps_ret. Qed.

Lemma keeps_logAuditEntry e : keeps (ScoreService.logAuditEntry e).
Proof.
  apply keeps_try_catch; [|intros _; apply keeps_skip].
  apply keeps_bind; [now apply keeps_query | intros _; apply keeps_skip].
Qed.

(** Under [J] the current score reads as a non-negative integer. *)
Lemma wp_getCurrentScore u w0 w :
  J w0 w ->
  wp (ScoreService.getCurrentScore u)
     (fun n w' => J w0 w' /\ exists z, n = Num z /\ 0 <= z)
     (fun _ w' => J w0 w') w.
Proof.
  intros H. unfold ScoreService.getCurrentScore. apply wp_bind.
  eapply wp_mono; [apply wp_ready_gets | | now intros e w' [-> _]].
  intros v w' (-> & -> & _). cbn beta.
  unfold RedisServer.GET.
  destruct (keys (redis w) !! ScoreService.scoreKey u) as [e|] eqn:He.
  - destruct (entry_live (clock w) e).
    + apply wp_ret. split; [assumption|].
      destruct (J_cache _ _ H u e He) as (z & Hz & ->). exists z.
      cbn. now rewrite parseInt_toString.
    + apply wp_bind.
      eapply wp_mono; [apply (wp_query _ w0); [assumption|exact I] | | auto].
      intros rows w' [H' Hrows]. cbn beta.
      assert (0 <= match rows with s :: _ => s | [] => 0 end) as Hs
        by (destruct rows; [lia | eauto]).
      apply wp_bind.
      eapply wp_mono; [apply keeps_setex_score; eassumption | | auto].
      intros ? w'' H''. apply wp_ret. eauto.
  - apply wp_bind.
    eapply wp_mono; [apply (wp_query _ w0); [assumption|exact I] | | auto].
    intros rows w' [H' Hrows]. cbn beta.
    assert (0 <= match rows with s :: _ => s | [] => 0 end) as Hs
      by (destruct rows; [lia | eauto]).
    apply wp_bind.
    eapply wp_mono; [apply keeps_setex_score; eassumption | | auto].
    intros ? w'' H''. apply wp_ret. eauto.
Qed.

Lemma keeps_getCurrentScore u : keeps (ScoreService.getCurrentScore u).
Proof.
  intros w0 w H.
  eapply wp_mono; [apply (wp_getCurrentScore u w0); assumption | now intros a w' [? _] | auto].
Qed.

Lemma keeps_getUserRank u : keeps (ScoreService.getUserRank u).
Proof. apply keeps_bind; [apply keeps_zrank | intros r; apply keeps_ret]. Qed.

Lemma keeps_updateLeaderboard u s : keeps (ScoreService.updateLeaderboard u s).
Proof. apply keeps_bind; [apply keeps_zadd | intros _; apply keeps_skip]. Qed.

End Services.

Lemma keeps_notifyUserScoreUpdate u s o n i :
  keeps (WebSocketManager.notifyUserScoreUpdate u s o n i).
Proof. apply keeps_emit. Qed.

Lemma keeps_broadcastLeaderboardUpdate : keeps WebSocketManager.broadcastLeaderboardUpdate.
Proof. apply keeps_emit. Qed.

Create HintDb keeps.

#[export] Hint Resolve keeps_ret keeps_throw keeps_skip keeps_gets keeps_Date_now
  keeps_uuidv4 keeps_emit keeps_get keeps_exists keeps_zrank keeps_zscore keeps_zcard
  keeps_zrevrange keeps_zadd keeps_logAuditEntry keeps_getCurrentScore
  keeps_getUserRank keeps_updateLeaderboard keeps_notifyUserScoreUpdate
  keeps_broadcastLeaderboardUpdate : keeps.

#[export] Hint Extern 1 (keeps (DatabaseConnection.query _)) =>
  apply keeps_query; exact I : keeps.

#[export] Hint Extern 1 (keeps (RedisClient.del _)) =>
  apply keeps_del; intros ?; discriminate : keeps.

#[export] Hint Extern 1 (keeps (RedisClient.setex _ _ _)) =>
  apply keeps_setex_other; intros ?; discriminate : keeps.

#[export] Hint Extern 1 (keeps (RedisClient.set _ _)) =>
  apply keeps_set_other; intros ?; discriminate : keeps.

(** One step through the structure of a computation. *)
Ltac keeps_step :=
  first
    [ solve [auto with keeps]
    | match goal with
      | |- keeps (mbind _ _) => apply keeps_bind; [|intros ?]
      | |- keeps (try_catch _ _) => apply keeps_try_catch; [|intros ?]
      | |- keeps (if ?b then _ else _) => destruct b eqn:?
      | |- keeps (match ?x with _ => _ end) => destruct x eqn:?
      end ].

Ltac keeps_auto := repeat keeps_step.

Section Calls.

Lemma keeps_jwt_verify token : keeps (AuthService.jwt_verify token).
Proof.
  intros w0 w H. unfold wp, AuthService.jwt_verify.
  destruct (negb (jwt_signed token)); [assumption|].
  now destruct (jwt_exp token <=? clock w).
Qed.

(** Marking a nonce used, where the key read as unused. *)
Lemma J_setex_token w0 w n seconds :
  J w0 w ->
  rvalue_truthy (RedisServer.GET (clock w) (AuthService.tokenKey n) (redis w)) = false ->
  J w0 (with_redis
          (RedisServer.SETEX (clock w) (AuthService.tokenKey n) seconds (Str "used") (redis w))
          w).
Proof.
  intros H Hget. pose proof H as []. constructor; cbn; auto.
  - intros n' e He Hv. cbn.
    destruct (decide (AuthService.tokenKey n = AuthService.tokenKey n')) as [Heq|Hne].
    + right. destruct (J_tokens0 n' e He Hv) as [Hk|Hd]; [|assumption].
      unfold RedisServer.GET in Hget. rewrite Heq, Hk in Hget.
      destruct (entry_live (clock w) e); [|reflexivity].
      rewrite Hv in Hget. discriminate.
    + rewrite lookup_insert_ne by assumption. auto.
  - apply cache_ok_insert_other; [assumption|]. intros u Heq.
    symmetry in Heq. now apply scoreKey_not_tokenKey in Heq.
Qed.

Lemma keeps_validateActionToken token userId :
  keeps (AuthService.validateActionToken token userId).
Proof.
  apply keeps_try_catch; [|intros []; apply keeps_ret].
  apply keeps_bind; [apply keeps_jwt_verify|intros decoded].
  destruct (negb _); [apply keeps_ret|].
  intros w0 w H. apply wp_bind.
  eapply wp_mono; [apply wp_ready_gets | | now intros e w' [-> _]].
  intros v w' (-> & -> & Hc). cbn beta.
  destruct (rvalue_truthy _) eqn:Hv; [now apply wp_ret|].
  apply wp_bind. unfold RedisClient.setex.
  apply wp_bind. unfold wp at 1. unfold RedisClient.ready. rewrite Hc.
  apply wp_modify.
  pose proof (J_setex_token w0 w _ AuthService.tokenExpiration H Hv) as H'.
  destruct (negb _); apply wp_ret; exact H'.
Qed.

Lemma keeps_checkUserExists userId : keeps (AuthService.checkUserExists userId).
Proof. unfold AuthService.checkUserExists. keeps_auto. Qed.

Lemma keeps_validateUser userId : keeps (AuthService.validateUser userId).
Proof.
  unfold AuthService.validateUser.
  destruct (_ || _); [apply keeps_ret | apply keeps_checkUserExists].
Qed.

Lemma keeps_checkRateLimit userId action :
  keeps (AuthService.checkRateLimit userId action).
Proof. unfold AuthService.checkRateLimit. keeps_auto. Qed.

Lemma keeps_updateScoreCache u z :
  0 <= z -> keeps (ScoreService.updateScoreCache u (Num z)).
Proof.
  intros Hz. unfold ScoreService.updateScoreCache. cbn [number_toString].
  apply keeps_setex_score. exact Hz.
Qed.

Lemma keeps_updateScore request ip userAgent :
  keeps (ScoreService.updateScore request ip userAgent).
Proof.
  unfold ScoreService.updateScore.
  apply keeps_try_catch; [|intros error; keeps_auto].
  destruct (_ || _) eqn:Hdelta; [apply keeps_throw|].
  apply orb_false_iff in Hdelta. destruct Hdelta as [Hpos _].
  apply Z.leb_gt in Hpos.
  apply keeps_bind_with with (P := fun n => exists z, n = Num z /\ 0 <= z);
    [intros w0 w H; now apply wp_getCurrentScore|].
  intros n (z & -> & Hz). cbn [number_add].
  assert (0 <= z + req_scoreIncrement request) as Hnew by lia.
  apply keeps_bind; [keeps_auto|intros _].
  apply keeps_try_catch; [|intros dbError; keeps_auto].
  apply keeps_bind; [keeps_auto|intros t].
  apply keeps_bind; [apply keeps_query; exact Hnew|intros _].
  apply keeps_bind; [keeps_auto|intros id].
  apply keeps_bind; [keeps_auto|intros t'].
  apply keeps_bind; [keeps_auto|intros _].
  apply keeps_bind; [keeps_auto|intros _].
  apply keeps_bind; [apply keeps_updateScoreCache; exact Hnew|intros _].
  keeps_auto.
Qed.

Lemma keeps_getUserScoreInfo userId : keeps (ScoreService.getUserScoreInfo userId).
Proof. unfold ScoreService.getUserScoreInfo. keeps_auto. Qed.

Lemma keeps_getTopUsers limit : keeps (LeaderboardService.getTopUsers limit).
Proof.
  unfold LeaderboardService.getTopUsers, LeaderboardService.JSON_parse. keeps_auto.
Qed.

Lemma keeps_getUserPosition userId : keeps (LeaderboardService.getUserPosition userId).
Proof. unfold LeaderboardService.getUserPosition. keeps_auto. Qed.

Lemma keeps_getLeaderboardAroundUser userId range :
  keeps (LeaderboardService.getLeaderboardAroundUser userId range).
Proof. unfold LeaderboardService.getLeaderboardAroundUser. keeps_auto. Qed.

Lemma keeps_invalidateLeaderboardCache : keeps LeaderboardService.invalidateLeaderboardCache.
Proof. unfold LeaderboardService.invalidateLeaderboardCache. keeps_auto. Qed.

Lemma keeps_updateUserScore userId score :
  keeps (LeaderboardService.updateUserScore userId score).
Proof.
  apply keeps_bind; [apply keeps_zadd | intros _; apply keeps_invalidateLeaderboardCache].
Qed.

Lemma keeps_removeUser userId : keeps (LeaderboardService.removeUser userId).
Proof.
  apply keeps_bind; [|intros _; apply keeps_invalidateLeaderboardCache].
  apply keeps_del. intros n. discriminate.
Qed.

Lemma keeps_forEach {A} (f : A -> M unit) (l : list A) :
  (forall x, keeps (f x)) -> keeps (LeaderboardService.forEach f l).
Proof.
  intros Hf. induction l as [|x l IH]; cbn; [apply keeps_skip|].
  apply keeps_bind; auto.
Qed.

Lemma keeps_initializeSampleData : keeps LeaderboardService.initializeSampleData.
Proof. apply keeps_forEach. intros x. apply keeps_updateUserScore. Qed.

Lemma keeps_handler userId b ip userAgent :
  keeps (scoreRoutes.updateUserScoreHandler userId b ip userAgent).
Proof.
  unfold scoreRoutes.updateUserScoreHandler.
  apply keeps_try_catch; [|intros _; apply keeps_ret].
  apply keeps_bind; [apply keeps_validateActionToken|intros [|error]]; [|apply keeps_ret].
  apply keeps_bind; [apply keeps_checkRateLimit|intros rl].
  destruct (negb _); [apply keeps_ret|].
  apply keeps_bind; [apply keeps_Date_now|intros t].
  apply keeps_bind; [apply keeps_updateScore|intros r].
  destruct (resp_success r); apply keeps_ret.
Qed.

Lemma keeps_postUserScore userId b ip userAgent :
  keeps (postUserScore userId b ip userAgent).
Proof.
  unfold postUserScore, scoreRoutes.authMiddleware, scoreRoutes.validateScoreUpdate.
  apply keeps_try_catch; [|intros _; apply keeps_ret].
  destruct (String.eqb userId ""); [apply keeps_ret|].
  apply keeps_bind; [apply keeps_validateUser|intros ok].
  destruct (negb ok); [apply keeps_ret|].
  destruct (scoreRoutes.scoreUpdateSchema b); [apply keeps_ret|apply keeps_handler].
Qed.

Lemma keeps_exec {A} (m : M A) w0 w : keeps m -> J w0 w -> J w0 (exec m w).
Proof.
  intros Hm H. specialize (Hm w0 w H). unfold wp in Hm. unfold exec.
  now destruct (m w) as [[a|e] w'].
Qed.

(** Every event keeps [J]. *)
Lemma J_step e w0 w : J w0 w -> J w0 (step e w).
Proof.
  intros H. destruct e; cbn [step];
    try (apply keeps_exec; [|assumption]).
  - eapply J_ext; eauto. cbn. lia.
  - eapply J_ext; eauto. cbn. lia.
  - eapply J_ext; eauto. cbn. lia.
  - apply keeps_postUserScore.
  - apply keeps_updateScore.
  - apply keeps_validateActionToken.
  - apply keeps_checkRateLimit.
  - apply keeps_getUserScoreInfo.
  - apply keeps_getTopUsers.
  - apply keeps_getUserPosition.
  - apply keeps_getLeaderboardAroundUser.
  - apply keeps_updateUserScore.
  - apply keeps_removeUser.
  - apply keeps_initializeSampleData.
Qed.

Lemma J_run events w0 w : J w0 w -> J w0 (run events w).
Proof.
  revert w. induction events as [|e events IH]; intros w H; [exact H|].
  cbn. apply IH. now apply J_step.
Qed.

Lemma J_initial : J initial initial.
Proof.
  apply J_refl; cbn.
  - intros u s H. rewrite lookup_empty in H. discriminate.
  - discriminate.
  - intros u e H. rewrite lookup_empty in H. discriminate.
  - intros key l H. rewrite lookup_empty in H. discriminate.
Qed.

Lemma J_reachable w : reachable w -> J initial w.
Proof. intros [events ->]. apply J_run, J_initial. Qed.

Lemma J_restart w0 w : J w0 w -> J w w.
Proof. intros []. now apply J_refl. Qed.

End Calls.

(** ** What the code does on the inputs where it departs from its documentation *)

Section Evaluations.

Import Scenario.

(** C4 (the code at the failing input): a correctly signed, unexpired
    token of alice with a fresh nonce and the unknown action type "CHEAT"
    is rejected, and yet its nonce is marked used: the key is written
    before the action type is checked. *)
Theorem rejected_unknown_action_marks_nonce_used :
  let call := AuthService.validateActionToken (token "n1" "CHEAT") "alice" in
  result call initial = Returned (AuthService.invalid ErrorCodes.INVALID_ACTION_TOKEN)
  /\ keys (redis initial) !! AuthService.tokenKey "n1" = None
  /\ keys (redis (exec call initial)) !! AuthService.tokenKey "n1"
     = Some {| e_value := Str "used"; e_expire := Some 300 |}.
Proof. vm_compute. auto. Qed.

(** C6 (the code at the failing input): with user1 at 1500 and user2 at
    1400 in the sorted set, Redis up and no snapshot cached, the top-10
    query answers no entry at all.  The wrapper's [zrevrange] calls a
    method the Redis client does not have; the TypeError is caught by
    [getTopUsers], which throws 'Failed to fetch leaderboard' and caches
    nothing. *)
Theorem getTopUsers_fails_without_snapshot :
  let w := run [UpdateUserScore "user1" (Num 1500); UpdateUserScore "user2" (Num 1400)]
             initial in
  leaderboard w = [("user1", 1500); ("user2", 1400)]
  /\ isConnected (redis w) = true
  /\ result (RedisClient.zrevrange LeaderboardService.LEADERBOARD_KEY 0 9 true) w
     = Thrown (TypeError "this.client.zRevRangeWithScores is not a function")
  /\ result (LeaderboardService.getTopUsers 10) w
     = Thrown (Error "Failed to fetch leaderboard")
  /\ keys (redis (exec (LeaderboardService.getTopUsers 10) w)) !! "leaderboard:top10" = None.
Proof. vm_compute. auto 10. Qed.

(** C8 (the code at the failing input): the second request of a window
    rewrites the counter with a plain SET, which discards its time to
    live; after ten requests the counter stays at 10 for ever, and a
    request made 1000 seconds later is still denied. *)
Theorem rate_limit_window_never_elapses :
  keys (redis (run (firstn 1 ten_checks) initial))
    !! AuthService.rateLimitKey "alice" "score_update"
  = Some {| e_value := Str "1"; e_expire := Some 60 |}
  /\ keys (redis (run (firstn 2 ten_checks) initial))
       !! AuthService.rateLimitKey "alice" "score_update"
     = Some {| e_value := Str "2"; e_expire := None |}
  /\ result (AuthService.checkRateLimit "alice" "score_update")
       (run (ten_checks ++ [Tick 1000]) initial)
     = Returned {| AuthService.allowed := false; AuthService.remaining := Num 0 |}.
Proof. vm_compute. auto. Qed.

(** C1 (the code at the failing inputs): a request with a forged token
    is answered 422 and a request beyond the rate limit is answered 429,
    and for neither is an audit entry written: the audit log is empty
    after each. *)
Theorem rejected_requests_leave_no_audit_entry :
  let forged_post := postUserScore "alice"
                       {| scoreRoutes.actionType := "GAME_COMPLETE";
                          scoreRoutes.scoreIncrement := 100;
                          scoreRoutes.actionToken := forged |} Scenario.address "agent" in
  let limited := run ten_checks initial in
  let limited_post := postUserScore "alice" (body "n1" 100) Scenario.address "agent" in
  result forged_post initial
  = Returned (scoreRoutes.error_json 422 ErrorCodes.INVALID_ACTION_TOKEN
                "The provided action token is invalid or has already been used")
  /\ audit_log (db (exec forged_post initial)) = []
  /\ result limited_post limited
     = Returned (scoreRoutes.error_json 429 ErrorCodes.RATE_LIMIT_EXCEEDED
                   "Rate limit exceeded. Please try again later.")
  /\ audit_log (db (exec limited_post limited)) = [].
Proof. vm_compute. auto. Qed.

(** C3 (counterexample): alice has used her ten requests of the window;
    her next request carries a fresh valid token.  It is rejected as rate
    limited, and its token has been consumed: the nonce is marked used. *)
Lemma rate_limited_request_consumes_token :
  let w := run ten_checks initial in
  let post := postUserScore "alice" (body "n1" 100) Scenario.address "agent" in
  keys (redis w) !! AuthService.tokenKey "n1" = None
  /\ result post w
     = Returned (scoreRoutes.error_json 429 ErrorCodes.RATE_LIMIT_EXCEEDED
                   "Rate limit exceeded. Please try again later.")
  /\ keys (redis (exec post w)) !! AuthService.tokenKey "n1"
     = Some {| e_value := Str "used"; e_expire := Some 300 |}.
Proof. vm_compute. auto. Qed.

(** C5 (counterexample): the only actor of the leaderboard has rank 1, not
    0; and of two actors tied at 100, a has rank 2 although nobody has a
    strictly greater score. *)
Lemma rank_is_one_based_and_ties_count :
  let w1 := run [UpdateUserScore "a" (Num 100)] initial in
  let w2 := run [UpdateUserScore "a" (Num 100); UpdateUserScore "b" (Num 100)] initial in
  result (ScoreService.getUserRank "a") w1 = Returned (Some 1)
  /\ strictly_greater 100 (leaderboard w1) = []
  /\ result (ScoreService.getUserRank "a") w2 = Returned (Some 2)
  /\ LeaderboardService.pos_rank
       <$> (match result (LeaderboardService.getUserPosition "a") w2 with
            | Returned p => Some p
            | Thrown _ => None
            end) = Some (Some 2)
  /\ strictly_greater 100 (leaderboard w2) = [].
Proof. vm_compute. auto 10. Qed.

(** C7 (the code at the failing input): a request reaches the handler
    without a client address, so the handler passes on the text 'unknown'.
    Inside the transaction the write of the score is accepted and the
    audit insert is refused, for the column is INET; [logAuditEntry]
    swallows the error.  The transaction is aborted, so COMMIT rolls it
    back and reports no error.  Nothing is persisted, and yet the update
    answers success and gives the new score to the cache and to the sorted
    set. *)
Theorem unpersisted_update_reports_success :
  let post := postUserScore "alice" (body "n1" 100) (not_inet "") "agent" in
  let w := exec post initial in
  result post initial
  = Returned (scoreRoutes.success_json "alice" (Num 100) (Some 1) 100 (Num 9))
  /\ user_scores (db w) !! "alice" = None
  /\ audit_log (db w) = []
  /\ snapshot (db w) = None
  /\ keys (redis w) !! ScoreService.scoreKey "alice"
     = Some {| e_value := Str "100"; e_expire := Some 300 |}
  /\ leaderboard w = [("alice", 100)]
  /\ result (ScoreService.getCurrentScore "alice") (step (Tick 300) w) = Returned (Num 0).
Proof. vm_compute. auto 10. Qed.

End Evaluations.

(** ** Parts of the world a computation leaves alone *)

Section Preserves.

Context {X : Type} (f : World -> X).

Lemma exec_bind {A B} (m : M A) (k : A -> M B) w :
  exec (m ≫= k) w
  = match m w with
    | (Returned a, w') => exec (k a) w'
    | (Thrown _, w') => w'
    end.
Proof. unfold exec, mbind, M_bind. now destruct (m w) as [[a|e] w']. Qed.

Lemma exec_try_catch {A} (m : M A) (h : exn -> M A) w :
  exec (try_catch m h) w
  = match m w with
    | (Returned _, w') => w'
    | (Thrown e, w') => exec (h e) w'
    end.
Proof. unfold exec, try_catch. now destruct (m w) as [[a|e] w']. Qed.

Lemma preserves_ret {A} (a : A) : preserves f (mret a).
Proof. intros w. reflexivity. Qed.

Lemma preserves_throw {A} (e : exn) : preserves f (throw e : M A).
Proof. intros w. reflexivity. Qed.

Lemma preserves_gets {A} (g : World -> A) : preserves f (gets g).
Proof. intros w. reflexivity. Qed.

Lemma preserves_bind {A B} (m : M A) (k : A -> M B) :
  preserves f m -> (forall a, preserves f (k a)) -> preserves f (m ≫= k).
Proof.
  intros Hm Hk w. rewrite exec_bind. specialize (Hm w). unfold exec in Hm.
  destruct (m w) as [[a|e] w']; cbn in Hm; [now rewrite Hk | assumption].
Qed.

Lemma preserves_try_catch {A} (m : M A) (h : exn -> M A) :
  preserves f m -> (forall e, preserves f (h e)) -> preserves f (try_catch m h).
Proof.
  intros Hm Hh w. rewrite exec_try_catch. specialize (Hm w). unfold exec in Hm.
  destruct (m w) as [[a|e] w']; cbn in Hm; [assumption | now rewrite Hh].
Qed.

Lemma preserves_modify (g : World -> World) :
  (forall w, f (g w) = f w) -> preserves f (modify g).
Proof. intros Hg w. apply Hg. Qed.

Lemma preserves_ready : preserves f RedisClient.ready.
Proof. intros w. unfold exec, RedisClient.ready. now destruct (isConnected (redis w)). Qed.

Lemma preserves_ready_gets {A} (g : World -> A) :
  preserves f (RedisClient.ready ;; gets g).
Proof. apply preserves_bind; [apply preserves_ready | intros _; apply preserves_gets]. Qed.

Lemma preserves_zrevrange key start stop withScores :
  preserves f (RedisClient.zrevrange key start stop withScores).
Proof.
  unfold RedisClient.zrevrange. apply preserves_bind; [apply preserves_ready|intros _].
  destruct withScores; apply preserves_throw.
Qed.

Lemma preserves_jwt_verify token : preserves f (AuthService.jwt_verify token).
Proof.
  intros w. unfold exec, AuthService.jwt_verify.
  destruct (negb (jwt_signed token)); [reflexivity|].
  now destruct (jwt_exp token <=? clock w).
Qed.

(** The writes of Redis leave alone what does not look at what they write. *)
Lemma preserves_setex key seconds v :
  keys_blind f -> preserves f (RedisClient.setex key seconds v).
Proof.
  intros Hf. apply preserves_bind; [apply preserves_ready|intros _].
  apply preserves_modify. intros w. apply Hf.
Qed.

Lemma preserves_set key v : keys_blind f -> preserves f (RedisClient.set key v).
Proof.
  intros Hf. apply preserves_bind; [apply preserves_ready|intros _].
  apply preserves_modify. intros w. apply Hf.
Qed.

Lemma preserves_del key : keys_blind f -> preserves f (RedisClient.del key).
Proof.
  intros Hf. unfold RedisClient.del.
  apply preserves_bind; [apply preserves_ready|intros _].
  apply preserves_bind; [apply preserves_gets|intros n].
  apply preserves_bind; [|intros _; apply preserves_ret].
  apply preserves_modify. intros w. apply Hf.
Qed.

Lemma preserves_zadd key score member :
  zsets_blind f -> preserves f (RedisClient.zadd key score member).
Proof.
  intros Hf. unfold RedisClient.zadd.
  apply preserves_bind; [apply preserves_ready|intros _].
  destruct score; [|apply preserves_throw].
  apply preserves_bind; [apply preserves_gets|intros n].
  apply preserves_bind; [|intros _; apply preserves_ret].
  apply preserves_modify. intros w. apply Hf.
Qed.

(** The queries leave alone what does not look at the database. *)
Lemma preserves_query q : db_blind f -> preserves f (DatabaseConnection.query q).
Proof.
  intros Hf w. unfold exec, DatabaseConnection.query.
  destruct (faults (db w)) as [|[] fl]; cbn; try apply Hf;
    destruct (DatabaseConnection.execute q _) as [m|[rows d]]; cbn; apply Hf.
Qed.

End Preserves.

(** ** Ranks *)

Section Ranks.

Lemma run_ready_gets {A} (g : World -> A) w :
  isConnected (redis w) = true ->
  (RedisClient.ready ;; gets g) w = (Returned (g w), w).
Proof.
  intros Hc. unfold mbind, M_bind, RedisClient.ready, gets. now rewrite Hc.
Qed.

Lemma run_ready_gets_down {A} (g : World -> A) w :
  isConnected (redis w) = false ->
  (RedisClient.ready ;; gets g) w
  = (Thrown (Error "Redis client not initialized or not connected"), w).
Proof.
  intros Hc. unfold mbind, M_bind, RedisClient.ready, gets. now rewrite Hc.
Qed.

Lemma leaderboard_ok w : reachable w -> zset_ok (leaderboard w).
Proof.
  intros Hr. apply J_reachable in Hr. unfold leaderboard, RedisServer.zget.
  destruct (zsets (redis w) !! ScoreService.LEADERBOARD_KEY) as [l|] eqn:Hl; cbn.
  - eapply J_zsets; eauto.
  - split; constructor.
Qed.

Lemma zrevrank_reported w userId score :
  zset_ok (leaderboard w) -> In (userId, score) (leaderboard w) ->
  RedisServer.ZREVRANK ScoreService.LEADERBOARD_KEY userId (redis w)
  = Some (reported_rank userId score (leaderboard w) - 1).
Proof.
  intros Hok Hin. unfold RedisServer.ZREVRANK. fold (leaderboard w).
  rewrite (zindex_count _ _ _ Hok Hin), zprecedes_count. unfold reported_rank.
  f_equal. lia.
Qed.

(** C5 (amended): in every state the service can reach, for every actor of
    the leaderboard, [getUserRank] and the rank of [getUserPosition] are
    1-based: one more than the number of distinct other actors Redis
    places before it, which are the actors with a strictly greater score
    and the actors with the same score and a lexicographically greater
    id.  Each actor is in the sorted set once. *)
Theorem rank_is_one_plus_members_ahead (w : World) (userId : string) (score : Z) :
  reachable w -> isConnected (redis w) = true ->
  In (userId, score) (leaderboard w) ->
  List.NoDup (map fst (leaderboard w))
  /\ result (ScoreService.getUserRank userId) w
     = Returned (Some (reported_rank userId score (leaderboard w)))
  /\ exists p,
       result (LeaderboardService.getUserPosition userId) w = Returned p
       /\ LeaderboardService.pos_rank p
          = Some (reported_rank userId score (leaderboard w)).
Proof.
  intros Hr Hc Hin. pose proof (leaderboard_ok w Hr) as Hok.
  pose proof (zrevrank_reported w userId score Hok Hin) as Hrank.
  split; [apply Hok|]. split.
  - unfold result, ScoreService.getUserRank, RedisClient.zrank.
    unfold mbind at 1, M_bind at 1. rewrite run_ready_gets by assumption.
    rewrite Hrank. cbn. do 3 f_equal. lia.
  - unfold result, LeaderboardService.getUserPosition, RedisClient.zrank,
      RedisClient.zscore, RedisClient.zcard.
    unfold mbind at 1, M_bind at 1. rewrite run_ready_gets by assumption.
    unfold mbind at 1, M_bind at 1. rewrite run_ready_gets by assumption.
    unfold mbind at 1, M_bind at 1. rewrite run_ready_gets by assumption.
    eexists. split; [reflexivity|]. cbn [LeaderboardService.pos_rank].
    change LeaderboardService.LEADERBOARD_KEY with ScoreService.LEADERBOARD_KEY.
    rewrite Hrank. f_equal. lia.
Qed.

(** The theorem at a state with two tied actors. *)
Lemma rank_is_one_plus_members_ahead_witness :
  let w := run [UpdateUserScore "a" (Num 100); UpdateUserScore "b" (Num 100)] initial in
  result (ScoreService.getUserRank "a") w
  = Returned (Some (reported_rank "a" 100 (leaderboard w))).
Proof.
  intros w.
  refine (proj1 (proj2 (rank_is_one_plus_members_ahead w "a" 100 _ _ _))).
  - eexists. reflexivity.
  - reflexivity.
  - vm_compute. auto.
Defined.

End Ranks.

(** ** The token validator *)

Section Tokens.

Import AuthService.

Ltac unfold_validate :=
  unfold result, exec, validateActionToken, try_catch, jwt_verify, RedisClient.get,
    RedisClient.setex, RedisClient.ready, gets, modify, mbind, M_bind, mret, M_ret.

(** What a successful validation went through, and what it wrote. *)
Lemma validateActionToken_valid token userId w :
  result (validateActionToken token userId) w = Returned valid ->
  jwt_signed token = true
  /\ clock w < jwt_exp token
  /\ at_userId (jwt_payload token) = userId
  /\ isConnected (redis w) = true
  /\ rvalue_truthy (RedisServer.GET (clock w) (tokenKey (at_nonce (jwt_payload token)))
                      (redis w)) = false
  /\ includes validActionTypes (at_actionType (jwt_payload token)) = true
  /\ exec (validateActionToken token userId) w
     = with_redis (RedisServer.SETEX (clock w) (tokenKey (at_nonce (jwt_payload token)))
                     tokenExpiration (Str "used") (redis w)) w.
Proof.
  unfold_validate.
  destruct (jwt_signed token); cbn -[includes]; [|discriminate].
  destruct (jwt_exp token <=? clock w) eqn:Hexp; cbn -[includes]; [discriminate|].
  destruct (String.eqb (at_userId (jwt_payload token)) userId) eqn:Hu; cbn -[includes]; [|discriminate].
  destruct (isConnected (redis w)) eqn:Hc; cbn -[includes]; [|discriminate].
  destruct (rvalue_truthy _) eqn:Hused; cbn -[includes]; [discriminate|].
  destruct (includes validActionTypes _) eqn:Ha; rewrite ?Hc; cbn -[includes]; [|discriminate].
  intros _. apply Z.leb_gt in Hexp. apply String.eqb_eq in Hu. auto 10.
Qed.

(** A live entry that marks the nonce used makes the validation of a
    signed, unexpired token fail as already used, also when Redis is down. *)
Lemma validateActionToken_used token w e :
  jwt_signed token = true -> clock w < jwt_exp token ->
  keys (redis w) !! tokenKey (at_nonce (jwt_payload token)) = Some e ->
  e_value e = Str "used" -> entry_live (clock w) e = true ->
  result (validateActionToken token (at_userId (jwt_payload token))) w
  = Returned (invalid ErrorCodes.INVALID_ACTION_TOKEN).
Proof.
  intros Hs Hexp He Hv Hl. unfold_validate. rewrite Hs. cbn.
  apply Z.leb_gt in Hexp. rewrite Hexp. cbn. rewrite String.eqb_refl. cbn.
  destruct (isConnected (redis w)); cbn; [|reflexivity].
  unfold RedisServer.GET. rewrite He, Hl, Hv. reflexivity.
Qed.

(** Presented for another actor, a signed and unexpired token is refused
    as unauthorized before its nonce is looked at. *)
Lemma validateActionToken_other_actor token userId w :
  jwt_signed token = true -> clock w < jwt_exp token ->
  userId <> at_userId (jwt_payload token) ->
  result (validateActionToken token userId) w = Returned (invalid ErrorCodes.UNAUTHORIZED)
  /\ exec (validateActionToken token userId) w = w.
Proof.
  intros Hs Hexp Hu. unfold_validate. rewrite Hs. cbn.
  apply Z.leb_gt in Hexp. rewrite Hexp. cbn.
  destruct (String.eqb _ userId) eqn:E; [apply String.eqb_eq in E; congruence|].
  cbn. auto.
Qed.

(** After a successful validation the nonce's entry stays until it
    expires, whatever the service does in between. *)
Lemma used_nonce_persists token userId w events :
  reachable w ->
  result (validateActionToken token userId) w = Returned valid ->
  let w' := run events (exec (validateActionToken token userId) w) in
  clock w' < clock w + tokenExpiration ->
  keys (redis w') !! tokenKey (at_nonce (jwt_payload token))
  = Some {| e_value := Str "used"; e_expire := Some (clock w + tokenExpiration) |}.
Proof.
  intros Hr Hv w' Hclock.
  destruct (validateActionToken_valid _ _ _ Hv) as (_ & _ & _ & _ & _ & _ & Hw).
  assert (J (exec (validateActionToken token userId) w) w') as HJ.
  { apply J_run. eapply J_restart. apply keeps_exec; [apply keeps_validateActionToken|].
    now apply J_reachable. }
  destruct (J_tokens _ _ HJ (at_nonce (jwt_payload token))
              {| e_value := Str "used"; e_expire := Some (clock w + tokenExpiration) |})
    as [Hk|Hd].
  - rewrite Hw. cbn. apply lookup_insert_eq.
  - reflexivity.
  - exact Hk.
  - unfold entry_live in Hd. cbn in Hd. apply Z.ltb_ge in Hd. lia.
Qed.

(** C2 (amended): once a validation of a token has succeeded, every later
    validation of the same token within its validity window is rejected,
    whatever the service did in between: as already used
    (INVALID_ACTION_TOKEN) when it is presented for the token's actor, and
    as UNAUTHORIZED when it is presented for another actor.  The token's
    validity ends no later than five minutes after its first use, as for
    every token the service issued before that use. *)
Theorem consumed_token_is_rejected (w : World) (token : Jwt) (userId userId' : string)
    (events : list event) :
  reachable w ->
  jwt_exp token <= clock w + tokenExpiration ->
  result (validateActionToken token userId) w = Returned valid ->
  let w' := run events (exec (validateActionToken token userId) w) in
  clock w' < jwt_exp token ->
  result (validateActionToken token userId') w'
  = Returned (invalid (if String.eqb userId' userId
                       then ErrorCodes.INVALID_ACTION_TOKEN
                       else ErrorCodes.UNAUTHORIZED)).
Proof.
  intros Hr Hwin Hv w' Hexp.
  pose proof (used_nonce_persists token userId w events Hr Hv) as Hk.
  destruct (validateActionToken_valid _ _ _ Hv) as (Hs & _ & Hu & _).
  destruct (String.eqb userId' userId) eqn:E.
  - apply String.eqb_eq in E. subst userId'. rewrite <- Hu.
    eapply validateActionToken_used; eauto.
    + apply Hk. fold w'. lia.
    + reflexivity.
    + unfold entry_live. cbn. apply Z.ltb_lt. fold w'. lia.
  - apply validateActionToken_other_actor; auto.
    intros Heq. rewrite Hu in Heq. subst. now rewrite String.eqb_refl in E.
Qed.

(** The theorem at alice's token, replayed after a minute and a read. *)
Lemma consumed_token_is_rejected_witness :
  let token := Scenario.token "n1" "GAME_COMPLETE" in
  let w' := run [Tick 60; GetTopUsers 10]
              (exec (validateActionToken token "alice") initial) in
  result (validateActionToken token "alice") w'
  = Returned (invalid ErrorCodes.INVALID_ACTION_TOKEN).
Proof.
  intros token w'.
  refine (consumed_token_is_rejected initial token "alice" "alice"
            [Tick 60; GetTopUsers 10] _ _ _ _).
  - exists []. reflexivity.
  - vm_compute. discriminate.
  - reflexivity.
  - reflexivity.
Defined.

(** C2 (counterexample): alice's token is validated, then presented again
    for bob within its validity window: the second attempt is rejected as
    UNAUTHORIZED, not with the already-used reason. *)
Lemma replay_for_another_actor_is_unauthorized :
  let token := Scenario.token "n1" "GAME_COMPLETE" in
  let first := validateActionToken token "alice" in
  result first initial = Returned valid
  /\ result (validateActionToken token "bob") (exec first initial)
     = Returned (invalid ErrorCodes.UNAUTHORIZED)
  /\ ErrorCodes.UNAUTHORIZED <> ErrorCodes.INVALID_ACTION_TOKEN.
Proof. vm_compute. repeat split; discriminate. Qed.

End Tokens.

(** ** Scores *)

Section Scores.

Import ScoreService.

Lemma rows_keys_blind : keys_blind rows.
Proof. intros k w. reflexivity. Qed.

Lemma execute_keeps_rows q d :
  keeps_rows q ->
  match DatabaseConnection.execute q d with
  | inr (_, d') => user_scores d' = user_scores d
  | inl _ => True
  end.
Proof.
  intros Hq. unfold DatabaseConnection.execute.
  destruct (DatabaseConnection.in_failed_transaction d);
    destruct q as [| | |u n t|e|u]; cbn in Hq; try contradiction; try exact I;
    try reflexivity.
  destruct (DatabaseConnection.integer_in (Num _)) as [m|sc]; [exact I|].
  destruct (DatabaseConnection.integer_in (al_previousScore e)) as [m|ps]; [exact I|].
  destruct (DatabaseConnection.integer_in (al_newScore e)) as [m|ns]; [exact I|].
  destruct (DatabaseConnection.inet_in _) as [m|ip]; [exact I|].
  destruct (DatabaseConnection.varchar 255 _) as [m|id]; [exact I|].
  destruct (DatabaseConnection.varchar 100 _) as [m|ac]; [exact I|].
  reflexivity.
Qed.

Lemma preserves_rows_query q : keeps_rows q -> preserves rows (DatabaseConnection.query q).
Proof.
  intros Hq w. unfold exec, rows, DatabaseConnection.query.
  destruct (faults (db w)) as [|[] fl]; cbv zeta; try reflexivity;
    match goal with
    | |- context [DatabaseConnection.execute q ?d] =>
        pose proof (execute_keeps_rows q d Hq) as Hx;
        destruct (DatabaseConnection.execute q d) as [m|[r d']]; cbn in *; congruence
    end.
Qed.

Lemma preserves_rows_uuidv4 : preserves rows uuidv4.
Proof. intros w. reflexivity. Qed.

Lemma preserves_rows_logAuditEntry e : preserves rows (logAuditEntry e).
Proof.
  apply preserves_try_catch; [|intros _; apply preserves_ret].
  apply preserves_bind; [now apply preserves_rows_query | intros _; apply preserves_ret].
Qed.

Lemma preserves_rows_getCurrentScore u : preserves rows (getCurrentScore u).
Proof.
  apply preserves_bind; [apply preserves_ready_gets|intros [v|]]; [apply preserves_ret|].
  apply preserves_bind; [now apply preserves_rows_query|intros r].
  apply preserves_bind; [|intros _; apply preserves_ret].
  apply preserves_setex, rows_keys_blind.
Qed.

Lemma wp_bind_any {A B} (m : M A) (k : A -> M B) (Q : B -> World -> Prop) w :
  (forall a w', wp (k a) Q (fun _ _ => True) w') ->
  wp (m ≫= k) Q (fun _ _ => True) w.
Proof.
  intros Hk. apply wp_bind. unfold wp at 1. destruct (m w) as [[a|e] w']; auto.
Qed.

(** With an increment out of bounds, [updateScore] is its catch block. *)
Lemma updateScore_out_of_bounds request ip userAgent w :
  out_of_bounds (req_scoreIncrement request) ->
  updateScore request ip userAgent w
  = (id ← uuidv4 ;
     previousScore ← getCurrentScore (req_userId request) ;
     t ← Date_now ;
     logAuditEntry
       {| al_id := id; al_userId := req_userId request;
          al_actionType := req_actionType request;
          al_scoreChange := req_scoreIncrement request;
          al_previousScore := previousScore; al_newScore := Num 0;
          al_ipAddress := ip; al_userAgent := userAgent;
          al_timestamp := t; al_success := false;
          al_errorMessage := Some ErrorCodes.INVALID_SCORE_INCREMENT |} ;;
     newScore ← getCurrentScore (req_userId request) ;
     mret {| resp_success := false; resp_newScore := newScore;
             resp_newRank := None;
             resp_message := Some ErrorCodes.INVALID_SCORE_INCREMENT |}) w.
Proof.
  intros Hb. unfold updateScore, try_catch.
  assert ((req_scoreIncrement request <=? 0)
          || (MAX_SCORE_INCREMENT <? req_scoreIncrement request) = true) as ->.
  { apply orb_true_iff. rewrite Z.leb_le, Z.ltb_lt. exact Hb. }
  reflexivity.
Qed.

(** An increment out of bounds never reaches the score table. *)
Lemma updateScore_out_of_bounds_rejected request ip userAgent w :
  out_of_bounds (req_scoreIncrement request) ->
  (forall r, result (updateScore request ip userAgent) w = Returned r ->
     resp_success r = false
     /\ resp_message r = Some ErrorCodes.INVALID_SCORE_INCREMENT)
  /\ user_scores (db (exec (updateScore request ip userAgent) w)) = user_scores (db w)
  /\ zsets (redis (exec (updateScore request ip userAgent) w)) = zsets (redis w).
Proof.
  intros Hb. unfold result, exec.
  rewrite (updateScore_out_of_bounds request ip userAgent w Hb).
  match goal with |- context [fst (?m w)] => set (handler := m) end.
  split; [|split].
  - assert (wp handler (fun r _ => resp_success r = false
              /\ resp_message r = Some ErrorCodes.INVALID_SCORE_INCREMENT)
              (fun _ _ => True) w) as Hwp.
    { subst handler. repeat (apply wp_bind_any; intros ? ?). apply wp_ret. auto. }
    unfold wp in Hwp. destruct (handler w) as [[r|e] w']; cbn; intros r' Hr; [|discriminate].
    inversion Hr; subst. exact Hwp.
  - change (rows (exec handler w) = rows w). revert w. change (preserves rows handler).
    subst handler.
    apply preserves_bind; [apply preserves_rows_uuidv4|intros id].
    apply preserves_bind; [apply preserves_rows_getCurrentScore|intros p].
    apply preserves_bind; [apply preserves_gets|intros t].
    apply preserves_bind; [apply preserves_rows_logAuditEntry|intros _].
    apply preserves_bind; [apply preserves_rows_getCurrentScore|intros n].
    apply preserves_ret.
  - change ((fun w => zsets (redis w)) (exec handler w) = (fun w => zsets (redis w)) w).
    revert w. change (preserves (fun w => zsets (redis w)) handler). subst handler.
    assert (forall u, preserves (fun w => zsets (redis w)) (getCurrentScore u)) as Hg.
    { intros u.
      apply preserves_bind; [apply preserves_ready_gets|intros [v|]]; [apply preserves_ret|].
      apply preserves_bind; [apply preserves_query; intros d w; reflexivity|intros r].
      apply preserves_bind; [|intros _; apply preserves_ret].
      apply preserves_bind; [apply preserves_ready|intros _].
      apply preserves_modify. intros w. reflexivity. }
    apply preserves_bind; [intros w; reflexivity|intros id].
    apply preserves_bind; [apply Hg|intros p].
    apply preserves_bind; [apply preserves_gets|intros t].
    apply preserves_bind; [|intros _].
    { apply preserves_try_catch; [|intros _; apply preserves_ret].
      apply preserves_bind; [|intros _; apply preserves_ret].
      apply preserves_query. intros d w. reflexivity. }
    apply preserves_bind; [apply Hg|intros n].
    apply preserves_ret.
Qed.

(** C10: in every state the service can reach, every persisted score is a
    non-negative integer and every cached score reads as one; and an
    update whose increment is zero or negative is rejected before
    persistence: it never answers a success and leaves the score table as
    it was. *)
Theorem scores_stay_non_negative (w : World) :
  reachable w ->
  (forall u s, user_scores (db w) !! u = Some s -> 0 <= s)
  /\ (forall u v,
        RedisServer.GET (clock w) (scoreKey u) (redis w) = Some v ->
        exists z, 0 <= z /\ rvalue_parseInt v = Num z)
  /\ (forall request ip userAgent,
        req_scoreIncrement request <= 0 ->
        (forall r, result (updateScore request ip userAgent) w = Returned r ->
           resp_success r = false)
        /\ user_scores (db (exec (updateScore request ip userAgent) w))
           = user_scores (db w)).
Proof.
  intros Hr. pose proof (J_reachable w Hr) as HJ. split; [|split].
  - apply HJ.
  - intros u v Hget. unfold RedisServer.GET in Hget.
    destruct (keys (redis w) !! scoreKey u) as [e|] eqn:He; [|discriminate].
    destruct (entry_live (clock w) e); [|discriminate].
    destruct (J_cache _ _ HJ u e He) as (z & Hz & Hv).
    inversion Hget; subst. exists z. rewrite Hv. cbn. now rewrite parseInt_toString.
  - intros request ip userAgent Hneg.
    destruct (updateScore_out_of_bounds_rejected request ip userAgent w) as (H1 & H2 & _).
    + now left.
    + split; [|exact H2]. intros r Hres. now apply H1.
Qed.

(** The theorem at the state after alice scored 100 and a minute passed. *)
Lemma scores_stay_non_negative_witness :
  let w := run [PostUserScore "alice" (Scenario.body "n1" 100) Scenario.address "agent"; Tick 60]
             initial in
  user_scores (db w) !! "alice" = Some 100 /\ 0 <= 100.
Proof.
  intros w. split; [reflexivity|].
  refine (proj1 (scores_stay_non_negative w _) "alice" 100 _).
  - eexists. reflexivity.
  - reflexivity.
Defined.

End Scores.

(** ** The route handler *)

Section Handler.

Import AuthService scoreRoutes.

Lemma validateActionToken_returns token userId w :
  exists v, result (validateActionToken token userId) w = Returned v.
Proof.
  unfold result, validateActionToken, try_catch.
  match goal with |- context [fst (match ?m with _ => _ end)] => destruct m as [[v|e] w'] end.
  - eauto.
  - destruct e; cbn; eauto.
Qed.

Lemma preserves_validateActionToken {X} (f : World -> X) token userId :
  keys_blind f -> preserves f (validateActionToken token userId).
Proof.
  intros Hf. apply preserves_try_catch; [|intros []; apply preserves_ret].
  apply preserves_bind; [apply preserves_jwt_verify|intros decoded].
  destruct (negb _); [apply preserves_ret|].
  apply preserves_bind; [apply preserves_ready_gets|intros used].
  destruct (rvalue_truthy used); [apply preserves_ret|].
  apply preserves_bind; [now apply preserves_setex|intros _].
  destruct (negb _); apply preserves_ret.
Qed.

Lemma preserves_checkRateLimit {X} (f : World -> X) userId action :
  keys_blind f -> preserves f (checkRateLimit userId action).
Proof.
  intros Hf. apply preserves_bind; [apply preserves_ready_gets|intros current].
  cbv zeta. destruct (number_geb _ _); [apply preserves_ret|].
  apply preserves_bind; [|intros _; apply preserves_ret].
  destruct (number_eqb _ _); [now apply preserves_setex | now apply preserves_set].
Qed.

Lemma db_keys_blind : keys_blind db.
Proof. intros k w. reflexivity. Qed.

Lemma connection_keys_blind : keys_blind (fun w => isConnected (redis w)).
Proof. intros k w. reflexivity. Qed.

Lemma clock_keys_blind : keys_blind clock.
Proof. intros k w. reflexivity. Qed.

Lemma zsets_keys_blind : keys_blind (fun w => zsets (redis w)).
Proof. intros k w. reflexivity. Qed.

(** A write under one key leaves every other key alone. *)
Lemma preserves_other_key_setex key key' seconds v :
  key <> key' ->
  preserves (fun w => keys (redis w) !! key') (RedisClient.setex key seconds v).
Proof.
  intros Hne. apply preserves_bind; [apply preserves_ready|intros _].
  apply preserves_modify. intros w. cbn. now apply lookup_insert_ne.
Qed.

Lemma preserves_other_key_set key key' v :
  key <> key' -> preserves (fun w => keys (redis w) !! key') (RedisClient.set key v).
Proof.
  intros Hne. apply preserves_bind; [apply preserves_ready|intros _].
  apply preserves_modify. intros w. cbn. now apply lookup_insert_ne.
Qed.

Lemma keys_db_blind key : db_blind (fun w => keys (redis w) !! key).
Proof. intros d w. reflexivity. Qed.

(** The validator writes under the token's key only. *)
Lemma validateActionToken_other_keys token userId key :
  key <> tokenKey (at_nonce (jwt_payload token)) ->
  preserves (fun w => keys (redis w) !! key) (validateActionToken token userId).
Proof.
  intros Hne. apply preserves_try_catch; [|intros []; apply preserves_ret].
  unfold jwt_verify. intros w. rewrite exec_bind.
  destruct (negb (jwt_signed token)); [reflexivity|].
  destruct (jwt_exp token <=? clock w); [reflexivity|].
  revert w. change (preserves (fun w => keys (redis w) !! key)
    (if negb (String.eqb (at_userId (jwt_payload token)) userId)
     then mret (invalid ErrorCodes.UNAUTHORIZED)
     else
       tokenUsed ← RedisClient.get (tokenKey (at_nonce (jwt_payload token))) ;
       if rvalue_truthy tokenUsed then mret (invalid ErrorCodes.INVALID_ACTION_TOKEN)
       else
         RedisClient.setex (tokenKey (at_nonce (jwt_payload token))) tokenExpiration
           (Str "used") ;;
         if negb (includes validActionTypes (at_actionType (jwt_payload token)))
         then mret (invalid ErrorCodes.INVALID_ACTION_TOKEN)
         else mret valid)).
  destruct (negb _); [apply preserves_ret|].
  apply preserves_bind; [apply preserves_ready_gets|intros used].
  destruct (rvalue_truthy used); [apply preserves_ret|].
  apply preserves_bind; [apply preserves_other_key_setex; congruence|intros _].
  destruct (negb _); apply preserves_ret.
Qed.

(** A denied check writes nothing. *)
Lemma checkRateLimit_denied userId action w rl :
  result (checkRateLimit userId action) w = Returned rl -> allowed rl = false ->
  exec (checkRateLimit userId action) w = w
  /\ remaining rl = Num 0
  /\ number_geb (rate_count userId action w) (Num maxRequests) = true.
Proof.
  unfold result, exec, checkRateLimit, rate_count, RedisClient.get, RedisClient.setex,
    RedisClient.set, RedisClient.ready, gets, modify, mbind, M_bind, mret, M_ret.
  destruct (isConnected (redis w)) eqn:Hc; cbn; [|discriminate].
  destruct (RedisServer.GET _ _ _) as [v|]; cbn.
  - destruct (number_geb _ _) eqn:Hg; cbn.
    + intros [= <-] _. auto.
    + destruct (number_eqb _ _); cbn; rewrite Hc; cbn; intros [= <-]; discriminate.
  - rewrite Hc. cbn. intros [= <-]. discriminate.
Qed.

(** An allowed check stores the count it read plus one, under its own key. *)
Lemma checkRateLimit_allowed userId action w rl :
  result (checkRateLimit userId action) w = Returned rl -> allowed rl = true ->
  number_geb (rate_count userId action w) (Num maxRequests) = false
  /\ remaining rl
     = number_sub (Num maxRequests) (number_add (rate_count userId action w) (Num 1))
  /\ exists e,
       keys (redis (exec (checkRateLimit userId action) w)) !! rateLimitKey userId action
       = Some e
       /\ e_value e = Str (number_toString (number_add (rate_count userId action w) (Num 1)))
       /\ e_expire e = if number_eqb (rate_count userId action w) (Num 0)
                       then Some (clock w + 60) else None.
Proof.
  unfold result, exec, checkRateLimit, rate_count, RedisClient.get, RedisClient.setex,
    RedisClient.set, RedisClient.ready, gets, modify, mbind, M_bind, mret, M_ret.
  destruct (isConnected (redis w)) eqn:Hc; cbn; [|discriminate].
  destruct (RedisServer.GET _ _ _) as [v|]; cbn -[number_toString].
  - destruct (number_geb _ (Num maxRequests)) eqn:Hg; cbn -[number_toString].
    + intros [= <-]. discriminate.
    + destruct (number_eqb _ (Num 0)) eqn:He; cbn -[number_toString]; rewrite Hc;
        cbn -[number_toString]; intros [= <-] _;
        (split; [reflexivity|split; [reflexivity|]]);
        eexists; (split; [apply lookup_insert_eq|]); cbn -[number_toString]; auto.
  - rewrite Hc. cbn -[number_toString]. intros [= <-] _.
    split; [reflexivity|split; [reflexivity|]].
    eexists; (split; [apply lookup_insert_eq|]); cbn; auto.
Qed.

(** The handler after a rejected token: the validator's answer and world. *)
Lemma handler_token_rejected userId b ip userAgent w error :
  result (validateActionToken (actionToken b) userId) w = Returned (invalid error) ->
  updateUserScoreHandler userId b ip userAgent w
  = (Returned (error_json 422 error (getErrorMessage error)),
     exec (validateActionToken (actionToken b) userId) w).
Proof.
  unfold result, exec, updateUserScoreHandler, try_catch. unfold mbind at 1, M_bind at 1.
  destruct (validateActionToken (actionToken b) userId w) as [[v|e] w1]; cbn; [|discriminate].
  intros [= ->]. reflexivity.
Qed.

(** The handler after an accepted token and a denied rate check. *)
Lemma handler_rate_limited userId b ip userAgent w rl :
  result (validateActionToken (actionToken b) userId) w = Returned valid ->
  let w1 := exec (validateActionToken (actionToken b) userId) w in
  result (checkRateLimit userId "score_update") w1 = Returned rl ->
  allowed rl = false ->
  updateUserScoreHandler userId b ip userAgent w
  = (Returned (error_json 429 ErrorCodes.RATE_LIMIT_EXCEEDED
                 "Rate limit exceeded. Please try again later."),
     exec (checkRateLimit userId "score_update") w1).
Proof.
  unfold result, exec, updateUserScoreHandler, try_catch. unfold mbind at 1, M_bind at 1.
  destruct (validateActionToken (actionToken b) userId w) as [[v|e] w1]; cbn; [|discriminate].
  intros [= ->]. unfold mbind at 1, M_bind at 1.
  destruct (checkRateLimit userId "score_update" w1) as [[rl'|e] w2]; cbn; [|discriminate].
  intros [= ->] ->. reflexivity.
Qed.

(** The handler after both gates: what [updateScore] answers, rendered. *)
Lemma handler_updates userId b ip userAgent w rl :
  result (validateActionToken (actionToken b) userId) w = Returned valid ->
  let w1 := exec (validateActionToken (actionToken b) userId) w in
  result (checkRateLimit userId "score_update") w1 = Returned rl ->
  allowed rl = true ->
  let w2 := exec (checkRateLimit userId "score_update") w1 in
  let update := ScoreService.updateScore (handler_request userId b (clock w2))
                  (ip_or_unknown ip) (or_unknown userAgent) in
  updateUserScoreHandler userId b ip userAgent w
  = (match result update w2 with
     | Returned r =>
         if resp_success r then
           Returned (success_json userId (resp_newScore r) (resp_newRank r)
                       (scoreIncrement b) (remaining rl))
         else
           Returned (error_json 400 "SCORE_UPDATE_FAILED"
                       match resp_message r with
                       | Some EmptyString | None => "Failed to update score"
                       | Some m => m
                       end)
     | Thrown _ =>
         Returned (error_json 500 ErrorCodes.INTERNAL_ERROR "Internal server error")
     end,
     exec update w2).
Proof.
  unfold result, exec, updateUserScoreHandler, try_catch. unfold mbind at 1, M_bind at 1.
  destruct (validateActionToken (actionToken b) userId w) as [[v|e] w1]; cbn; [|discriminate].
  intros [= ->]. unfold mbind at 1, M_bind at 1.
  destruct (checkRateLimit userId "score_update" w1) as [[rl'|e] w2]; cbn; [|discriminate].
  intros [= ->] ->. cbn. unfold mbind at 1, M_bind at 1. cbn.
  unfold mbind at 1, M_bind at 1. unfold handler_request.
  destruct (ScoreService.updateScore _ _ _ w2) as [[r|e] w3]; cbn; [|reflexivity].
  destruct (resp_success r); reflexivity.
Qed.

End Handler.

(** ** The score update, step by step *)

Section Update.

Import ScoreService.

Lemma GET_SETEX_eq t key seconds v r :
  0 < seconds -> RedisServer.GET t key (RedisServer.SETEX t key seconds v r) = Some v.
Proof.
  intros Hs. unfold RedisServer.GET, RedisServer.SETEX. cbn. rewrite lookup_insert_eq.
  unfold entry_live. cbn. assert ((t <? t + seconds) = true) as -> by (apply Z.ltb_lt; lia).
  reflexivity.
Qed.

Lemma cached_score_reads w0 w u v :
  J w0 w -> RedisServer.GET (clock w) (scoreKey u) (redis w) = Some v ->
  exists z, 0 <= z /\ v = Str (Z_toString z).
Proof.
  intros HJ Hget. unfold RedisServer.GET in Hget.
  destruct (keys (redis w) !! scoreKey u) as [e|] eqn:He; [|discriminate].
  destruct (entry_live (clock w) e); [|discriminate].
  destruct (J_cache _ _ HJ u e He) as (z & Hz & Hv).
  inversion Hget; subst. eauto.
Qed.

(** The score [getCurrentScore] reads: the cached one, else the row, else 0. *)
Lemma current_score_exists w0 w u :
  J w0 w ->
  exists z, 0 <= z
    /\ match RedisServer.GET (clock w) (scoreKey u) (redis w) with
       | Some v => v = Str (Z_toString z)
       | None => z = match user_scores (db w) !! u with Some s => s | None => 0 end
       end.
Proof.
  intros HJ. destruct (RedisServer.GET _ _ _) as [v|] eqn:Hg.
  - destruct (cached_score_reads _ _ _ _ HJ Hg) as (z & Hz & ->). eauto.
  - destruct (user_scores (db w) !! u) as [s|] eqn:Hs.
    + exists s. split; [|reflexivity]. eapply J_scores; eauto.
    + exists 0. split; [lia|reflexivity].
Qed.

Ltac unfold_update :=
  unfold updateScore, getCurrentScore, logAuditEntry,
    updateScoreCache, updateLeaderboard, getUserRank,
    WebSocketManager.notifyUserScoreUpdate, WebSocketManager.broadcastLeaderboardUpdate,
    WebSocketManager.emit,
    RedisClient.get, RedisClient.setex, RedisClient.set, RedisClient.del, RedisClient.zadd,
    RedisClient.zrank, RedisClient.ready, DatabaseConnection.query, Date_now, uuidv4, skip,
    gets, modify, throw, try_catch, mbind, M_bind, mret, M_ret.

Ltac sym :=
  cbn -[RedisServer.GET Z_toString parseInt RedisServer.zget RedisServer.zinsert
        RedisServer.zremove RedisServer.zmember RedisServer.zindex shouldBroadcast
        DatabaseConnection.integer_in DatabaseConnection.varchar
        DatabaseConnection.inet_in].

Lemma current_score_reads w0 w u :
  J w0 w -> exists z, 0 <= z /\ current_score u w = Num z.
Proof.
  intros HJ. destruct (current_score_exists w0 w u HJ) as (z & Hz & Hcur).
  exists z. split; [assumption|]. unfold current_score.
  destruct (RedisServer.GET _ _ _) as [v|]; [|now subst].
  subst v. cbn. now apply parseInt_toString.
Qed.

Lemma in_bounds_test (i : Z) :
  ~ out_of_bounds i -> (i <=? 0) || (MAX_SCORE_INCREMENT <? i) = false.
Proof.
  intros Hb. apply orb_false_iff. rewrite Z.leb_gt, Z.ltb_ge. unfold out_of_bounds in Hb. lia.
Qed.

(** With Redis up, no fault pending, no transaction open and rows the
    schema accepts, an update within bounds succeeds: the new score is the
    score read plus the increment, and it is written to the table, the
    audit log, the cache and the sorted set. *)
Lemma updateScore_succeeds w0 w request ip userAgent z :
  J w0 w -> isConnected (redis w) = true -> faults (db w) = [] ->
  snapshot (db w) = None ->
  ~ out_of_bounds (req_scoreIncrement request) ->
  current_score (req_userId request) w = Num z ->
  schema_accepts request ip z ->
  let u := req_userId request in
  let w' := exec (updateScore request ip userAgent) w in
  exists r e,
    0 <= z
    /\ result (getCurrentScore u) w = Returned (Num z)
    /\ result (updateScore request ip userAgent) w = Returned r
    /\ resp_success r = true
    /\ resp_newScore r = Num (z + req_scoreIncrement request)
    /\ appended_audit w w' e
    /\ al_success e = true /\ al_errorMessage e = None
    /\ al_previousScore e = Num z /\ al_newScore e = Num (z + req_scoreIncrement request)
    /\ user_scores (db w') !! u = Some (z + req_scoreIncrement request)
    /\ RedisServer.GET (clock w') (scoreKey u) (redis w')
       = Some (Str (Z_toString (z + req_scoreIncrement request)))
    /\ In (u, z + req_scoreIncrement request) (leaderboard w')
    /\ isConnected (redis w') = true
    /\ faults (db w') = []
    /\ snapshot (db w') = None
    /\ clock w' = clock w.
Proof.
  intros HJ Hc Hf Hn Hb Hcur (Hip & Hlu & Hla & Hmax) u w'. subst u w'.
  destruct (current_score_reads _ _ (req_userId request) HJ) as (z' & Hz & Hcur').
  assert (z' = z) as -> by congruence. clear Hcur'.
  assert (1 <= req_scoreIncrement request <= 1000) as Hinc
    by (unfold out_of_bounds, MAX_SCORE_INCREMENT in Hb; lia).
  pose proof (integer_in_fits (z + req_scoreIncrement request)) as Hi1.
  pose proof (integer_in_fits (req_scoreIncrement request)) as Hi2.
  pose proof (integer_in_fits z) as Hi3.
  unfold DatabaseConnection.INTEGER_MIN, DatabaseConnection.INTEGER_MAX in *.
  specialize (Hi1 ltac:(lia)). specialize (Hi2 ltac:(lia)). specialize (Hi3 ltac:(lia)).
  pose proof (varchar_fits 255 _ Hlu) as Hv1. pose proof (varchar_fits 100 _ Hla) as Hv2.
  pose proof (inet_in_inet ip Hip) as Hin.
  unfold appended_audit, result, exec, leaderboard, current_score in *.
  destruct w as [t [c ks zs] [us al sn f ab] n ws se]. cbn in Hc, Hf, Hn, Hcur. subst c f sn.
  clear HJ. unfold_update. rewrite (in_bounds_test _ Hb). sym.
  destruct (RedisServer.GET t _ _) as [v|] eqn:Hg.
  - cbn [rvalue_parseInt] in Hcur.
    repeat (progress (sym; rewrite ?Hcur, ?Hi1, ?Hi2, ?Hi3, ?Hv1, ?Hv2, ?Hin)).
    destruct ws; [destruct (shouldBroadcast _ _)|]; sym;
      (eexists _, _; repeat apply conj; try reflexivity; try assumption;
       [ apply lookup_insert_eq
       | apply GET_SETEX_eq; lia
       | unfold RedisServer.zget; cbn; rewrite lookup_insert_eq; cbn;
         apply zinsert_In; now left ]).
  - assert (match match us !! req_userId request with Some s => [s] | None => [] end
            with [] => 0 | s :: _ => s end = z) as Hs
      by (destruct (us !! req_userId request); congruence).
    repeat (progress (sym; rewrite ?Hs, ?Hi1, ?Hi2, ?Hi3, ?Hv1, ?Hv2, ?Hin)).
    destruct ws; [destruct (shouldBroadcast _ _)|]; sym;
      (eexists _, _; repeat apply conj; try reflexivity; try assumption;
       [ apply lookup_insert_eq
       | apply GET_SETEX_eq; lia
       | unfold RedisServer.zget; cbn; rewrite lookup_insert_eq; cbn;
         apply zinsert_In; now left ]).
Qed.

End Update.

(** ** The pipeline: order of the checks, audit entries, failed persistence *)

Section Pipeline.

Import AuthService scoreRoutes.

Lemma checkRateLimit_returns userId action w :
  isConnected (redis w) = true ->
  exists rl, result (checkRateLimit userId action) w = Returned rl.
Proof.
  intros Hc.
  unfold result, checkRateLimit, RedisClient.get, RedisClient.setex,
    RedisClient.set, RedisClient.ready, gets, modify, mbind, M_bind, mret, M_ret.
  rewrite Hc. cbn. destruct (number_geb _ _); cbn; [eauto|].
  destruct (number_eqb _ _); cbn; rewrite Hc; cbn; eauto.
Qed.

Lemma checkRateLimit_other_keys userId action key :
  key <> rateLimitKey userId action ->
  preserves (fun w => keys (redis w) !! key) (checkRateLimit userId action).
Proof.
  intros Hne. apply preserves_bind; [apply preserves_ready_gets|intros current].
  cbv zeta. destruct (number_geb _ _); [apply preserves_ret|].
  apply preserves_bind; [|intros _; apply preserves_ret].
  destruct (number_eqb _ _);
    [apply preserves_other_key_setex | apply preserves_other_key_set]; congruence.
Qed.

Lemma getCurrentScore_other_keys u key :
  key <> ScoreService.scoreKey u ->
  preserves (fun w => keys (redis w) !! key) (ScoreService.getCurrentScore u).
Proof.
  intros Hne. apply preserves_bind; [apply preserves_ready_gets|intros [v|]];
    [apply preserves_ret|].
  apply preserves_bind; [apply preserves_query, keys_db_blind|intros r].
  apply preserves_bind; [|intros _; apply preserves_ret].
  apply preserves_other_key_setex. congruence.
Qed.

(** The handler when the rate check itself throws. *)
Lemma handler_rate_check_throws userId b ip userAgent w e :
  result (validateActionToken (actionToken b) userId) w = Returned valid ->
  result (checkRateLimit userId "score_update")
    (exec (validateActionToken (actionToken b) userId) w) = Thrown e ->
  result (updateUserScoreHandler userId b ip userAgent) w
  = Returned (error_json 500 ErrorCodes.INTERNAL_ERROR "Internal server error").
Proof.
  unfold result, exec, updateUserScoreHandler, try_catch. unfold mbind at 1, M_bind at 1.
  destruct (validateActionToken (actionToken b) userId w) as [[v|e'] w1]; cbn; [|discriminate].
  intros [= ->]. unfold mbind at 1, M_bind at 1.
  destruct (checkRateLimit userId "score_update" w1) as [[rl'|e''] w2]; cbn; [discriminate|].
  reflexivity.
Qed.

(** The handler checks the token first and the rate limiter second.  A
    rejected token costs no rate-limit count and never reaches the
    database.  An accepted token is marked used at once; if the rate
    limiter then denies, the request is answered 429 with its token
    consumed; if it allows, the request goes on to [updateScore]. *)
Lemma handler_order
    (w : World) (userId : string) (b : body) (ip : ip_text) (userAgent : string) :
  let validate := validateActionToken (actionToken b) userId in
  let check := checkRateLimit userId "score_update" in
  let handler := updateUserScoreHandler userId b ip userAgent in
  let nonceKey := tokenKey (at_nonce (jwt_payload (actionToken b))) in
  let countKey := rateLimitKey userId "score_update" in
  let w1 := exec validate w in
  let w2 := exec check w1 in
  match result validate w with
  | Returned (invalid error) =>
      result handler w = Returned (error_json 422 error (getErrorMessage error))
      /\ exec handler w = w1
      /\ keys (redis w1) !! countKey = keys (redis w) !! countKey
      /\ db w1 = db w
  | Returned valid =>
      keys (redis w1) !! nonceKey = Some (used_at (clock w))
      /\ match result check w1 with
         | Returned rl =>
             if allowed rl then
               exec handler w
               = exec (ScoreService.updateScore (handler_request userId b (clock w2))
                         (ip_or_unknown ip) (or_unknown userAgent)) w2
             else
               result handler w
               = Returned (error_json 429 ErrorCodes.RATE_LIMIT_EXCEEDED
                             "Rate limit exceeded. Please try again later.")
               /\ exec handler w = w1
               /\ db w1 = db w
         | Thrown _ =>
             result handler w
             = Returned (error_json 500 ErrorCodes.INTERNAL_ERROR "Internal server error")
         end
  | Thrown _ => False
  end.
Proof.
  intros validate check handler nonceKey countKey w1 w2.
  destruct (validateActionToken_returns (actionToken b) userId w) as [v Hv].
  fold validate in Hv. rewrite Hv.
  assert (db w1 = db w) as Hdb1
    by apply (preserves_validateActionToken db _ _ db_keys_blind w).
  destruct v as [|error].
  - (* the token is accepted *)
    destruct (validateActionToken_valid _ _ _ Hv) as (_ & _ & _ & _ & _ & _ & Hw1).
    fold validate w1 in Hw1.
    assert (keys (redis w1) !! nonceKey = Some (used_at (clock w))) as Hnonce
      by (rewrite Hw1; cbn; apply lookup_insert_eq).
    split; [exact Hnonce|].
    destruct (result check w1) as [rl|e] eqn:Hrl.
    + destruct (allowed rl) eqn:Hal.
      * pose proof (handler_updates userId b ip userAgent w rl Hv Hrl Hal) as Hh.
        cbv zeta in Hh. fold check w1 w2 handler in Hh.
        unfold exec at 1. now rewrite Hh.
      * pose proof (handler_rate_limited userId b ip userAgent w rl Hv Hrl Hal) as Hh.
        cbv zeta in Hh. fold check w1 handler in Hh.
        destruct (checkRateLimit_denied _ _ _ _ Hrl Hal) as (Hsame & _).
        assert (handler w
                = (Returned (error_json 429 ErrorCodes.RATE_LIMIT_EXCEEDED
                               "Rate limit exceeded. Please try again later."), w1)) as Hh'
          by (etransitivity; [exact Hh | f_equal; exact Hsame]).
        unfold result, exec. rewrite Hh'. cbn. auto.
    + exact (handler_rate_check_throws userId b ip userAgent w e Hv Hrl).
  - (* the token is rejected *)
    pose proof (handler_token_rejected userId b ip userAgent w error Hv) as Hh.
    fold validate w1 handler in Hh.
    unfold result, exec. rewrite Hh. cbn. repeat apply conj; try reflexivity.
    + apply (validateActionToken_other_keys (actionToken b) userId countKey); discriminate.
    + exact Hdb1.
Qed.

End Pipeline.

(** * Further properties of the services *)

(** ** AuthService *)

Section AuthExtras.

Import AuthService.

Ltac unfold_auth :=
  unfold result, exec, validateActionToken, checkRateLimit, try_catch, jwt_verify,
    RedisClient.get, RedisClient.setex, RedisClient.set, RedisClient.ready, gets, modify,
    mbind, M_bind, mret, M_ret.

(** X1: [validateActionToken] never throws: every failure inside it (a
    forged or malformed token, an expired one, Redis down) is answered as a
    rejection, and the only reasons are UNAUTHORIZED, INVALID_ACTION_TOKEN
    and EXPIRED_TOKEN. *)
Theorem validateActionToken_always_answers (token : Jwt) (userId : string) (w : World) :
  result (validateActionToken token userId) w = Returned valid
  \/ result (validateActionToken token userId) w
     = Returned (invalid ErrorCodes.UNAUTHORIZED)
  \/ result (validateActionToken token userId) w
     = Returned (invalid ErrorCodes.INVALID_ACTION_TOKEN)
  \/ result (validateActionToken token userId) w
     = Returned (invalid ErrorCodes.EXPIRED_TOKEN).
Proof.
  unfold_auth.
  destruct (jwt_signed token); cbn -[includes]; [|auto].
  destruct (jwt_exp token <=? clock w); cbn -[includes]; [auto|].
  destruct (String.eqb _ userId); cbn -[includes]; [|auto].
  destruct (isConnected (redis w)) eqn:Hc; cbn -[includes]; [|auto].
  destruct (rvalue_truthy _); cbn -[includes]; [auto|].
  rewrite Hc. cbn -[includes].
  destruct (includes _ _); cbn; auto.
Qed.

(** X2: a rejection of a token whose action type is one of the five known
    types writes nothing: the world after the call is the world before it,
    whatever the reason of the rejection. *)
Theorem rejection_of_known_action_writes_nothing
    (token : Jwt) (userId : string) (w : World) (error : string) :
  includes validActionTypes (at_actionType (jwt_payload token)) = true ->
  result (validateActionToken token userId) w = Returned (invalid error) ->
  exec (validateActionToken token userId) w = w.
Proof.
  intros Ha. unfold_auth.
  destruct (jwt_signed token); cbn -[includes]; [|reflexivity].
  destruct (jwt_exp token <=? clock w); cbn -[includes]; [reflexivity|].
  destruct (String.eqb _ userId); cbn -[includes]; [|reflexivity].
  destruct (isConnected (redis w)) eqn:Hc; cbn -[includes]; [|reflexivity].
  destruct (rvalue_truthy _); cbn -[includes]; [reflexivity|].
  rewrite Hc, Ha. cbn. discriminate.
Qed.

(** The theorem at a forged token. *)
Lemma rejection_of_known_action_writes_nothing_witness :
  exec (validateActionToken Scenario.forged "alice") initial = initial.
Proof.
  refine (rejection_of_known_action_writes_nothing Scenario.forged "alice" initial
            ErrorCodes.INVALID_ACTION_TOKEN _ _); reflexivity.
Defined.

(** X3: a token the service issued at time [t] for a known action type is
    accepted when it is presented for its user before [t + 300] with Redis
    up and its nonce unused, and the nonce is then marked used for 300
    seconds; from [t + 300] on it is rejected as expired and nothing is
    written. *)
Theorem issued_token_accepted_within_five_minutes
    (userId actionType nonce : string) (t : Z) (w : World) :
  let token := generateActionToken userId actionType nonce t in
  includes validActionTypes actionType = true ->
  isConnected (redis w) = true ->
  rvalue_truthy (RedisServer.GET (clock w) (tokenKey nonce) (redis w)) = false ->
  (clock w < t + tokenExpiration ->
     result (validateActionToken token userId) w = Returned valid
     /\ keys (redis (exec (validateActionToken token userId) w)) !! tokenKey nonce
        = Some (used_at (clock w)))
  /\ (t + tokenExpiration <= clock w ->
        result (validateActionToken token userId) w
        = Returned (invalid ErrorCodes.EXPIRED_TOKEN)
        /\ exec (validateActionToken token userId) w = w).
Proof.
  intros token Ha Hc Hu. subst token. split; intros Ht; unfold_auth; cbn -[includes].
  - assert ((t + tokenExpiration <=? clock w) = false) as -> by (apply Z.leb_gt; lia).
    cbn -[includes]. rewrite String.eqb_refl. cbn -[includes]. rewrite Hc. cbn -[includes].
    rewrite Hu. cbn -[includes]. rewrite Hc, Ha. cbn.
    split; [reflexivity | apply lookup_insert_eq].
  - assert ((t + tokenExpiration <=? clock w) = true) as -> by (apply Z.leb_le; lia).
    cbn. auto.
Qed.

(** The theorem at alice's token, presented at start-up. *)
Lemma issued_token_accepted_within_five_minutes_witness :
  result (validateActionToken (Scenario.token "n1" "GAME_COMPLETE") "alice") initial
  = Returned valid.
Proof.
  refine (proj1 (proj1 (issued_token_accepted_within_five_minutes
                          "alice" "GAME_COMPLETE" "n1" 0 initial _ _ _) _));
    reflexivity.
Defined.

(** X4: with Redis down, a correctly signed and unexpired token presented
    for its own user is rejected as INVALID_ACTION_TOKEN, the same answer as
    for a replay, and nothing is written. *)
Theorem validateActionToken_with_redis_down (token : Jwt) (w : World) :
  isConnected (redis w) = false -> jwt_signed token = true -> clock w < jwt_exp token ->
  result (validateActionToken token (at_userId (jwt_payload token))) w
  = Returned (invalid ErrorCodes.INVALID_ACTION_TOKEN)
  /\ exec (validateActionToken token (at_userId (jwt_payload token))) w = w.
Proof.
  intros Hc Hs He. unfold_auth. rewrite Hs. cbn.
  apply Z.leb_gt in He. rewrite He. cbn. rewrite String.eqb_refl. cbn. rewrite Hc. cbn. auto.
Qed.

(** The theorem at alice's fresh token after the connection is lost. *)
Lemma validateActionToken_with_redis_down_witness :
  result (validateActionToken (Scenario.token "n1" "GAME_COMPLETE") "alice")
    (step (RedisConnection false) initial)
  = Returned (invalid ErrorCodes.INVALID_ACTION_TOKEN).
Proof.
  refine (proj1 (validateActionToken_with_redis_down (Scenario.token "n1" "GAME_COMPLETE")
                   (step (RedisConnection false) initial) _ _ _)); reflexivity.
Defined.

(** X5: the token validator and the rate limiter work on Redis keys only:
    neither changes the database, the sorted sets or the clock, and the
    validator leaves every key but the nonce's as it was. *)
Theorem gates_touch_redis_keys_only (token : Jwt) (userId action : string) (w : World) :
  let w1 := exec (validateActionToken token userId) w in
  let w2 := exec (checkRateLimit userId action) w in
  db w1 = db w /\ zsets (redis w1) = zsets (redis w) /\ clock w1 = clock w
  /\ (forall key, key <> tokenKey (at_nonce (jwt_payload token)) ->
        keys (redis w1) !! key = keys (redis w) !! key)
  /\ db w2 = db w /\ zsets (redis w2) = zsets (redis w) /\ clock w2 = clock w
  /\ (forall key, key <> rateLimitKey userId action ->
        keys (redis w2) !! key = keys (redis w) !! key).
Proof.
  intros w1 w2. subst w1 w2. repeat apply conj.
  - apply (preserves_validateActionToken db _ _ db_keys_blind).
  - apply (preserves_validateActionToken (fun w => zsets (redis w)) _ _ zsets_keys_blind).
  - apply (preserves_validateActionToken clock _ _ clock_keys_blind).
  - intros key Hk. now apply (validateActionToken_other_keys token userId key).
  - apply (preserves_checkRateLimit db _ _ db_keys_blind).
  - apply (preserves_checkRateLimit (fun w => zsets (redis w)) _ _ zsets_keys_blind).
  - apply (preserves_checkRateLimit clock _ _ clock_keys_blind).
  - intros key Hk. now apply (checkRateLimit_other_keys userId action key).
Qed.

(** The two branches of [checkRateLimit] on the count it reads. *)
Lemma checkRateLimit_outcome (userId action : string) (w : World) :
  isConnected (redis w) = true ->
  let count := rate_count userId action w in
  let w' := exec (checkRateLimit userId action) w in
  if number_geb count (Num maxRequests) then
    result (checkRateLimit userId action) w
    = Returned {| allowed := false; remaining := Num 0 |}
    /\ w' = w
  else
    result (checkRateLimit userId action) w
    = Returned {| allowed := true;
                  remaining := number_sub (Num maxRequests) (number_add count (Num 1)) |}
    /\ keys (redis w') !! rateLimitKey userId action
       = Some {| e_value := Str (number_toString (number_add count (Num 1)));
                 e_expire := if number_eqb count (Num 0)
                             then Some (clock w + 60) else None |}.
Proof.
  intros Hc count w'. subst count w'. unfold rate_count. unfold_auth.
  rewrite Hc. cbn -[number_toString].
  destruct (RedisServer.GET _ _ _) as [v|]; cbn -[number_toString].
  - destruct (number_geb _ (Num maxRequests)); cbn -[number_toString]; [auto|].
    destruct (number_eqb _ (Num 0)); cbn -[number_toString]; rewrite Hc;
      cbn -[number_toString]; (split; [reflexivity | apply lookup_insert_eq]).
  - rewrite Hc. cbn. split; [reflexivity | apply lookup_insert_eq].
Qed.

(** X6: with Redis up, [checkRateLimit] reads the count under the user's
    key (0 when the key is absent or expired).  At 10 or more it denies
    with remaining 0 and writes nothing.  Below 10 it allows, answers
    [10 - (count + 1)] as remaining and stores [count + 1]; the stored key
    gets a time to live of 60 seconds only when the count read was 0. *)
Theorem checkRateLimit_counts (userId action : string) (w : World) :
  isConnected (redis w) = true ->
  let count := rate_count userId action w in
  let w' := exec (checkRateLimit userId action) w in
  if number_geb count (Num maxRequests) then
    result (checkRateLimit userId action) w
    = Returned {| allowed := false; remaining := Num 0 |}
    /\ w' = w
  else
    result (checkRateLimit userId action) w
    = Returned {| allowed := true;
                  remaining := number_sub (Num maxRequests) (number_add count (Num 1)) |}
    /\ keys (redis w') !! rateLimitKey userId action
       = Some {| e_value := Str (number_toString (number_add count (Num 1)));
                 e_expire := if number_eqb count (Num 0)
                             then Some (clock w + 60) else None |}.
Proof.
  exact (checkRateLimit_outcome userId action w).
Qed.

(** The theorem at alice's first request. *)
Lemma checkRateLimit_counts_witness :
  result (checkRateLimit "alice" "score_update") initial
  = Returned {| allowed := true; remaining := Num 9 |}.
Proof.
  refine (proj1 (checkRateLimit_counts "alice" "score_update" initial _)). reflexivity.
Defined.

End AuthExtras.

Section RateExtras.

Import AuthService.

Lemma Z_toString_truthy (z : Z) : 0 <= z -> truthy (Some (Z_toString z)) = true.
Proof.
  intros Hz. pose proof (parseInt_toString z Hz) as Hp.
  destruct (Z_toString z); [discriminate|reflexivity].
Qed.

(** After an allowed check that read the count [j], the count reads [j + 1]. *)
Lemma rate_count_after_allowed userId action w j :
  isConnected (redis w) = true -> rate_count userId action w = Num j -> 0 <= j ->
  j < maxRequests ->
  let w' := exec (checkRateLimit userId action) w in
  isConnected (redis w') = true
  /\ rate_count userId action w' = Num (j + 1)
  /\ result (checkRateLimit userId action) w
     = Returned {| allowed := true; remaining := Num (maxRequests - (j + 1)) |}.
Proof.
  intros Hc Hj H0 Hlt w'. subst w'.
  pose proof (checkRateLimit_outcome userId action w Hc) as Hspec. cbv zeta in Hspec.
  rewrite Hj in Hspec. cbn [number_geb number_add number_sub number_toString] in Hspec.
  assert ((maxRequests <=? j) = false) as Hge by (apply Z.leb_gt; lia).
  rewrite Hge in Hspec. destruct Hspec as [Hres Hkey].
  repeat apply conj.
  - rewrite <- Hc.
    apply (preserves_checkRateLimit (fun w => isConnected (redis w)) _ _ connection_keys_blind).
  - unfold rate_count, RedisServer.GET. rewrite Hkey. cbn [e_value e_expire].
    assert (clock (exec (checkRateLimit userId action) w) = clock w) as ->
      by apply (preserves_checkRateLimit clock _ _ clock_keys_blind).
    assert (entry_live (clock w)
              {| e_value := Str (Z_toString (j + 1));
                 e_expire := if number_eqb (Num j) (Num 0) then Some (clock w + 60) else None |}
            = true) as ->.
    { unfold entry_live. cbn. destruct (j =? 0); [apply Z.ltb_lt; lia | reflexivity]. }
    cbn [rvalue_truthy rvalue_parseInt].
    rewrite Z_toString_truthy by lia. apply parseInt_toString. lia.
  - exact Hres.
Qed.

Lemma rate_count_after_checks userId action (k : nat) : forall w j,
  isConnected (redis w) = true -> rate_count userId action w = Num j -> 0 <= j ->
  j + Z.of_nat k <= maxRequests ->
  let w' := run (repeat (CheckRateLimit userId action) k) w in
  isConnected (redis w') = true /\ rate_count userId action w' = Num (j + Z.of_nat k).
Proof.
  induction k as [|k IH]; intros w j Hc Hj H0 Hle w'; subst w'.
  - cbn. rewrite Z.add_0_r. auto.
  - change (run (repeat (CheckRateLimit userId action) (S k)) w)
      with (run (repeat (CheckRateLimit userId action) k)
              (exec (checkRateLimit userId action) w)).
    destruct (rate_count_after_allowed userId action w j Hc Hj H0) as (Hc' & Hj' & _); [lia|].
    destruct (IH _ (j + 1) Hc' Hj') as [Hc'' Hj'']; [lia|lia|].
    split; [exact Hc''|]. rewrite Hj''. f_equal. lia.
Qed.

(** X7: from a state where the user's count reads 0, with Redis up, the
    first ten checks made one after the other are allowed, the one after
    [k] earlier checks answering [9 - k] as remaining, and the eleventh is
    denied with remaining 0. *)
Theorem ten_requests_allowed_then_denied (userId action : string) (w : World) (k : nat) :
  isConnected (redis w) = true -> rate_count userId action w = Num 0 -> (k < 10)%nat ->
  result (checkRateLimit userId action) (run (repeat (CheckRateLimit userId action) k) w)
  = Returned {| allowed := true; remaining := Num (9 - Z.of_nat k) |}
  /\ result (checkRateLimit userId action)
       (run (repeat (CheckRateLimit userId action) 10) w)
     = Returned {| allowed := false; remaining := Num 0 |}.
Proof.
  intros Hc H0 Hk. split.
  - destruct (rate_count_after_checks userId action k w 0 Hc H0) as [Hc' Hj'];
      [lia | unfold maxRequests; lia |].
    destruct (rate_count_after_allowed userId action _ (Z.of_nat k) Hc' Hj') as (_ & _ & Hres);
      [lia | unfold maxRequests; lia |].
    rewrite Hres. do 3 f_equal. unfold maxRequests. lia.
  - destruct (rate_count_after_checks userId action 10 w 0 Hc H0) as [Hc' Hj'];
      [lia | unfold maxRequests; lia |].
    pose proof (checkRateLimit_outcome userId action _ Hc') as Hspec. cbv zeta in Hspec.
    rewrite Hj' in Hspec. cbn in Hspec. apply Hspec.
Qed.

(** The theorem at alice's fourth request. *)
Lemma ten_requests_allowed_then_denied_witness :
  result (checkRateLimit "alice" "score_update")
    (run (repeat (CheckRateLimit "alice" "score_update") 3) initial)
  = Returned {| allowed := true; remaining := Num 6 |}.
Proof.
  refine (proj1 (ten_requests_allowed_then_denied "alice" "score_update" initial 3 _ _ _));
    [reflexivity | reflexivity | lia].
Defined.

End RateExtras.

(** ** ScoreService *)

Section ScoreExtras.

Import ScoreService.

Ltac unfold_score :=
  unfold updateScore, getCurrentScore, logAuditEntry,
    RedisClient.get, RedisClient.setex, RedisClient.ready, DatabaseConnection.query,
    Date_now, uuidv4, skip, gets, modify, throw, try_catch, mbind, M_bind, mret, M_ret.

(** A read that finds the score in the cache. *)
Lemma getCurrentScore_hit u w v :
  isConnected (redis w) = true ->
  RedisServer.GET (clock w) (scoreKey u) (redis w) = Some v ->
  getCurrentScore u w = (Returned (rvalue_parseInt v), w).
Proof.
  intros Hc Hg. unfold_score. rewrite Hc, Hg. reflexivity.
Qed.

(** A read that misses the cache, with no fault pending and no aborted
    transaction open. *)
Lemma getCurrentScore_miss u w :
  isConnected (redis w) = true -> faults (db w) = [] ->
  DatabaseConnection.in_failed_transaction (db w) = false ->
  RedisServer.GET (clock w) (scoreKey u) (redis w) = None ->
  let s := match user_scores (db w) !! u with Some s => s | None => 0 end in
  getCurrentScore u w
  = (Returned (Num s),
     with_redis (RedisServer.SETEX (clock w) (scoreKey u) 300 (Str (Z_toString s)) (redis w))
       w).
Proof.
  intros Hc Hf Ha Hg s. subst s.
  destruct w as [t [c ks zs] [us al sn f ab] n ws se].
  unfold DatabaseConnection.in_failed_transaction in Ha. cbn in Hc, Hf, Hg, Ha. subst c f.
  unfold_score. cbn -[RedisServer.GET Z_toString]. rewrite Hg.
  unfold DatabaseConnection.execute, DatabaseConnection.in_failed_transaction.
  cbn -[RedisServer.GET Z_toString]. rewrite Ha.
  cbn -[RedisServer.GET Z_toString]. destruct (us !! u); reflexivity.
Qed.

(** X8: in every state the service can reach, with Redis up, no database
    fault pending and no transaction open, an update succeeds when its
    increment is within 1..1000 and its rows are rows the tables accept
    (the address is an INET text, the user id and the action type fit
    their columns, the new score fits INTEGER).  The new score, the score
    read plus the increment, is then the user's committed row of the
    table, the user's cached score and the user's score in the
    leaderboard's sorted set. *)
Theorem accepted_update_reaches_every_store
    (w : World) (request : ScoreUpdateRequest) (ip : ip_text) (userAgent : string)
    (z : Z) :
  reachable w -> isConnected (redis w) = true -> faults (db w) = [] ->
  snapshot (db w) = None ->
  ~ out_of_bounds (req_scoreIncrement request) ->
  current_score (req_userId request) w = Num z ->
  schema_accepts request ip z ->
  let u := req_userId request in
  let w' := exec (updateScore request ip userAgent) w in
  exists r,
    0 <= z
    /\ result (getCurrentScore u) w = Returned (Num z)
    /\ result (updateScore request ip userAgent) w = Returned r
    /\ resp_success r = true
    /\ resp_newScore r = Num (z + req_scoreIncrement request)
    /\ user_scores (db w') !! u = Some (z + req_scoreIncrement request)
    /\ snapshot (db w') = None
    /\ RedisServer.GET (clock w') (scoreKey u) (redis w')
       = Some (Str (Z_toString (z + req_scoreIncrement request)))
    /\ In (u, z + req_scoreIncrement request) (leaderboard w').
Proof.
  intros Hr Hc Hf Hn Hb Hcur Hs u w'.
  destruct (updateScore_succeeds initial w request ip userAgent z (J_reachable w Hr)
              Hc Hf Hn Hb Hcur Hs)
    as (r & e & Hz & Hread & Hres & Hok & Hnew & _ & _ & _ & _ & _ & Hrow & Hget & Hin
        & _ & _ & Hn' & _).
  exists r. auto 10.
Qed.

(** The theorem at alice's first update, by 50 points. *)
Lemma accepted_update_reaches_every_store_witness :
  exists r,
    0 <= 0
    /\ result (getCurrentScore "alice") initial = Returned (Num 0)
    /\ result (updateScore (Scenario.request 50) Scenario.address "agent") initial
       = Returned r
    /\ resp_success r = true
    /\ resp_newScore r = Num (0 + 50)
    /\ user_scores
         (db (exec (updateScore (Scenario.request 50) Scenario.address "agent") initial))
         !! "alice" = Some (0 + 50)
    /\ snapshot
         (db (exec (updateScore (Scenario.request 50) Scenario.address "agent") initial))
       = None
    /\ RedisServer.GET
         (clock (exec (updateScore (Scenario.request 50) Scenario.address "agent") initial))
         (scoreKey "alice")
         (redis (exec (updateScore (Scenario.request 50) Scenario.address "agent") initial))
       = Some (Str (Z_toString (0 + 50)))
    /\ In ("alice", 0 + 50)
         (leaderboard
            (exec (updateScore (Scenario.request 50) Scenario.address "agent") initial)).
Proof.
  refine (accepted_update_reaches_every_store initial (Scenario.request 50)
            Scenario.address "agent" 0 _ _ _ _ _ _ _).
  - exists []. reflexivity.
  - reflexivity.
  - reflexivity.
  - reflexivity.
  - unfold out_of_bounds, MAX_SCORE_INCREMENT. intros [H|H]; cbn in H; lia.
  - reflexivity.
  - unfold schema_accepts, DatabaseConnection.INTEGER_MAX. cbn. repeat split; lia.
Defined.

(** X9: under the conditions of an accepted update (Redis up, no fault
    pending, no transaction open, rows the tables accept), the score the
    update wrote is the score read back any number of seconds later: from
    the cache while the cached score is live, from the table once it has
    expired. *)
Theorem updated_score_is_read_back
    (w : World) (request : ScoreUpdateRequest) (ip : ip_text) (userAgent : string)
    (z : Z) (seconds : N) :
  reachable w -> isConnected (redis w) = true -> faults (db w) = [] ->
  snapshot (db w) = None ->
  ~ out_of_bounds (req_scoreIncrement request) ->
  current_score (req_userId request) w = Num z ->
  schema_accepts request ip z ->
  let u := req_userId request in
  let w' := exec (updateScore request ip userAgent) w in
  result (getCurrentScore u) w = Returned (Num z)
  /\ result (getCurrentScore u) (step (Tick seconds) w')
     = Returned (Num (z + req_scoreIncrement request)).
Proof.
  intros Hr Hc Hf Hn Hb Hcur Hs u w'.
  destruct (updateScore_succeeds initial w request ip userAgent z (J_reachable w Hr)
              Hc Hf Hn Hb Hcur Hs)
    as (r & e & Hz & Hread & _ & _ & _ & _ & _ & _ & _ & _ & Hrow & Hget & _
        & Hc' & Hf' & Hn' & _).
  fold u in Hread, Hrow, Hget. fold w' in Hrow, Hget, Hc', Hf', Hn'. clearbody w' u.
  split; [exact Hread|].
  assert (0 <= z + req_scoreIncrement request) as Hnew
    by (unfold out_of_bounds in Hb; lia).
  set (w2 := step (Tick seconds) w').
  assert (isConnected (redis w2) = true) as Hc2 by exact Hc'.
  assert (faults (db w2) = []) as Hf2 by exact Hf'.
  assert (DatabaseConnection.in_failed_transaction (db w2) = false) as Ha2.
  { unfold DatabaseConnection.in_failed_transaction. change (db w2) with (db w').
    now rewrite Hn'. }
  unfold result.
  destruct (RedisServer.GET (clock w2) (scoreKey u) (redis w2)) as [v|] eqn:Hg2.
  - rewrite (getCurrentScore_hit u w2 v Hc2 Hg2). cbn [fst].
    unfold RedisServer.GET in Hget, Hg2. change (redis w2) with (redis w') in Hg2.
    destruct (keys (redis w') !! scoreKey u) as [e0|]; [|discriminate].
    destruct (entry_live (clock w') e0); [|discriminate].
    destruct (entry_live (clock w2) e0); [|discriminate].
    assert (v = Str (Z_toString (z + req_scoreIncrement request))) as -> by congruence.
    cbn [rvalue_parseInt]. now rewrite parseInt_toString.
  - rewrite (getCurrentScore_miss u w2 Hc2 Hf2 Ha2 Hg2). cbn [fst].
    change (db w2) with (db w'). now rewrite Hrow.
Qed.

(** The theorem at alice's first update, read back ten minutes later. *)
Lemma updated_score_is_read_back_witness :
  result (getCurrentScore "alice") initial = Returned (Num 0)
  /\ result (getCurrentScore "alice")
       (step (Tick 600)
          (exec (updateScore (Scenario.request 50) Scenario.address "agent") initial))
     = Returned (Num (0 + 50)).
Proof.
  refine (updated_score_is_read_back initial (Scenario.request 50) Scenario.address
            "agent" 0 600 _ _ _ _ _ _ _).
  - exists []. reflexivity.
  - reflexivity.
  - reflexivity.
  - reflexivity.
  - unfold out_of_bounds, MAX_SCORE_INCREMENT. intros [H|H]; cbn in H; lia.
  - reflexivity.
  - unfold schema_accepts, DatabaseConnection.INTEGER_MAX. cbn. repeat split; lia.
Defined.

(** X10: with no aborted transaction open, a read that misses the cache
    answers the user's row, or 0 for a user without a row, and caches the
    answer for 300 seconds: a second
    read less than 300 seconds later gives the same answer without a query
    to the database, whatever the database would do with one, and changes
    nothing. *)
Theorem missed_score_is_cached_for_five_minutes
    (w : World) (u : string) (seconds : N) (f : list bool) :
  reachable w -> isConnected (redis w) = true -> faults (db w) = [] ->
  DatabaseConnection.in_failed_transaction (db w) = false ->
  cached u w = false -> Z.of_N seconds < 300 ->
  let z := match user_scores (db w) !! u with Some s => s | None => 0 end in
  let w2 := step (DatabaseFaults f) (step (Tick seconds) (exec (getCurrentScore u) w)) in
  result (getCurrentScore u) w = Returned (Num z)
  /\ result (getCurrentScore u) w2 = Returned (Num z)
  /\ exec (getCurrentScore u) w2 = w2.
Proof.
  intros Hr Hc Hf Ha Hm Hs z w2.
  assert (0 <= z) as Hz.
  { subst z. destruct (user_scores (db w) !! u) as [s|] eqn:Hrow; [|lia].
    exact (J_scores _ _ (J_reachable w Hr) u s Hrow). }
  unfold cached in Hm.
  destruct (RedisServer.GET (clock w) (scoreKey u) (redis w)) eqn:Hg; [discriminate|].
  pose proof (getCurrentScore_miss u w Hc Hf Ha Hg) as Hrun. cbv zeta in Hrun.
  fold z in Hrun.
  assert (isConnected (redis w2) = true) as Hc2.
  { subst w2. unfold exec. rewrite Hrun. exact Hc. }
  assert (RedisServer.GET (clock w2) (scoreKey u) (redis w2) = Some (Str (Z_toString z)))
    as Hg2.
  { subst w2. unfold exec. rewrite Hrun. cbn [snd step clock redis with_redis with_db].
    unfold RedisServer.GET, RedisServer.SETEX. cbn [keys with_keys].
    rewrite lookup_insert_eq. unfold entry_live. cbn [e_expire e_value].
    assert ((clock w + Z.of_N seconds <? clock w + 300) = true) as ->
      by (apply Z.ltb_lt; lia).
    reflexivity. }
  pose proof (getCurrentScore_hit u w2 _ Hc2 Hg2) as Hrun2.
  unfold result, exec. rewrite Hrun, Hrun2. cbn [fst snd rvalue_parseInt].
  rewrite parseInt_toString by exact Hz. auto.
Qed.

(** The theorem at a user without a row, read again after 299 seconds
    with the database failing. *)
Lemma missed_score_is_cached_for_five_minutes_witness :
  result (getCurrentScore "alice")
    (step (DatabaseFaults [true])
       (step (Tick 299) (exec (getCurrentScore "alice") initial)))
  = Returned (Num 0).
Proof.
  refine (proj1 (proj2 (missed_score_is_cached_for_five_minutes initial "alice" 299 [true]
                          _ _ _ _ _ _))).
  - exists []. reflexivity.
  - reflexivity.
  - reflexivity.
  - reflexivity.
  - reflexivity.
  - reflexivity.
Defined.

(** X11: with Redis down [updateScore] throws the wrapper's error, whether
    the increment is within bounds or not: the read of the score in its
    catch block throws in turn, so no failure response is built and no
    audit entry is written.  The database, Redis and the notifications
    are as before. *)
Theorem updateScore_with_redis_down
    (w : World) (request : ScoreUpdateRequest) (ip : ip_text) (userAgent : string) :
  isConnected (redis w) = false ->
  let w' := exec (updateScore request ip userAgent) w in
  result (updateScore request ip userAgent) w
  = Thrown (Error "Redis client not initialized or not connected")
  /\ db w' = db w /\ redis w' = redis w /\ sent w' = sent w.
Proof.
  intros Hc w'. subst w'. unfold result, exec.
  destruct w as [t [c ks zs] [us al sn f ab] n ws se]. cbn in Hc. subst c.
  unfold_score.
  destruct ((req_scoreIncrement request <=? 0)
            || (MAX_SCORE_INCREMENT <? req_scoreIncrement request)); cbn; auto.
Qed.

(** The theorem at alice's update after the connection is lost. *)
Lemma updateScore_with_redis_down_witness :
  result (updateScore (Scenario.request 50) Scenario.address "agent")
    (step (RedisConnection false) initial)
  = Thrown (Error "Redis client not initialized or not connected").
Proof.
  refine (proj1 (updateScore_with_redis_down (step (RedisConnection false) initial)
                   (Scenario.request 50) Scenario.address "agent" _)).
  reflexivity.
Defined.

End ScoreExtras.

(** ** LeaderboardService and the ranks *)

Section LeaderboardExtras.

Import LeaderboardService.

Lemma zindex_absent m l : RedisServer.zmember m l = false -> RedisServer.zindex m l = None.
Proof.
  induction l as [|x l IH]; cbn; [reflexivity|].
  destruct (String.eqb (fst x) m); cbn; [discriminate|]. intros H. now rewrite IH.
Qed.

Lemma zfind_absent m l :
  RedisServer.zmember m l = false -> List.find (fun e => String.eqb (fst e) m) l = None.
Proof.
  induction l as [|x l IH]; cbn; [reflexivity|].
  destruct (String.eqb (fst x) m); cbn; [discriminate|]. exact IH.
Qed.

Lemma zindex_bounds m l : forall i,
  RedisServer.zindex m l = Some i -> 0 <= i < Z.of_nat (length l).
Proof.
  induction l as [|x l IH]; intros i; cbn [RedisServer.zindex length]; [discriminate|].
  destruct (String.eqb (fst x) m); [intros [= <-]; lia|].
  destruct (RedisServer.zindex m l) as [j|]; cbn; [|discriminate].
  intros [= <-]. specialize (IH j eq_refl). lia.
Qed.

Lemma zindex_inj m m' l : forall i,
  RedisServer.zindex m l = Some i -> RedisServer.zindex m' l = Some i -> m = m'.
Proof.
  induction l as [|x l IH]; intros i; cbn [RedisServer.zindex]; [discriminate|].
  destruct (String.eqb (fst x) m) eqn:E1, (String.eqb (fst x) m') eqn:E2.
  - apply String.eqb_eq in E1, E2. congruence.
  - intros [= <-]. destruct (RedisServer.zindex m' l) as [j|] eqn:Hj; cbn; [|discriminate].
    intros [= Hs]. apply zindex_bounds in Hj. lia.
  - destruct (RedisServer.zindex m l) as [j|] eqn:Hj; cbn; [|discriminate].
    intros [= <-] [= Hs]. apply zindex_bounds in Hj. lia.
  - destruct (RedisServer.zindex m l) as [j|] eqn:Hj; cbn; [|discriminate].
    destruct (RedisServer.zindex m' l) as [j'|] eqn:Hj'; cbn; [|discriminate].
    intros [= <-] [= Hs]. apply (IH j); [reflexivity|]. f_equal. lia.
Qed.

Lemma zindex_present m l :
  In m (map fst l) -> exists i, RedisServer.zindex m l = Some i.
Proof.
  induction l as [|x l IH]; cbn [map In RedisServer.zindex]; [contradiction|].
  intros [Hx|Hin].
  - rewrite Hx, String.eqb_refl. eauto.
  - destruct (String.eqb (fst x) m); [eauto|].
    destruct (IH Hin) as [i ->]. cbn. eauto.
Qed.

Lemma zfind_zinsert m s l :
  ~ In m (map fst l) ->
  List.find (fun e => String.eqb (fst e) m) (RedisServer.zinsert (m, s) l) = Some (m, s).
Proof.
  induction l as [|x l IH]; cbn [RedisServer.zinsert map In]; intros Hn.
  - cbn. now rewrite String.eqb_refl.
  - destruct (RedisServer.zprecedes x (m, s)); cbn [List.find fst].
    + destruct (String.eqb (fst x) m) eqn:E; [apply String.eqb_eq in E; tauto|].
      apply IH. tauto.
    + now rewrite String.eqb_refl.
Qed.

Lemma getUserRank_run u w :
  isConnected (redis w) = true ->
  ScoreService.getUserRank u w
  = (Returned (match RedisServer.zindex u (leaderboard w) with
               | Some r => Some (r + 1)
               | None => None
               end), w).
Proof.
  intros Hc. unfold ScoreService.getUserRank, RedisClient.zrank.
  unfold mbind at 1, M_bind at 1. now rewrite run_ready_gets.
Qed.

Lemma getUserPosition_run u w :
  isConnected (redis w) = true ->
  getUserPosition u w
  = (Returned
       {| pos_rank := match RedisServer.zindex u (leaderboard w) with
                      | Some r => Some (r + 1)
                      | None => None
                      end;
          pos_score := match option_map snd
                                   (List.find (fun e => String.eqb (fst e) u)
                                      (leaderboard w)) with
                       | Some 0 | None => Num 0
                       | Some s => parseInt (Z_toString s)
                       end;
          pos_totalUsers := Z.of_nat (length (leaderboard w)) |}, w).
Proof.
  intros Hc. unfold getUserPosition, RedisClient.zrank, RedisClient.zscore, RedisClient.zcard.
  unfold mbind at 1, M_bind at 1. rewrite run_ready_gets by assumption.
  unfold mbind at 1, M_bind at 1. rewrite run_ready_gets by assumption.
  unfold mbind at 1, M_bind at 1. rewrite run_ready_gets by assumption.
  reflexivity.
Qed.

(** X12: a user who is not in the sorted set has no rank: [getUserRank]
    answers null, [getUserPosition] answers rank null and score 0 beside
    the number of members, and [getLeaderboardAroundUser] answers the empty
    list, for every range. *)
Theorem user_outside_leaderboard_has_no_rank (w : World) (u : string) (range : Z) :
  isConnected (redis w) = true ->
  RedisServer.zmember u (leaderboard w) = false ->
  result (ScoreService.getUserRank u) w = Returned None
  /\ result (getUserPosition u) w
     = Returned {| pos_rank := None; pos_score := Num 0;
                   pos_totalUsers := Z.of_nat (length (leaderboard w)) |}
  /\ result (getLeaderboardAroundUser u range) w = Returned [].
Proof.
  intros Hc Hm. unfold result. repeat apply conj.
  - rewrite getUserRank_run by assumption. now rewrite (zindex_absent _ _ Hm).
  - rewrite getUserPosition_run by assumption. rewrite (zindex_absent _ _ Hm).
    now rewrite (zfind_absent _ _ Hm).
  - unfold getLeaderboardAroundUser, RedisClient.zrank.
    unfold mbind at 1, M_bind at 1. rewrite run_ready_gets by assumption.
    change (RedisServer.ZREVRANK LEADERBOARD_KEY u (redis w))
      with (RedisServer.zindex u (leaderboard w)).
    now rewrite (zindex_absent _ _ Hm).
Qed.

(** The theorem at start-up, when the sorted set is empty. *)
Lemma user_outside_leaderboard_has_no_rank_witness :
  result (getUserPosition "alice") initial
  = Returned {| pos_rank := None; pos_score := Num 0; pos_totalUsers := 0 |}.
Proof.
  refine (proj1 (proj2 (user_outside_leaderboard_has_no_rank initial "alice" 5 _ _)));
    reflexivity.
Defined.

(** X13: a rank that [getUserRank] answers lies between 1 and the number of
    members of the sorted set, and no two users have the same rank. *)
Theorem ranks_are_distinct_places (w : World) (u v : string) (r : Z) :
  isConnected (redis w) = true ->
  result (ScoreService.getUserRank u) w = Returned (Some r) ->
  1 <= r <= Z.of_nat (length (leaderboard w))
  /\ (result (ScoreService.getUserRank v) w = Returned (Some r) -> u = v).
Proof.
  intros Hc. unfold result. rewrite !getUserRank_run by assumption. cbn [fst].
  destruct (RedisServer.zindex u (leaderboard w)) as [i|] eqn:Hi; [|discriminate].
  intros [= <-]. split.
  - apply zindex_bounds in Hi. lia.
  - destruct (RedisServer.zindex v (leaderboard w)) as [j|] eqn:Hj; [|discriminate].
    intros [= Hs]. apply (zindex_inj u v (leaderboard w) i); [assumption|].
    rewrite Hj. f_equal. lia.
Qed.

(** The theorem at a leaderboard whose only member is alice. *)
Lemma ranks_are_distinct_places_witness :
  1 <= 1 <= Z.of_nat (length (leaderboard (step (UpdateUserScore "alice" (Num 5)) initial))).
Proof.
  refine (proj1 (ranks_are_distinct_places
                   (step (UpdateUserScore "alice" (Num 5)) initial) "alice" "alice" 1 _ _));
    reflexivity.
Defined.

Lemma filter_length_le {A} (p q : A -> bool) (l : list A) :
  (forall y, In y l -> p y = true -> q y = true) ->
  (length (List.filter p l) <= length (List.filter q l))%nat.
Proof.
  induction l as [|a l IH]; intros H; [reflexivity|]. cbn [List.filter].
  assert (length (List.filter p l) <= length (List.filter q l))%nat as Hle
    by (apply IH; intros y Hy; apply H; now right).
  destruct (p a) eqn:Hp.
  - rewrite (H a (or_introl eq_refl) Hp). cbn. lia.
  - destruct (q a); cbn; lia.
Qed.

Lemma filter_length_lt {A} (p q : A -> bool) (l : list A) (x : A) :
  In x l -> p x = false -> q x = true ->
  (forall y, In y l -> p y = true -> q y = true) ->
  (length (List.filter p l) < length (List.filter q l))%nat.
Proof.
  induction l as [|a l IH]; intros Hin Hp Hq H; [contradiction|]. cbn [List.filter].
  assert (forall y, In y l -> p y = true -> q y = true) as H' by (intros y Hy; apply H; now right).
  destruct Hin as [->|Hin].
  - rewrite Hp, Hq. cbn. pose proof (filter_length_le p q l H'). lia.
  - specialize (IH Hin Hp Hq H'). destruct (p a) eqn:Hpa.
    + rewrite (H a (or_introl eq_refl) Hpa). cbn. lia.
    + destruct (q a); cbn; lia.
Qed.

(** X14: in every state the service can reach, of two members of the
    leaderboard the one with the strictly higher score has the strictly
    smaller rank. *)
Theorem higher_score_ranks_first (w : World) (u v : string) (su sv : Z) :
  reachable w -> isConnected (redis w) = true ->
  In (u, su) (leaderboard w) -> In (v, sv) (leaderboard w) -> sv < su ->
  exists ru rv,
    result (ScoreService.getUserRank u) w = Returned (Some ru)
    /\ result (ScoreService.getUserRank v) w = Returned (Some rv)
    /\ ru < rv.
Proof.
  intros Hr Hc Hu Hv Hlt. pose proof (leaderboard_ok w Hr) as Hok.
  unfold result. rewrite !getUserRank_run by assumption. cbn [fst].
  rewrite (zindex_count _ _ _ Hok Hu), (zindex_count _ _ _ Hok Hv).
  eexists _, _. split; [reflexivity|]. split; [reflexivity|].
  assert (RedisServer.zprecedes (u, su) (v, sv) = true) as Huv.
  { unfold RedisServer.zprecedes. cbn [fst snd].
    assert ((sv <? su) = true) as -> by (apply Z.ltb_lt; lia). reflexivity. }
  pose proof (filter_length_lt
                (fun e => RedisServer.zprecedes e (u, su))
                (fun e => RedisServer.zprecedes e (v, sv))
                (leaderboard w) (u, su) Hu) as Hlen.
  cbv beta in Hlen.
  assert (RedisServer.zprecedes (u, su) (u, su) = false) as Hirr.
  { destruct (RedisServer.zprecedes (u, su) (u, su)) eqn:E; [|reflexivity].
    now apply zprec_irrefl in E. }
  specialize (Hlen Hirr Huv).
  assert (forall y, In y (leaderboard w) ->
            RedisServer.zprecedes y (u, su) = true -> RedisServer.zprecedes y (v, sv) = true)
    as Himp by (intros y _ Hy; exact (zprec_trans _ _ _ Hy Huv)).
  specialize (Hlen Himp). lia.
Qed.

(** The theorem at two users of the sample data. *)
Lemma higher_score_ranks_first_witness :
  exists ru rv,
    result (ScoreService.getUserRank "user1") (run [InitializeSampleData] initial)
    = Returned (Some ru)
    /\ result (ScoreService.getUserRank "user7") (run [InitializeSampleData] initial)
       = Returned (Some rv)
    /\ ru < rv.
Proof.
  refine (higher_score_ranks_first (run [InitializeSampleData] initial)
            "user1" "user7" 1500 900 _ _ _ _ _).
  - exists [InitializeSampleData]. reflexivity.
  - vm_compute. reflexivity.
  - vm_compute. auto.
  - vm_compute. auto 10.
  - lia.
Defined.

Lemma updateUserScore_run u s w :
  isConnected (redis w) = true ->
  exec (updateUserScore u (Num s)) w
  = with_redis
      {| isConnected := true;
         keys := delete "leaderboard:top50"
                   (delete "leaderboard:top25"
                      (delete "leaderboard:top10" (keys (redis w))));
         zsets := <[LEADERBOARD_KEY :=
                      RedisServer.zinsert (u, s) (RedisServer.zremove u (leaderboard w))]>
                    (zsets (redis w)) |} w.
Proof.
  intros Hc. destruct w as [t [c ks zs] d n ws se]. cbn in Hc. subst c. reflexivity.
Qed.


(** X15: after [updateUserScore] sets a user's score to [s], not negative,
    [getUserPosition] answers that score for the user, with a rank between
    1 and the number of members. *)
Theorem updateUserScore_then_getUserPosition (w : World) (u : string) (s : Z) :
  isConnected (redis w) = true -> 0 <= s ->
  let w' := exec (updateUserScore u (Num s)) w in
  exists r,
    result (getUserPosition u) w'
    = Returned {| pos_rank := Some r; pos_score := Num s;
                  pos_totalUsers := Z.of_nat (length (leaderboard w')) |}
    /\ 1 <= r <= Z.of_nat (length (leaderboard w'))
    /\ In (u, s) (leaderboard w').
Proof.
  intros Hc Hs w'. subst w'. rewrite (updateUserScore_run u s w Hc).
  set (l := RedisServer.zinsert (u, s) (RedisServer.zremove u (leaderboard w))).
  set (w' := with_redis _ w).
  assert (leaderboard w' = l) as Hl.
  { unfold leaderboard, RedisServer.zget, w'. cbn. now rewrite lookup_insert_eq. }
  assert (In (u, s) l) as Hin by (apply zinsert_In; now left).
  destruct (zindex_present u l) as [i Hi].
  { apply List.in_map_iff. exists (u, s). auto. }
  exists (i + 1). unfold result. rewrite getUserPosition_run by reflexivity.
  rewrite Hl, Hi. cbn [fst]. repeat apply conj.
  - do 2 f_equal.
    unfold l. rewrite zfind_zinsert by apply zremove_absent. cbn [option_map snd].
    destruct s as [|p|p]; [reflexivity| |lia]. apply parseInt_toString. lia.
  - apply zindex_bounds in Hi. lia.
  - apply zindex_bounds in Hi. lia.
  - exact Hin.
Qed.

(** The theorem at alice set to 70 points at start-up. *)
Lemma updateUserScore_then_getUserPosition_witness :
  exists r,
    result (getUserPosition "alice") (exec (updateUserScore "alice" (Num 70)) initial)
    = Returned {| pos_rank := Some r; pos_score := Num 70;
                  pos_totalUsers :=
                    Z.of_nat (length (leaderboard
                                        (exec (updateUserScore "alice" (Num 70)) initial))) |}
    /\ 1 <= r <= Z.of_nat (length (leaderboard
                                     (exec (updateUserScore "alice" (Num 70)) initial)))
    /\ In ("alice", 70) (leaderboard (exec (updateUserScore "alice" (Num 70)) initial)).
Proof.
  refine (updateUserScore_then_getUserPosition initial "alice" 70 _ _); [reflexivity|lia].
Defined.



(** X17: [removeUser] deletes the user's cached score and leaves the user
    in the ranking: the sorted set and the database are as before, and
    [getUserPosition] answers for the user what it answered before. *)
Theorem removeUser_keeps_the_ranking (w : World) (u : string) :
  isConnected (redis w) = true ->
  let w' := exec (removeUser u) w in
  leaderboard w' = leaderboard w
  /\ db w' = db w
  /\ keys (redis w') !! ScoreService.scoreKey u = None
  /\ result (getUserPosition u) w' = result (getUserPosition u) w.
Proof.
  intros Hc w'.
  assert (w' = with_redis
                 (with_keys (delete "leaderboard:top50"
                               (delete "leaderboard:top25"
                                  (delete "leaderboard:top10"
                                     (delete (ScoreService.scoreKey u) (keys (redis w))))))
                    (redis w)) w) as ->.
  { subst w'. destruct w as [t [c ks zs] d n ws se]. cbn in Hc. subst c. reflexivity. }
  repeat apply conj; try reflexivity.
  - cbn [redis with_redis keys with_keys].
    rewrite !lookup_delete_ne by (unfold ScoreService.scoreKey; cbn; discriminate).
    apply lookup_delete_eq.
  - unfold result. rewrite !getUserPosition_run by assumption. reflexivity.
Qed.

(** The theorem at a member of the sample data. *)
Lemma removeUser_keeps_the_ranking_witness :
  leaderboard (exec (removeUser "user3") (step InitializeSampleData initial))
  = leaderboard (step InitializeSampleData initial).
Proof.
  refine (proj1 (removeUser_keeps_the_ranking (step InitializeSampleData initial) "user3" _)).
  vm_compute. reflexivity.
Defined.

End LeaderboardExtras.

(** ** The POST route *)

Section RouteExtras.

Import AuthService scoreRoutes.

Lemma handler_always_answers userId b ip userAgent w :
  exists r,
    result (updateUserScoreHandler userId b ip userAgent) w = Returned r
    /\ In (status r) [200; 400; 422; 429; 500].
Proof.
  unfold result, updateUserScoreHandler, try_catch. unfold mbind at 1, M_bind at 1.
  destruct (validateActionToken (actionToken b) userId w) as [[[|error]|e] w1]; cbn;
    [| eexists; split; [reflexivity|cbn; auto 10] ..].
  unfold mbind at 1, M_bind at 1.
  destruct (checkRateLimit userId "score_update" w1) as [[rl|e] w2]; cbn;
    [| eexists; split; [reflexivity|cbn; auto 10]].
  destruct (allowed rl); cbn; [| eexists; split; [reflexivity|cbn; auto 10]].
  unfold mbind at 1, M_bind at 1. cbn. unfold mbind at 1, M_bind at 1.
  destruct (ScoreService.updateScore _ _ _ w2) as [[r|e] w3]; cbn;
    [| eexists; split; [reflexivity|cbn; auto 10]].
  destruct (resp_success r); cbn; eexists; (split; [reflexivity|cbn; auto 10]).
Qed.

Lemma validateUser_run userId w :
  isConnected (redis w) = true ->
  validateUser userId w
  = (Returned (negb (String.eqb userId "") && (3 <=? Z.of_nat (String.length userId))), w).
Proof.
  intros Hc. unfold validateUser, checkUserExists, RedisClient.get.
  destruct (String.eqb userId "") eqn:He; cbn [orb negb andb]; [reflexivity|].
  destruct (Z.of_nat (String.length userId) <? 3) eqn:Hl.
  - assert ((3 <=? Z.of_nat (String.length userId)) = false) as ->
      by (apply Z.leb_gt; apply Z.ltb_lt in Hl; lia).
    reflexivity.
  - assert ((3 <=? Z.of_nat (String.length userId)) = true) as Hge
      by (apply Z.leb_le; apply Z.ltb_ge in Hl; lia).
    unfold mbind at 1, M_bind at 1. rewrite run_ready_gets by assumption.
    cbn. rewrite Hge. now rewrite orb_true_r.
Qed.

(** X18: the POST route always answers: no failure of Redis, of the
    database or of a service escapes it as an exception, and the status of
    the answer is 200, 400, 401, 422, 429 or 500. *)
Theorem post_route_always_answers
    (userId : string) (b : body) (ip : ip_text) (userAgent : string) (w : World) :
  exists r,
    result (postUserScore userId b ip userAgent) w = Returned r
    /\ In (status r) [200; 400; 401; 422; 429; 500].
Proof.
  unfold result, postUserScore, authMiddleware, validateScoreUpdate, try_catch.
  destruct (String.eqb userId ""); cbn; [eexists; split; [reflexivity|cbn; auto 10]|].
  unfold mbind at 1, M_bind at 1.
  destruct (validateUser userId w) as [[ok|e] w1]; cbn;
    [| eexists; split; [reflexivity|cbn; auto 10]].
  destruct ok; cbn; [| eexists; split; [reflexivity|cbn; auto 10]].
  destruct (scoreUpdateSchema b); cbn; [eexists; split; [reflexivity|cbn; auto 10]|].
  destruct (handler_always_answers userId b ip userAgent w1) as (r & Hr & Hs).
  unfold result in Hr.
  destruct (updateUserScoreHandler userId b ip userAgent w1) as [[r'|e] w2]; cbn in *;
    [|discriminate].
  exists r'. split; [reflexivity|]. injection Hr as ->. cbn in Hs. intuition lia.
Qed.

(** The route with Redis up, by the length of the user id. *)
Lemma postUserScore_run
    (userId : string) (b : body) (ip : ip_text) (userAgent : string) (w : World) :
  isConnected (redis w) = true ->
  postUserScore userId b ip userAgent w
  = if String.eqb userId "" then
      (Returned (error_json 400 "MISSING_USER_ID" "User ID is required"), w)
    else if Z.of_nat (String.length userId) <? 3 then
      (Returned (error_json 401 ErrorCodes.UNAUTHORIZED
                   "Invalid user or authentication required"), w)
    else validateScoreUpdate b (updateUserScoreHandler userId b ip userAgent) w.
Proof.
  intros Hc. unfold postUserScore, authMiddleware, try_catch.
  destruct (String.eqb userId "") eqn:He; [reflexivity|].
  unfold mbind at 1, M_bind at 1. rewrite (validateUser_run userId w Hc), He.
  cbn [negb andb].
  destruct (Z.of_nat (String.length userId) <? 3) eqn:Hl.
  - assert ((3 <=? Z.of_nat (String.length userId)) = false) as ->
      by (apply Z.leb_gt; apply Z.ltb_lt in Hl; lia).
    reflexivity.
  - assert ((3 <=? Z.of_nat (String.length userId)) = true) as ->
      by (apply Z.leb_le; apply Z.ltb_ge in Hl; lia).
    cbn [negb]. unfold validateScoreUpdate.
    destruct (scoreUpdateSchema b); [reflexivity|].
    destruct (handler_always_answers userId b ip userAgent w) as (r & Hr & _).
    unfold result in Hr.
    destruct (updateUserScoreHandler userId b ip userAgent w) as [[r'|e] w2]; cbn in *;
      [reflexivity|discriminate].
Qed.

(** X19: with Redis up, the route authenticates every user id of three
    characters or more, whether or not a key of the user exists, and
    rejects the shorter ones before anything else runs: the empty id with
    status 400, an id of one or two characters with status 401. *)
Theorem any_id_of_three_characters_is_authenticated
    (userId : string) (b : body) (ip : ip_text) (userAgent : string) (w : World) :
  isConnected (redis w) = true ->
  postUserScore userId b ip userAgent w
  = if String.eqb userId "" then
      (Returned (error_json 400 "MISSING_USER_ID" "User ID is required"), w)
    else if Z.of_nat (String.length userId) <? 3 then
      (Returned (error_json 401 ErrorCodes.UNAUTHORIZED
                   "Invalid user or authentication required"), w)
    else validateScoreUpdate b (updateUserScoreHandler userId b ip userAgent) w.
Proof.
  exact (postUserScore_run userId b ip userAgent w).
Qed.

(** The theorem at an id of two characters. *)
Lemma any_id_of_three_characters_is_authenticated_witness :
  postUserScore "al" (Scenario.body "n1" 100) Scenario.address "agent" initial
  = (Returned (error_json 401 ErrorCodes.UNAUTHORIZED
                 "Invalid user or authentication required"), initial).
Proof.
  refine (any_id_of_three_characters_is_authenticated "al" (Scenario.body "n1" 100)
            Scenario.address "agent" initial _).
  reflexivity.
Defined.

(** X20: with Redis down the route answers status 500, "Authentication
    error", to every user id of three characters or more, and writes
    nothing. *)
Theorem post_route_with_redis_down
    (userId : string) (b : body) (ip : ip_text) (userAgent : string) (w : World) :
  isConnected (redis w) = false -> 3 <= Z.of_nat (String.length userId) ->
  postUserScore userId b ip userAgent w
  = (Returned (error_json 500 ErrorCodes.INTERNAL_ERROR "Authentication error"), w).
Proof.
  intros Hc Hl. unfold postUserScore, authMiddleware, try_catch.
  destruct (String.eqb userId "") eqn:He.
  { apply String.eqb_eq in He. subst. cbn in Hl. lia. }
  unfold mbind at 1, M_bind at 1. unfold validateUser. rewrite He.
  assert ((Z.of_nat (String.length userId) <? 3) = false) as -> by (apply Z.ltb_ge; lia).
  cbn [orb]. unfold checkUserExists, RedisClient.get.
  unfold mbind at 1, M_bind at 1. now rewrite run_ready_gets_down.
Qed.

(** The theorem at alice's request after the connection is lost. *)
Lemma post_route_with_redis_down_witness :
  postUserScore "alice" (Scenario.body "n1" 100) Scenario.address "agent"
    (step (RedisConnection false) initial)
  = (Returned (error_json 500 ErrorCodes.INTERNAL_ERROR "Authentication error"),
     step (RedisConnection false) initial).
Proof.
  refine (post_route_with_redis_down "alice" (Scenario.body "n1" 100) Scenario.address "agent"
            (step (RedisConnection false) initial) _ _); [reflexivity|cbn; lia].
Defined.

(** X21: a body the schema rejects (an unknown action type, an increment
    below 1 or above 1000) is answered 400 VALIDATION_ERROR, with Joi's
    message, before the
    handler runs: the token is not consumed, the rate limiter does not
    count and nothing else is written.  A body the schema accepts has an
    increment within the bounds of [updateScore]. *)
Theorem invalid_body_is_rejected_before_the_handler
    (userId : string) (b : body) (ip : ip_text) (userAgent : string) (w : World) :
  isConnected (redis w) = true -> 3 <= Z.of_nat (String.length userId) ->
  match scoreUpdateSchema b with
  | Some message =>
      postUserScore userId b ip userAgent w
      = (Returned (error_json 400 "VALIDATION_ERROR" message), w)
  | None =>
      includes ActionType.values (actionType b) = true
      /\ ~ out_of_bounds (scoreIncrement b)
      /\ postUserScore userId b ip userAgent w
         = updateUserScoreHandler userId b ip userAgent w
  end.
Proof.
  intros Hc Hl. rewrite (postUserScore_run userId b ip userAgent w Hc).
  destruct (String.eqb userId "") eqn:He.
  { apply String.eqb_eq in He. subst. cbn in Hl. lia. }
  assert ((Z.of_nat (String.length userId) <? 3) = false) as -> by (apply Z.ltb_ge; lia).
  unfold validateScoreUpdate, scoreUpdateSchema.
  destruct (includes ActionType.values (actionType b)); cbn [negb]; [|reflexivity].
  destruct (scoreIncrement b <? 1) eqn:H1; [reflexivity|].
  destruct (1000 <? scoreIncrement b) eqn:H2; [reflexivity|].
  apply Z.ltb_ge in H1, H2. repeat apply conj; [reflexivity| |reflexivity].
  unfold out_of_bounds, ScoreService.MAX_SCORE_INCREMENT. lia.
Qed.

(** The theorem at alice's request with an increment of 5000. *)
Lemma invalid_body_is_rejected_before_the_handler_witness :
  postUserScore "alice" (Scenario.body "n1" 5000) Scenario.address "agent" initial
  = (Returned (error_json 400 "VALIDATION_ERROR"
                 (quoted "scoreIncrement" +:+ " must be less than or equal to 1000")),
     initial).
Proof.
  refine (invalid_body_is_rejected_before_the_handler "alice" (Scenario.body "n1" 5000)
            Scenario.address "agent" initial _ _); [reflexivity|cbn; lia].
Defined.

End RouteExtras.

(** ** What the POST route writes, and what it does not compare *)

Section FootprintExtras.

Import AuthService scoreRoutes.

Lemma keys_zsets_blind key : zsets_blind (fun w => keys (redis w) !! key).
Proof. intros z w. reflexivity. Qed.

Lemma preserves_keys_uuidv4 key : preserves (fun w => keys (redis w) !! key) uuidv4.
Proof. intros w. reflexivity. Qed.

Lemma preserves_keys_emit key n :
  preserves (fun w => keys (redis w) !! key) (WebSocketManager.emit n).
Proof. intros w. reflexivity. Qed.

Lemma preserves_keys_logAuditEntry key e :
  preserves (fun w => keys (redis w) !! key) (ScoreService.logAuditEntry e).
Proof.
  apply preserves_try_catch; [|intros _; apply preserves_ret].
  apply preserves_bind; [|intros _; apply preserves_ret].
  apply preserves_query, keys_db_blind.
Qed.

Lemma preserves_keys_getUserRank key u :
  preserves (fun w => keys (redis w) !! key) (ScoreService.getUserRank u).
Proof.
  apply preserves_bind; [apply preserves_ready_gets|intros r; apply preserves_ret].
Qed.

(** [updateScore] writes no Redis key but the user's cached score. *)
Lemma updateScore_other_keys request ip userAgent key :
  key <> ScoreService.scoreKey (req_userId request) ->
  preserves (fun w => keys (redis w) !! key) (ScoreService.updateScore request ip userAgent).
Proof.
  intros Hne. unfold ScoreService.updateScore. apply preserves_try_catch.
  - destruct (_ || _); [apply preserves_throw|].
    apply preserves_bind; [now apply getCurrentScore_other_keys|intros currentScore].
    cbv zeta.
    apply preserves_bind; [apply preserves_query, keys_db_blind|intros _].
    apply preserves_try_catch.
    + apply preserves_bind; [apply preserves_gets|intros t].
      apply preserves_bind; [apply preserves_query, keys_db_blind|intros _].
      apply preserves_bind; [apply preserves_keys_uuidv4|intros id].
      apply preserves_bind; [apply preserves_gets|intros t'].
      apply preserves_bind; [apply preserves_keys_logAuditEntry|intros _].
      apply preserves_bind; [apply preserves_query, keys_db_blind|intros _].
      apply preserves_bind.
      { unfold ScoreService.updateScoreCache. apply preserves_other_key_setex. congruence. }
      intros _.
      apply preserves_bind; [apply preserves_keys_getUserRank|intros oldRank].
      apply preserves_bind.
      { unfold ScoreService.updateLeaderboard.
        apply preserves_bind; [|intros _; apply preserves_ret].
        apply preserves_zadd, keys_zsets_blind. }
      intros _.
      apply preserves_bind; [apply preserves_keys_getUserRank|intros newRank].
      apply preserves_bind; [apply preserves_gets|intros wired].
      apply preserves_bind; [|intros _; apply preserves_ret].
      destruct wired; [|apply preserves_ret].
      apply preserves_bind; [apply preserves_keys_emit|intros _].
      destruct (ScoreService.shouldBroadcast _ _);
        [apply preserves_keys_emit|apply preserves_ret].
    + intros dbError.
      apply preserves_bind; [apply preserves_query, keys_db_blind|intros _].
      apply preserves_throw.
  - intros error.
    apply preserves_bind; [apply preserves_keys_uuidv4|intros id].
    apply preserves_bind; [now apply getCurrentScore_other_keys|intros p].
    apply preserves_bind; [apply preserves_gets|intros t].
    apply preserves_bind; [apply preserves_keys_logAuditEntry|intros _].
    apply preserves_bind; [now apply getCurrentScore_other_keys|intros n].
    apply preserves_ret.
Qed.

Lemma handler_other_keys userId b ip userAgent key :
  key <> tokenKey (at_nonce (jwt_payload (actionToken b))) ->
  key <> rateLimitKey userId "score_update" ->
  key <> ScoreService.scoreKey userId ->
  preserves (fun w => keys (redis w) !! key) (updateUserScoreHandler userId b ip userAgent).
Proof.
  intros H1 H2 H3. unfold updateUserScoreHandler.
  apply preserves_try_catch; [|intros _; apply preserves_ret].
  apply preserves_bind; [now apply validateActionToken_other_keys|intros [|error]];
    [|apply preserves_ret].
  apply preserves_bind; [now apply checkRateLimit_other_keys|intros rl].
  destruct (negb _); [apply preserves_ret|].
  apply preserves_bind; [apply preserves_gets|intros t].
  apply preserves_bind; [now apply updateScore_other_keys|intros r].
  destruct (resp_success r); apply preserves_ret.
Qed.

Lemma postUserScore_other_keys userId b ip userAgent key :
  key <> tokenKey (at_nonce (jwt_payload (actionToken b))) ->
  key <> rateLimitKey userId "score_update" ->
  key <> ScoreService.scoreKey userId ->
  preserves (fun w => keys (redis w) !! key) (postUserScore userId b ip userAgent).
Proof.
  intros H1 H2 H3.
  unfold postUserScore, authMiddleware, validateScoreUpdate.
  apply preserves_try_catch; [|intros _; apply preserves_ret].
  destruct (String.eqb userId ""); [apply preserves_ret|].
  apply preserves_bind.
  { unfold validateUser. destruct (_ || _); [apply preserves_ret|].
    apply preserves_bind; [apply preserves_ready_gets|intros d; apply preserves_ret]. }
  intros ok. destruct (negb ok); [apply preserves_ret|].
  destruct (scoreUpdateSchema b); [apply preserves_ret|now apply handler_other_keys].
Qed.

(** X22: the POST route writes at most three Redis keys: the nonce of the
    token, the user's rate counter and the user's cached score.  Every
    other key, the cached leaderboard snapshots and the other users'
    cached scores among them, is after the request as it was before. *)
Theorem post_route_writes_three_keys
    (userId : string) (b : body) (ip : ip_text) (userAgent key : string) (w : World) :
  key <> tokenKey (at_nonce (jwt_payload (actionToken b))) ->
  key <> rateLimitKey userId "score_update" ->
  key <> ScoreService.scoreKey userId ->
  keys (redis (exec (postUserScore userId b ip userAgent) w)) !! key
  = keys (redis w) !! key.
Proof.
  intros H1 H2 H3. exact (postUserScore_other_keys userId b ip userAgent key H1 H2 H3 w).
Qed.

(** The theorem at alice's update and bob's cached score. *)
Lemma post_route_writes_three_keys_witness :
  keys (redis (exec (postUserScore "alice" (Scenario.body "n1" 100) Scenario.address "agent")
                 (run [GetUserScoreInfo "bob"] initial)))
    !! ScoreService.scoreKey "bob"
  = keys (redis (run [GetUserScoreInfo "bob"] initial)) !! ScoreService.scoreKey "bob".
Proof.
  refine (post_route_writes_three_keys "alice" (Scenario.body "n1" 100) Scenario.address
            "agent" (ScoreService.scoreKey "bob") (run [GetUserScoreInfo "bob"] initial)
            _ _ _);
    vm_compute; discriminate.
Defined.

Lemma validateActionToken_for_action token actionType userId w :
  includes validActionTypes (at_actionType (jwt_payload token)) = true ->
  includes validActionTypes actionType = true ->
  validateActionToken (for_action token actionType) userId w
  = validateActionToken token userId w.
Proof.
  intros Ha Hb.
  unfold validateActionToken, try_catch, jwt_verify, RedisClient.get, RedisClient.setex,
    RedisClient.ready, gets, modify, mbind, M_bind, mret, M_ret.
  cbn [for_action jwt_signed jwt_exp jwt_payload at_userId at_nonce at_actionType].
  destruct (jwt_signed token); cbn -[includes]; [|reflexivity].
  destruct (jwt_exp token <=? clock w); cbn -[includes]; [reflexivity|].
  destruct (String.eqb _ userId); cbn -[includes]; [|reflexivity].
  destruct (isConnected (redis w)) eqn:Hc; cbn -[includes]; [|reflexivity].
  destruct (rvalue_truthy _); cbn -[includes]; [reflexivity|].
  rewrite Hc. cbn -[includes]. now rewrite Ha, Hb.
Qed.

(** X23: the handler does not compare the action type of the token with
    the action type of the body: a token signed for one known action type
    gives, with any body, the answer and the state that the same token
    signed for any other known action type gives. *)
Theorem token_action_type_is_not_compared_with_the_body
    (userId : string) (b : body) (ip : ip_text) (userAgent : string) (token : Jwt)
    (actionType' : string) (w : World) :
  includes validActionTypes (at_actionType (jwt_payload token)) = true ->
  includes validActionTypes actionType' = true ->
  updateUserScoreHandler userId (with_token b (for_action token actionType')) ip userAgent w
  = updateUserScoreHandler userId (with_token b token) ip userAgent w.
Proof.
  intros Ha Hb. unfold updateUserScoreHandler, try_catch.
  unfold mbind at 1 5, M_bind at 1 5. cbn [with_token actionToken actionType scoreIncrement].
  rewrite (validateActionToken_for_action token actionType' userId w Ha Hb).
  reflexivity.
Qed.

(** The theorem at a token for DAILY_LOGIN sent with a GAME_COMPLETE body. *)
Lemma token_action_type_is_not_compared_with_the_body_witness :
  updateUserScoreHandler "alice"
    (with_token (Scenario.body "n1" 100)
       (for_action (Scenario.token "n1" "GAME_COMPLETE") "DAILY_LOGIN")) Scenario.address "agent" initial
  = updateUserScoreHandler "alice"
      (with_token (Scenario.body "n1" 100) (Scenario.token "n1" "GAME_COMPLETE"))
      Scenario.address "agent" initial.
Proof.
  refine (token_action_type_is_not_compared_with_the_body "alice" (Scenario.body "n1" 100)
            Scenario.address "agent" (Scenario.token "n1" "GAME_COMPLETE") "DAILY_LOGIN" initial _ _);
    reflexivity.
Defined.

End FootprintExtras.

(** ** The connections of the WebSocket manager *)

Section Connections.

Import WebSocketConnections.

Lemma splice_indexOf_In s x l : In x (splice_indexOf s l) -> In x l.
Proof.
  induction l as [|a l IH]; cbn; [tauto|].
  destruct (String.eqb a s); cbn; intuition.
Qed.

Lemma splice_indexOf_other s x l : In x l -> x <> s -> In x (splice_indexOf s l).
Proof.
  induction l as [|a l IH]; cbn; [tauto|]. intros [->|Hin] Hne.
  - destruct (String.eqb x s) eqn:E; [apply String.eqb_eq in E; contradiction|now left].
  - destruct (String.eqb a s); [assumption|right; auto].
Qed.

Lemma splice_indexOf_NoDup s l :
  List.NoDup l -> List.NoDup (splice_indexOf s l) /\ ~ In s (splice_indexOf s l).
Proof.
  induction 1 as [|a l Hnotin Hnd [IH1 IH2]]; cbn; [split; [constructor|tauto]|].
  destruct (String.eqb a s) eqn:E.
  - apply String.eqb_eq in E. subst. auto.
  - apply String.eqb_neq in E. split.
    + constructor; [|assumption]. intros Hin. apply Hnotin. eapply splice_indexOf_In; eauto.
    + cbn. intros [H|H]; [congruence|contradiction].
Qed.

Lemma splice_indexOf_pushed s l : ~ In s l -> splice_indexOf s (l ++ [s]) = l.
Proof.
  induction l as [|a l IH]; cbn; intros Hn.
  - now rewrite String.eqb_refl.
  - destruct (String.eqb a s) eqn:E; [apply String.eqb_eq in E; tauto|].
    f_equal. apply IH. tauto.
Qed.

Lemma NoDup_pushed (s : string) l : List.NoDup l -> ~ In s l -> List.NoDup (l ++ [s]).
Proof.
  induction 1 as [|a l Hnotin Hnd IH]; cbn; intros Hn.
  - constructor; [tauto|constructor].
  - constructor; [|apply IH; tauto].
    rewrite List.in_app_iff. cbn. intros [H|[H|[]]]; [contradiction|]. apply Hn. now left.
Qed.

Lemma truthy_named (u : string) : u <> "" -> truthy (Some u) = true.
Proof. destruct u; [congruence|reflexivity]. Qed.

Lemma consistent_detached c s :
  consistent c -> socketToUser c !! s = None -> detached s c.
Proof.
  intros [H1 H2] Hs. split.
  - intros sid uid _ Hsid. exact (H1 sid uid Hsid).
  - intros uid l Hl. destruct (H2 uid l Hl) as (Hne & Hnd & Hm).
    repeat apply conj; try assumption. intros sid Hin. split; [|auto].
    intros ->. rewrite (Hm s Hin) in Hs. discriminate.
Qed.

Lemma remove_detaches c s u :
  consistent c -> socketToUser c !! s = Some u -> detached s (removeSocketFromUser u s c).
Proof.
  intros [H1 H2] Hs. destruct (H1 s u Hs) as (Hu & l & Hl & Hin).
  destruct (H2 u l Hl) as (Hne & Hnd & Hm).
  destruct (splice_indexOf_NoDup s l Hnd) as [Hnd' Hfresh].
  unfold removeSocketFromUser. rewrite Hl. cbv zeta.
  destruct (Nat.eqb (length (splice_indexOf s l)) 0) eqn:Hlen.
  - apply Nat.eqb_eq in Hlen. apply length_zero_iff_nil in Hlen.
    split; cbn [connectedUsers socketToUser].
    + intros sid uid Hsid Huid. destruct (H1 sid uid Huid) as (Hn & l0 & Hl0 & Hin0).
      split; [assumption|]. exists l0. split; [|assumption].
      rewrite lookup_delete_ne; [assumption|]. intros <-.
      assert (l0 = l) as -> by congruence.
      pose proof (splice_indexOf_other s sid l Hin0 Hsid) as Hx. rewrite Hlen in Hx.
      contradiction.
    + intros uid l0 Hl0. apply lookup_delete_Some in Hl0 as [Hne0 Hl0].
      destruct (H2 uid l0 Hl0) as (Hne1 & Hnd1 & Hm1).
      repeat apply conj; try assumption. intros sid Hsid. split; [|auto].
      intros ->. rewrite (Hm1 s Hsid) in Hs. congruence.
  - apply Nat.eqb_neq in Hlen. split; cbn [connectedUsers socketToUser].
    + intros sid uid Hsid Huid. destruct (H1 sid uid Huid) as (Hn & l0 & Hl0 & Hin0).
      split; [assumption|]. destruct (decide (u = uid)) as [<-|Hd].
      * exists (splice_indexOf s l). rewrite lookup_insert_eq. split; [reflexivity|].
        assert (l0 = l) as -> by congruence. now apply splice_indexOf_other.
      * exists l0. now rewrite lookup_insert_ne.
    + intros uid l0 Hl0. apply lookup_insert_Some in Hl0 as [[<- <-]|[Hd Hl0]].
      * repeat apply conj; [intros E; rewrite E in Hlen; cbn in Hlen; lia|assumption|].
        intros sid Hsid. split; [intros ->; contradiction|].
        apply Hm. eapply splice_indexOf_In; eauto.
      * destruct (H2 uid l0 Hl0) as (Hne1 & Hnd1 & Hm1).
        repeat apply conj; try assumption. intros sid Hsid. split; [|auto].
        intros ->. rewrite (Hm1 s Hsid) in Hs. congruence.
Qed.

Lemma detached_delete c s :
  detached s c ->
  consistent {| connectedUsers := connectedUsers c;
                socketToUser := delete s (socketToUser c) |}.
Proof.
  intros [D1 D2]. split; cbn [connectedUsers socketToUser].
  - intros sid uid Hsid. apply lookup_delete_Some in Hsid as [Hne Hsid].
    apply (D1 sid uid); [congruence|assumption].
  - intros uid l Hl. destruct (D2 uid l Hl) as (Hne & Hnd & Hm).
    repeat apply conj; try assumption. intros sid Hin. destruct (Hm sid Hin) as [Hs Hu].
    rewrite lookup_delete_ne; [assumption|congruence].
Qed.

Lemma detached_push c s u :
  detached s c -> u <> "" ->
  consistent {| connectedUsers :=
                  <[u := default [] (connectedUsers c !! u) ++ [s]]> (connectedUsers c);
                socketToUser := <[s := u]> (socketToUser c) |}.
Proof.
  intros [D1 D2] Hu. split; cbn [connectedUsers socketToUser].
  - intros sid uid Hsid. apply lookup_insert_Some in Hsid as [[<- <-]|[Hne Hsid]].
    + split; [assumption|]. eexists. rewrite lookup_insert_eq. split; [reflexivity|].
      apply List.in_app_iff. right. now left.
    + destruct (D1 sid uid) as (Hn & l & Hl & Hin); [congruence|assumption|].
      split; [assumption|]. destruct (decide (u = uid)) as [<-|Hd].
      * eexists. rewrite lookup_insert_eq. split; [reflexivity|].
        rewrite Hl. cbn. apply List.in_app_iff. now left.
      * exists l. now rewrite lookup_insert_ne.
  - intros uid l Hl. apply lookup_insert_Some in Hl as [[<- <-]|[Hd Hl]].
    + destruct (connectedUsers c !! u) as [l|] eqn:Hl; cbn [default].
      * destruct (D2 u l Hl) as (Hne & Hnd & Hm). repeat apply conj.
        -- destruct l; discriminate.
        -- apply NoDup_pushed; [assumption|]. intros Hin. now destruct (Hm s Hin).
        -- intros sid Hin. apply List.in_app_iff in Hin as [Hin|[<-|[]]].
           ++ destruct (Hm sid Hin) as [Hs Hsu]. now rewrite lookup_insert_ne.
           ++ apply lookup_insert_eq.
      * repeat apply conj.
        -- discriminate.
        -- constructor; [tauto|constructor].
        -- intros sid [<-|[]]. apply lookup_insert_eq.
    + destruct (D2 uid l Hl) as (Hne & Hnd & Hm).
      repeat apply conj; try assumption. intros sid Hin. destruct (Hm sid Hin) as [Hs Hsu].
      now rewrite lookup_insert_ne.
Qed.

Lemma consistent_authenticate c s u :
  consistent c -> u <> "" -> consistent (handleUserAuthentication s u c).
Proof.
  intros Hc Hu. unfold handleUserAuthentication.
  destruct (socketToUser c !! s) as [existing|] eqn:Hs.
  - rewrite truthy_named by (now destruct (proj1 Hc s existing Hs)).
    apply detached_push; [now apply remove_detaches|assumption].
  - apply detached_push; [now apply consistent_detached|assumption].
Qed.

Lemma consistent_disconnect c s : consistent c -> consistent (handleUserDisconnection s c).
Proof.
  intros Hc. unfold handleUserDisconnection.
  destruct (socketToUser c !! s) as [u|] eqn:Hs; [|assumption].
  rewrite truthy_named by (now destruct (proj1 Hc s u Hs)).
  cbv zeta. apply detached_delete. now apply remove_detaches.
Qed.

Lemma consistent_removeStale l : forall c, consistent c -> consistent (removeStale l c).
Proof.
  induction l as [|s l IH]; intros c Hc; [assumption|].
  apply IH. now apply consistent_disconnect.
Qed.

Lemma consistent_run events : forall c,
  Forall names_user events -> consistent c -> consistent (socket_run events c).
Proof.
  induction events as [|e events IH]; intros c Hn Hc; [assumption|].
  apply Forall_cons in Hn as [He Hn]. apply IH; [assumption|].
  destruct e as [s u|s|l]; cbn [socket_step].
  - now apply consistent_authenticate.
  - now apply consistent_disconnect.
  - now apply consistent_removeStale.
Qed.

Lemma consistent_no_connections : consistent no_connections.
Proof. split; intros ? ? H; cbn in H; now rewrite lookup_empty in H. Qed.

(** X24: as long as no socket authenticates with the empty user id, the
    two maps of the manager agree after any sequence of authentications,
    disconnections and cleanups: each socket of [socketToUser] is once in
    the array of its user and in no other, no array is empty, and so a
    user is online exactly when some socket is mapped to it. *)
Theorem connection_maps_agree (events : list socket_event) (userId : string) :
  Forall names_user events ->
  let c := socket_run events no_connections in
  consistent c
  /\ (isUserOnline userId c = true
      <-> exists socketId, socketToUser c !! socketId = Some userId).
Proof.
  intros Hn c. assert (consistent c) as Hc
    by (apply consistent_run; [assumption|apply consistent_no_connections]).
  split; [assumption|]. destruct Hc as [H1 H2]. unfold isUserOnline. split.
  - destruct (connectedUsers c !! userId) as [l|] eqn:Hl; [|discriminate]. intros _.
    destruct (H2 userId l Hl) as (Hne & _ & Hm). destruct l as [|x l]; [congruence|].
    exists x. apply Hm. now left.
  - intros [s Hs]. destruct (H1 s userId Hs) as (_ & l & -> & Hin).
    destruct l; [contradiction|]. cbn [length]. apply Z.ltb_lt. lia.
Qed.

(** The theorem at a socket that changes its user. *)
Lemma connection_maps_agree_witness :
  consistent
    (socket_run [Authenticate "s1" "alice"; Authenticate "s1" "bob"] no_connections).
Proof.
  refine (proj1 (connection_maps_agree
                   [Authenticate "s1" "alice"; Authenticate "s1" "bob"] "alice" _)).
  repeat constructor; discriminate.
Defined.

(** X25: a socket that authenticated with the empty user id is never
    removed: its disconnection and the cleanup leave both maps as they
    are, and the empty user id stays online. *)
Theorem empty_user_id_is_never_removed (c : connections) (socketId : string) :
  let c' := handleUserAuthentication socketId "" c in
  handleUserDisconnection socketId c' = c'
  /\ removeStale [socketId] c' = c'
  /\ isUserOnline "" c' = true.
Proof.
  intros c'.
  assert (socketToUser c' !! socketId = Some "") as Hs by apply lookup_insert_eq.
  assert (handleUserDisconnection socketId c' = c') as Hd
    by (unfold handleUserDisconnection; now rewrite Hs).
  repeat apply conj; [exact Hd|exact Hd|].
  unfold isUserOnline, c', handleUserAuthentication. cbn [connectedUsers].
  rewrite lookup_insert_eq. rewrite length_app. cbn. apply Z.ltb_lt. lia.
Qed.

(** X26: in a state the manager reaches without the empty user id, a new
    socket that authenticates and then disconnects leaves both maps
    exactly as they were. *)
Theorem authentication_then_disconnection_restores
    (events : list socket_event) (socketId userId : string) :
  Forall names_user events -> userId <> "" ->
  let c := socket_run events no_connections in
  socketToUser c !! socketId = None ->
  handleUserDisconnection socketId (handleUserAuthentication socketId userId c) = c.
Proof.
  intros Hn Hu c Hs. assert (consistent c) as [H1 H2]
    by (apply consistent_run; [assumption|apply consistent_no_connections]).
  clearbody c. destruct c as [cu stu]. cbn [socketToUser connectedUsers] in *.
  unfold handleUserAuthentication. cbn [socketToUser connectedUsers]. rewrite Hs.
  unfold handleUserDisconnection. cbn [socketToUser connectedUsers].
  rewrite lookup_insert_eq, (truthy_named userId Hu). cbv zeta.
  unfold removeSocketFromUser. cbn [socketToUser connectedUsers].
  rewrite lookup_insert_eq. cbv zeta. cbn [socketToUser connectedUsers].
  rewrite (delete_insert_id stu socketId userId Hs).
  destruct (cu !! userId) as [l|] eqn:Hl; cbn [default from_option id].
  - destruct (H2 userId l Hl) as (Hne & _ & Hm).
    rewrite splice_indexOf_pushed.
    + destruct l; [congruence|]. cbn [length Nat.eqb].
      rewrite insert_insert_eq. rewrite (insert_id cu userId _ Hl). reflexivity.
    + intros Hin. rewrite (Hm socketId Hin) in Hs. discriminate.
  - cbn. rewrite String.eqb_refl. cbn. now rewrite delete_insert_id.
Qed.

(** The theorem at the first socket of the manager. *)
Lemma authentication_then_disconnection_restores_witness :
  handleUserDisconnection "s1" (handleUserAuthentication "s1" "alice" no_connections)
  = no_connections.
Proof.
  refine (authentication_then_disconnection_restores [] "s1" "alice" _ _ _).
  - constructor.
  - discriminate.
  - reflexivity.
Defined.

End Connections.

(** ** Reads of the leaderboard through [zrevrange] *)

Section SnapshotExtras.

Import LeaderboardService.

Ltac unfold_top :=
  unfold getTopUsers, JSON_parse, try_catch, RedisClient.get, RedisClient.zrevrange,
    RedisClient.zcard, RedisClient.setex, RedisClient.ready, Date_now, gets, modify, throw,
    mbind, M_bind, mret, M_ret.

(** What [getTopUsers] does in each state: it answers the snapshot that is
    live under the key of the limit, if there is one, and fails
    otherwise; it writes nothing. *)
Lemma getTopUsers_run limit w :
  getTopUsers limit w
  = (if isConnected (redis w) then
       match RedisServer.GET (clock w) (cacheKey limit) (redis w) with
       | Some (JsonText r) => Returned r
       | _ => Thrown (Error "Failed to fetch leaderboard")
       end
     else Thrown (Error "Failed to fetch leaderboard"), w).
Proof.
  unfold_top. destruct (isConnected (redis w)) eqn:Hc; [|reflexivity].
  destruct (RedisServer.GET (clock w) (cacheKey limit) (redis w)) as [[s|r]|];
    cbn -[cacheKey]; [destruct s; cbn -[cacheKey]| |]; rewrite ?Hc; reflexivity.
Qed.

(** X27: [getTopUsers] never builds a snapshot.  In every state it writes
    nothing and the only exception it throws is 'Failed to fetch
    leaderboard'.  It throws it whenever no value is live under the key of
    the limit, with Redis up or down: on a cache miss the wrapper's
    [zrevrange] is a TypeError before anything is cached.  It answers only
    when a snapshot is already live under the key, and then that
    snapshot. *)
Theorem getTopUsers_builds_no_snapshot (w : World) (limit : Z) :
  exec (getTopUsers limit) w = w
  /\ (forall e, result (getTopUsers limit) w = Thrown e ->
        e = Error "Failed to fetch leaderboard")
  /\ (rvalue_truthy (RedisServer.GET (clock w) (cacheKey limit) (redis w)) = false ->
        result (getTopUsers limit) w = Thrown (Error "Failed to fetch leaderboard"))
  /\ (forall r, isConnected (redis w) = true ->
        RedisServer.GET (clock w) (cacheKey limit) (redis w) = Some (JsonText r) ->
        result (getTopUsers limit) w = Returned r).
Proof.
  unfold exec, result. rewrite getTopUsers_run. cbn [fst snd].
  destruct (isConnected (redis w));
    [destruct (RedisServer.GET (clock w) (cacheKey limit) (redis w)) as [[s|r]|]|];
    repeat apply conj; try reflexivity; intros; try congruence; try discriminate.
Qed.

(** X28: with Redis up, [getLeaderboardAroundUser] fails for every member
    of the sorted set and every range: after the rank is read, the
    wrapper's [zrevrange] is a TypeError; nothing is written, and the
    route answers 500 when the range is at most 25. *)
Theorem getLeaderboardAroundUser_fails_for_members
    (w : World) (u : string) (range : Z) (rangeQuery : option string) :
  isConnected (redis w) = true -> In u (map fst (leaderboard w)) ->
  getLeaderboardAroundUser u range w
  = (Thrown (TypeError "this.client.zRevRangeWithScores is not a function"), w)
  /\ (leaderboardRoutes.number_or (leaderboardRoutes.query_parseInt rangeQuery) 5 <= 25 ->
      leaderboardRoutes.getAround u rangeQuery w
      = (Returned (leaderboardRoutes.error_json 500 ErrorCodes.INTERNAL_ERROR
                     "Failed to retrieve leaderboard around user"), w)).
Proof.
  intros Hc Hin. destruct (zindex_present u (leaderboard w) Hin) as [i Hi].
  assert (forall range,
            getLeaderboardAroundUser u range w
            = (Thrown (TypeError "this.client.zRevRangeWithScores is not a function"), w))
    as Hrun.
  { intros range'. unfold getLeaderboardAroundUser, RedisClient.zrank.
    unfold mbind at 1, M_bind at 1. rewrite run_ready_gets by assumption.
    change (RedisServer.ZREVRANK LEADERBOARD_KEY u (redis w))
      with (RedisServer.zindex u (leaderboard w)).
    rewrite Hi. cbv zeta. unfold RedisClient.zrevrange, RedisClient.ready, throw.
    unfold mbind, M_bind. now rewrite Hc. }
  split; [apply Hrun|]. intros Hle.
  unfold leaderboardRoutes.getAround, try_catch. cbv zeta.
  apply Z.ltb_ge in Hle. rewrite Hle.
  unfold mbind at 1, M_bind at 1. now rewrite Hrun.
Qed.

(** The theorem at a user of the sample data. *)
Lemma getLeaderboardAroundUser_fails_for_members_witness :
  getLeaderboardAroundUser "user3" 2 (run [InitializeSampleData] initial)
  = (Thrown (TypeError "this.client.zRevRangeWithScores is not a function"),
     run [InitializeSampleData] initial).
Proof.
  refine (proj1 (getLeaderboardAroundUser_fails_for_members
                   (run [InitializeSampleData] initial) "user3" 2 None _ _)).
  - vm_compute. reflexivity.
  - vm_compute. auto 10.
Defined.

(** X29: GET /api/leaderboard rejects a limit above 50 with status 400 and
    hands every other limit, a negative one too, to [getTopUsers]; unless
    a snapshot is live under the key of that limit the route answers 500,
    'Failed to retrieve leaderboard'.  It writes nothing either way. *)
Theorem leaderboard_route_fails_without_snapshot (w : World) (limitQuery : option string) :
  let limit := leaderboardRoutes.number_or (leaderboardRoutes.query_parseInt limitQuery) 10 in
  rvalue_truthy (RedisServer.GET (clock w) (cacheKey limit) (redis w)) = false ->
  leaderboardRoutes.getLeaderboard limitQuery w
  = (if 50 <? limit then
       Returned (leaderboardRoutes.error_json 400 "INVALID_LIMIT" "Limit cannot exceed 50")
     else
       Returned (leaderboardRoutes.error_json 500 ErrorCodes.INTERNAL_ERROR
                   "Failed to retrieve leaderboard"), w).
Proof.
  intros limit Hg. unfold leaderboardRoutes.getLeaderboard, try_catch. cbv zeta.
  fold limit. destruct (50 <? limit); [reflexivity|].
  unfold mbind at 1, M_bind at 1. rewrite getTopUsers_run.
  destruct (isConnected (redis w)); [|reflexivity].
  destruct (RedisServer.GET (clock w) (cacheKey limit) (redis w)) as [[s|r]|];
    try reflexivity. discriminate.
Qed.

(** The theorem at the sample data and the query [limit=-2]. *)
Lemma leaderboard_route_fails_without_snapshot_witness :
  leaderboardRoutes.getLeaderboard (Some "-2") (run [InitializeSampleData] initial)
  = (Returned (leaderboardRoutes.error_json 500 ErrorCodes.INTERNAL_ERROR
                 "Failed to retrieve leaderboard"), run [InitializeSampleData] initial).
Proof.
  refine (leaderboard_route_fails_without_snapshot (run [InitializeSampleData] initial)
            (Some "-2") _).
  vm_compute. reflexivity.
Defined.

End SnapshotExtras.

(** ** The score and the rank of a user, read together *)

Section ScoreInfoExtras.

Import ScoreService.

Lemma or_undefined_rank (place : option Z) :
  (forall i, place = Some i -> 0 <= i) ->
  or_undefined (match place with Some r => Some (r + 1) | None => None end)
  = match place with Some r => Some (r + 1) | None => None end.
Proof.
  destruct place as [i|]; [|reflexivity]. intros H. specialize (H i eq_refl).
  unfold or_undefined. destruct (i + 1) eqn:E; [lia|reflexivity|reflexivity].
Qed.

(** X30: with Redis up, no database fault pending and no aborted
    transaction open, [getUserScoreInfo]
    answers the score that [getCurrentScore] reads and the rank that
    [getUserRank] answers: the test [rank || undefined] never drops a
    rank, since ranks start at 1. *)
Theorem getUserScoreInfo_reports_score_and_rank (w : World) (u : string) :
  isConnected (redis w) = true -> faults (db w) = [] ->
  DatabaseConnection.in_failed_transaction (db w) = false ->
  exists info,
    result (getUserScoreInfo u) w = Returned info
    /\ us_userId info = u
    /\ result (getCurrentScore u) w = Returned (us_currentScore info)
    /\ result (getUserRank u) w = Returned (us_rank info).
Proof.
  intros Hc Hf Ha. unfold result, getUserScoreInfo. unfold mbind at 1, M_bind at 1.
  rewrite (getUserRank_run u w Hc).
  assert (forall i, RedisServer.zindex u (leaderboard w) = Some i -> 0 <= i) as Hpos
    by (intros i Hi; apply zindex_bounds in Hi; lia).
  destruct (RedisServer.GET (clock w) (scoreKey u) (redis w)) as [v|] eqn:Hg.
  - rewrite (getCurrentScore_hit u w v Hc Hg).
    unfold mbind at 1, M_bind at 1. rewrite (getUserRank_run u w Hc).
    eexists. split; [reflexivity|]. cbn. rewrite or_undefined_rank by assumption. auto.
  - pose proof (getCurrentScore_miss u w Hc Hf Ha Hg) as Hrun. cbv zeta in Hrun.
    rewrite Hrun.
    set (w' := with_redis _ w).
    unfold mbind at 1, M_bind at 1. rewrite (getUserRank_run u w' Hc).
    change (leaderboard w') with (leaderboard w).
    eexists. split; [reflexivity|]. cbn [us_userId us_currentScore us_rank fst].
    rewrite or_undefined_rank by assumption. auto.
Qed.

(** The theorem at a user of the sample data. *)
Lemma getUserScoreInfo_reports_score_and_rank_witness :
  exists info,
    result (getUserScoreInfo "user2") (run [InitializeSampleData] initial) = Returned info
    /\ us_userId info = "user2"
    /\ result (getCurrentScore "user2") (run [InitializeSampleData] initial)
       = Returned (us_currentScore info)
    /\ result (getUserRank "user2") (run [InitializeSampleData] initial)
       = Returned (us_rank info).
Proof.
  refine (getUserScoreInfo_reports_score_and_rank (run [InitializeSampleData] initial)
            "user2" _ _ _); vm_compute; reflexivity.
Defined.

End ScoreInfoExtras.

(** ** Parts of the world the POST route leaves alone *)

Section Blind.

Import AuthService scoreRoutes.

Context {X : Type} (f : World -> X).
Hypothesis Hk : keys_blind f.
Hypothesis Hz : zsets_blind f.
Hypothesis Hd : db_blind f.
Hypothesis Hu : preserves f uuidv4.
Hypothesis He : forall n, preserves f (WebSocketManager.emit n).






End Blind.

(** ** The order of the checks on the POST route *)

Section RouteOrder.

Import AuthService scoreRoutes.

Lemma schema_accepted (b : body) :
  scoreUpdateSchema b = None ->
  includes ActionType.values (actionType b) = true /\ ~ out_of_bounds (scoreIncrement b).
Proof.
  unfold scoreUpdateSchema.
  destruct (includes ActionType.values (actionType b)); cbn [negb]; [|discriminate].
  destruct (scoreIncrement b <? 1) eqn:H1; [discriminate|].
  destruct (1000 <? scoreIncrement b) eqn:H2; [discriminate|]. intros _.
  apply Z.ltb_ge in H1, H2. split; [reflexivity|].
  unfold out_of_bounds, ScoreService.MAX_SCORE_INCREMENT. lia.
Qed.

(** C3 (amended): on the POST route, behind its per-address limiter, for
    an authenticated user with Redis up, the checks run in the order (a)
    the schema of the body, which holds the bounds of the delta, (c) the
    token validator, (b) the rate limiter of the user, each failure ending
    the request.  A body the schema rejects
    is answered 400 with nothing consumed or written.  A rejected token is
    answered 422, costs no rate-limit count and never reaches the
    database.  An accepted token is marked used at once; if the rate
    limiter then denies, the request is answered 429 with its token
    consumed and the database untouched; if it allows, the request goes on
    to [updateScore] with a delta within bounds. *)
Theorem route_checks_body_then_token_then_rate_limit
    (w : World) (userId : string) (b : body) (ip : ip_text) (userAgent : string) :
  isConnected (redis w) = true -> 3 <= Z.of_nat (String.length userId) ->
  let validate := validateActionToken (actionToken b) userId in
  let check := checkRateLimit userId "score_update" in
  let route := postUserScore userId b ip userAgent in
  let nonceKey := tokenKey (at_nonce (jwt_payload (actionToken b))) in
  let countKey := rateLimitKey userId "score_update" in
  let w1 := exec validate w in
  let w2 := exec check w1 in
  match scoreUpdateSchema b with
  | Some message =>
      route w = (Returned (error_json 400 "VALIDATION_ERROR" message), w)
  | None =>
      ~ out_of_bounds (scoreIncrement b)
      /\ match result validate w with
         | Returned (invalid error) =>
             result route w = Returned (error_json 422 error (getErrorMessage error))
             /\ exec route w = w1
             /\ keys (redis w1) !! countKey = keys (redis w) !! countKey
             /\ db w1 = db w
         | Returned valid =>
             keys (redis w1) !! nonceKey = Some (used_at (clock w))
             /\ match result check w1 with
                | Returned rl =>
                    if allowed rl then
                      exec route w
                      = exec (ScoreService.updateScore
                                (handler_request userId b (clock w2))
                                (ip_or_unknown ip) (or_unknown userAgent)) w2
                    else
                      result route w
                      = Returned (error_json 429 ErrorCodes.RATE_LIMIT_EXCEEDED
                                    "Rate limit exceeded. Please try again later.")
                      /\ exec route w = w1
                      /\ keys (redis (exec route w)) !! nonceKey
                         = Some (used_at (clock w))
                      /\ db (exec route w) = db w
                | Thrown _ =>
                    result route w
                    = Returned (error_json 500 ErrorCodes.INTERNAL_ERROR
                                  "Internal server error")
                end
         | Thrown _ => False
         end
  end.
Proof.
  intros Hc Hl validate check route nonceKey countKey w1 w2.
  assert (route w
          = validateScoreUpdate b (updateUserScoreHandler userId b ip userAgent) w) as Hroute.
  { unfold route. rewrite (postUserScore_run userId b ip userAgent w Hc).
    destruct (String.eqb userId "") eqn:He.
    { apply String.eqb_eq in He. subst. cbn in Hl. lia. }
    assert ((Z.of_nat (String.length userId) <? 3) = false) as -> by (apply Z.ltb_ge; lia).
    reflexivity. }
  unfold validateScoreUpdate in Hroute.
  destruct (scoreUpdateSchema b) as [message|] eqn:Hs; [exact Hroute|].
  split; [exact (proj2 (schema_accepted b Hs))|].
  pose proof (handler_order w userId b ip userAgent) as Ho. cbv zeta in Ho.
  fold validate check nonceKey countKey w1 w2 in Ho.
  assert (result route w = result (updateUserScoreHandler userId b ip userAgent) w) as ->
    by (unfold result; now rewrite Hroute).
  assert (exec route w = exec (updateUserScoreHandler userId b ip userAgent) w) as ->
    by (unfold exec; now rewrite Hroute).
  destruct (result validate w) as [[|error]|e]; [|exact Ho|exact Ho].
  destruct Ho as [Hnonce Ho]. split; [exact Hnonce|].
  destruct (result check w1) as [rl|e]; [|exact Ho].
  destruct (allowed rl); [exact Ho|].
  destruct Ho as (Hres & Hex & Hdb). rewrite Hex.
  repeat apply conj; try assumption; reflexivity.
Qed.

(** The theorem at alice's first request. *)
Lemma route_checks_body_then_token_then_rate_limit_witness :
  keys (redis (exec (validateActionToken (Scenario.token "n1" "GAME_COMPLETE") "alice")
                 initial)) !! tokenKey "n1"
  = Some (used_at 0).
Proof.
  refine (proj1 (proj2 (route_checks_body_then_token_then_rate_limit initial "alice"
                          (Scenario.body "n1" 100) Scenario.address "agent" _ _))).
  - reflexivity.
  - cbn. lia.
Defined.

End RouteOrder.

(** ** The score update and the cached snapshots *)

Section Invalidation.

Import AuthService scoreRoutes.






End Invalidation.
